(** * tool-schema: keyword ordering, output propagation and keyword validation

    A shallow embedding of the parts of the tool-schema JSON Schema engine
    that order keywords ([sortKeywords]), build the output tree
    ([initOutput], [emitOutput], [attachError], [attachAnnotation],
    checkpoints), run the validation pipeline ([validateSchemaResource],
    [Schema.validate]) and implement the applicator, unevaluated, reference
    and validation keywords, followed by the properties proved about them.

    JavaScript objects that the engine mutates in place (stack frames and
    their output units) are modelled by explicit state passing over the
    evaluation stack; exceptions are modelled by a result type. *)

From Stdlib Require Import List String Ascii Bool Arith ZArith NArith Lia.
From Stdlib Require Import Permutation DecimalString.
Import ListNotations.
Local Open Scope string_scope.
Local Open Scope list_scope.

Set Implicit Arguments.
Set Warnings "-register-all".

(* ===================================================================== *)
(** * Part I: definitions *)
(* ===================================================================== *)

(** ** JSON values

    [frame.node] and [frame.instance] are JSON values or [undefined]; the
    latter is [None] at an [option JSON] type.  Numbers are modelled by
    integers: every number that the modelled keywords produce or compare
    against annotations is an array index or a length.  Numbers with a
    fraction are outside the development. *)

Inductive JSON : Type :=
| JNull : JSON
| JBool (b : bool) : JSON
| JNum (z : Z) : JSON
| JStr (s : string) : JSON
| JArr (items : list JSON) : JSON
| JObj (fields : list (string * JSON)) : JSON.

(** [isObject] and [isArray] of tool-json. *)
Definition isObject (v : option JSON) : bool :=
  match v with Some (JObj _) => true | _ => false end.

Definition isArray (v : option JSON) : bool :=
  match v with Some (JArr _) => true | _ => false end.

(** The own property [key] of an object, where it has one: the first field
    with that name.  A property read [obj[key]] also finds inherited
    members: see [getMember] below. *)
Fixpoint getField (key : string) (fields : list (string * JSON)) : option JSON :=
  match fields with
  | [] => None
  | (k, v) :: rest => if String.eqb k key then Some v else getField key rest
  end.

(** A node key or instance key: [string | number]. *)
Inductive Key : Type :=
| KStr (s : string)
| KNum (n : nat).

Definition natToString (n : nat) : string :=
  NilEmpty.string_of_uint (Nat.to_uint n).

(** [String(key)]. *)
Definition keyToString (k : Key) : string :=
  match k with KStr s => s | KNum n => natToString n end.

(** [escapePointer] of tool-json: JSON Pointer escaping (RFC 6901). *)
Fixpoint escapePointer (s : string) : string :=
  match s with
  | EmptyString => EmptyString
  | String c rest =>
      if Ascii.eqb c "~"%char then "~0" ++ escapePointer rest
      else if Ascii.eqb c "/"%char then "~1" ++ escapePointer rest
      else String c (escapePointer rest)
  end.

(** [JSON.stringify] restricted to strings: the text between double quotes,
    where the quote and the backslash are escaped by a backslash, the
    control characters by their short names or by [\u00XX].  A code unit is
    a byte here, so lone surrogates do not arise. *)
Definition dquote : string := String (ascii_of_nat 34) EmptyString.
Definition backslash : ascii := ascii_of_nat 92.

Definition hexDigit (n : nat) : ascii :=
  if Nat.ltb n 10 then ascii_of_nat (48 + n) else ascii_of_nat (87 + n).

Definition escapeCode (c : ascii) : string :=
  let n := nat_of_ascii c in
  if Nat.eqb n 34 then String backslash dquote
  else if Nat.eqb n 92 then String backslash (String backslash EmptyString)
  else if Nat.eqb n 8 then String backslash "b"
  else if Nat.eqb n 12 then String backslash "f"
  else if Nat.eqb n 10 then String backslash "n"
  else if Nat.eqb n 13 then String backslash "r"
  else if Nat.eqb n 9 then String backslash "t"
  else if Nat.ltb n 32
  then String backslash
         ("u00" ++ String (hexDigit (n / 16)) (String (hexDigit (n mod 16)) EmptyString))
  else String c EmptyString.

Fixpoint escapeString (s : string) : string :=
  match s with
  | EmptyString => EmptyString
  | String c rest => escapeCode c ++ escapeString rest
  end.

Definition stringify (s : string) : string := dquote ++ escapeString s ++ dquote.

(** [s.startsWith("@")]. *)
Definition startsWithAt (s : string) : bool :=
  match s with
  | String c _ => Ascii.eqb c "@"%char
  | EmptyString => false
  end.

(** [list.includes(s)] on string arrays. *)
Definition includes (s : string) (l : list string) : bool :=
  existsb (String.eqb s) l.

(** ** Members inherited from [Object.prototype]

    A property read [obj[key]] on an object literal, or on an object that
    [JSON.parse] made, finds the own properties of the object and, failing
    that, the members it inherits from [Object.prototype]: functions, and
    under [__proto__] the prototype object itself.  None of them is
    [undefined], and none has a [key], [dependencies] or [dependents]. *)
Definition objectPrototypeMembers : list string :=
  [ "constructor"; "__defineGetter__"; "__defineSetter__"; "hasOwnProperty";
    "__lookupGetter__"; "__lookupSetter__"; "isPrototypeOf"; "propertyIsEnumerable";
    "toString"; "valueOf"; "__proto__"; "toLocaleString" ].

Definition inheritedMember (k : string) : bool := includes k objectPrototypeMembers.

(** What [obj[key]] yields. *)
Inductive Member (A : Type) : Type :=
| Own (a : A)
| Inherited
| Missing.

Arguments Own {A} a.
Arguments Inherited {A}.
Arguments Missing {A}.

Definition getMember (key : string) (fields : list (string * JSON)) : Member JSON :=
  match getField key fields with
  | Some v => Own v
  | None => if inheritedMember key then Inherited else Missing
  end.

(** [obj[key] !== undefined]. *)
Definition hasMember (key : string) (fields : list (string * JSON)) : bool :=
  match getMember key fields with
  | Missing => false
  | _ => true
  end.

(** ** Errors *)

Inductive Error : Type :=
| ValidationError (message : string)
| ProcessingError (message : string)
| TypeError (message : string)
| SyntaxError (message : string).

(** ** Output units (output.ts) *)

Inductive OutputUnit : Type := mkOutput {
  valid : bool;
  keywordLocation : option string;
  absoluteKeywordLocation : option string;
  instanceLocation_ : option string;
  error : option string;
  annotation : option JSON;
  errors : option (list OutputUnit);
  annotations : option (list OutputUnit)
}.

(** The object literal [{ valid: true }]. *)
Definition newOutput : OutputUnit :=
  mkOutput true None None None None None None None.

Definition setValid (b : bool) (o : OutputUnit) : OutputUnit :=
  mkOutput b (keywordLocation o) (absoluteKeywordLocation o)
    (instanceLocation_ o) (error o) (annotation o) (errors o) (annotations o).

Definition setError (e : option string) (o : OutputUnit) : OutputUnit :=
  mkOutput (valid o) (keywordLocation o) (absoluteKeywordLocation o)
    (instanceLocation_ o) e (annotation o) (errors o) (annotations o).

Definition setAnnotation (a : option JSON) (o : OutputUnit) : OutputUnit :=
  mkOutput (valid o) (keywordLocation o) (absoluteKeywordLocation o)
    (instanceLocation_ o) (error o) a (errors o) (annotations o).

Definition setErrors (l : option (list OutputUnit)) (o : OutputUnit) : OutputUnit :=
  mkOutput (valid o) (keywordLocation o) (absoluteKeywordLocation o)
    (instanceLocation_ o) (error o) (annotation o) l (annotations o).

Definition setAnnotations (l : option (list OutputUnit)) (o : OutputUnit) : OutputUnit :=
  mkOutput (valid o) (keywordLocation o) (absoluteKeywordLocation o)
    (instanceLocation_ o) (error o) (annotation o) (errors o) l.

(** ** Stack frames and the context (context.ts)

    A frame's [parent] pointer is its position in the stack: the stack is the
    list of frames from the current (topmost) frame to the root. *)

Record SchemaFrame : Type := mkFrame {
  nodeKey : option Key;
  node : option JSON;
  instanceKey : option Key;
  instance : option JSON;
  baseUri : option string;
  output : option OutputUnit
}.

(** [createSchemaFrame]: every field starts out [undefined]. *)
Definition createSchemaFrame : SchemaFrame :=
  mkFrame None None None None None None.

Definition setNodeKey (k : option Key) (f : SchemaFrame) : SchemaFrame :=
  mkFrame k (node f) (instanceKey f) (instance f) (baseUri f) (output f).
Definition setNode (n : option JSON) (f : SchemaFrame) : SchemaFrame :=
  mkFrame (nodeKey f) n (instanceKey f) (instance f) (baseUri f) (output f).
Definition setInstanceKey (k : option Key) (f : SchemaFrame) : SchemaFrame :=
  mkFrame (nodeKey f) (node f) k (instance f) (baseUri f) (output f).
Definition setInstance (i : option JSON) (f : SchemaFrame) : SchemaFrame :=
  mkFrame (nodeKey f) (node f) (instanceKey f) i (baseUri f) (output f).
Definition setBaseUri (b : option string) (f : SchemaFrame) : SchemaFrame :=
  mkFrame (nodeKey f) (node f) (instanceKey f) (instance f) b (output f).
Definition setOutput (o : option OutputUnit) (f : SchemaFrame) : SchemaFrame :=
  mkFrame (nodeKey f) (node f) (instanceKey f) (instance f) (baseUri f) o.

(** ** Keyword descriptors (keyword.ts) *)

Record KeywordDesc : Type := mkKeyword {
  key : string;
  dependencies : list string;
  dependents : list string
}.

(** ** Schema resources (resource.ts)

    [keys] holds the sorted keyword descriptors; the behaviour of a keyword is
    found through the dialect named by [dialect] (see [Dialect] below). *)

Record SchemaResource : Type := mkResource {
  resourceNode : JSON;
  resourceUri : option string;
  resourceBaseUri : option string;
  dialect : option string;
  keys : option (list KeywordDesc)
}.

(** A registered reference of tool-json: target node and unresolved URI. *)
Record Reference : Type := mkReference {
  target : option JSON;
  referenceUri : string
}.

(** The processing context.  Nodes are looked up by value: two nodes with
    equal contents share a registry entry. *)
Record Context : Type := mkContext {
  stack : list SchemaFrame;
  resources : list (JSON * SchemaResource);
  references : list (JSON * Reference);
  defaultDialect : option string;
  patternCache : list string
}.

Definition setStack (s : list SchemaFrame) (c : Context) : Context :=
  mkContext s (resources c) (references c) (defaultDialect c) (patternCache c).
Definition setResources (r : list (JSON * SchemaResource)) (c : Context) : Context :=
  mkContext (stack c) r (references c) (defaultDialect c) (patternCache c).
Definition setPatternCache (p : list string) (c : Context) : Context :=
  mkContext (stack c) (resources c) (references c) (defaultDialect c) p.

(** ** The state-and-exception monad

    A computation receives the context and returns a value or a thrown error,
    together with the context as it stands at that point: an exception does
    not undo the mutations made before it. *)

Definition M (A : Type) : Type := Context -> (Error + A) * Context.

Definition ret {A} (a : A) : M A := fun c => (inr a, c).
Definition throw {A} (e : Error) : M A := fun c => (inl e, c).
Definition bind {A B} (m : M A) (f : A -> M B) : M B :=
  fun c => match m c with
           | (inr a, c') => f a c'
           | (inl e, c') => (inl e, c')
           end.

Notation "x <- c1 ;; c2" := (bind c1 (fun x => c2))
  (at level 61, c1 at next level, right associativity).
Notation "c1 ;; c2" := (bind c1 (fun _ => c2))
  (at level 61, right associativity).

Definition getStack : M (list SchemaFrame) := fun c => (inr (stack c), c).
Definition putStack (s : list SchemaFrame) : M unit := fun c => (inr tt, setStack s c).

(** [currentFrame(context)]: the topmost frame. *)
Definition currentFrame : M SchemaFrame :=
  fun c => match stack c with
           | f :: _ => (inr f, c)
           | [] => (inl (ProcessingError "no current frame"), c)
           end.

(** Assignments [frame.x = ...] on the topmost frame. *)
Definition modifyFrame (g : SchemaFrame -> SchemaFrame) : M unit :=
  fun c => match stack c with
           | f :: rest => (inr tt, setStack (g f :: rest) c)
           | [] => (inl (ProcessingError "no current frame"), c)
           end.

(** [nestFrame(context, fn)] of tool-json: push a frame made by
    [createSchemaFrame], run the body, and pop the frame on every exit path. *)
Definition nestFrame {A} (body : M A) : M A :=
  fun c =>
    let (r, c') := body (setStack (createSchemaFrame :: stack c) c) in
    (r, setStack (tl (stack c')) c').

(** ** sortKeywords (keyword.ts)

    The array is a list; [keywords[k] = v] is [setNth]. *)

Fixpoint setNth {A} (k : nat) (v : A) (l : list A) : list A :=
  match l, k with
  | [], _ => []
  | _ :: rest, O => v :: rest
  | x :: rest, S k' => x :: setNth k' v rest
  end.

Definition emptyKeyword : KeywordDesc := mkKeyword "" [] [].

(** [for (let k = from; k > to; k -= 1) keywords[k] = keywords[k - 1];]
    run for [steps = from - to] iterations. *)
Fixpoint shiftLoop (steps k : nat) (keywords : list KeywordDesc) : list KeywordDesc :=
  match steps with
  | O => keywords
  | S steps' =>
      shiftLoop steps' (k - 1) (setNth k (nth (k - 1) keywords emptyKeyword) keywords)
  end.

(** Shift the keyword at index [from] to index [to] ([to < from]): the
    keywords in between move one place to the right. *)
Definition shiftTo (from to : nat) (keywords : list KeywordDesc) : list KeywordDesc :=
  let moved := nth from keywords emptyKeyword in
  setNth to moved (shiftLoop (from - to) from keywords).

(** First index [j] (scanning from [j0]) whose keyword satisfies [p j kw]. *)
Fixpoint findFrom (p : nat -> KeywordDesc -> bool) (j0 : nat)
    (keywords : list KeywordDesc) : option nat :=
  match keywords with
  | [] => None
  | kw :: rest => if p j0 kw then Some j0 else findFrom p (S j0) rest
  end.

(** [depIndex]: the first index whose key is [name], or [None] for [-1]. *)
Definition indexOfKey (name : string) (keywords : list KeywordDesc) : option nat :=
  findFrom (fun _ kw => String.eqb (key kw) name) 0 keywords.

(** The loop over [keyword.dependencies] at index [i]: [Some] of the
    rearranged array when a shift happened ([changed = true]). *)
Fixpoint processDependencies (i : nat) (deps : list string)
    (keywords : list KeywordDesc) : option (list KeywordDesc) :=
  match deps with
  | [] => None
  | dependency :: rest =>
      if startsWithAt dependency then
        match findFrom (fun j kw => includes dependency (dependents kw) && (Nat.ltb i j)) 0 keywords with
        | Some j => Some (shiftTo j i keywords)
        | None => processDependencies i rest keywords
        end
      else
        match indexOfKey dependency keywords with
        | Some depIndex =>
            if Nat.ltb i depIndex then Some (shiftTo depIndex i keywords)
            else processDependencies i rest keywords
        | None => processDependencies i rest keywords
        end
  end.

(** The loop over [keyword.dependents] at index [i]. *)
Fixpoint processDependents (i : nat) (deps : list string)
    (keywords : list KeywordDesc) : option (list KeywordDesc) :=
  match deps with
  | [] => None
  | dependent :: rest =>
      if startsWithAt dependent then
        match findFrom (fun j kw => includes dependent (dependencies kw) && (Nat.ltb j i)) 0 keywords with
        | Some j => Some (shiftTo i j keywords)
        | None => processDependents i rest keywords
        end
      else
        match indexOfKey dependent keywords with
        | Some depIndex =>
            if Nat.ltb depIndex i then Some (shiftTo i depIndex keywords)
            else processDependents i rest keywords
        | None => processDependents i rest keywords
        end
  end.

(** The body of [for (let i = 0; i < n; i += 1)], for the indices [i, i+1, ...]
    ([count] of them): the first shift found ends the pass. *)
Fixpoint sortPass (count i : nat) (keywords : list KeywordDesc)
    : option (list KeywordDesc) :=
  match count with
  | O => None
  | S count' =>
      let keyword := nth i keywords emptyKeyword in
      match processDependencies i (dependencies keyword) keywords with
      | Some keywords' => Some keywords'
      | None =>
          match processDependents i (dependents keyword) keywords with
          | Some keywords' => Some keywords'
          | None => sortPass count' (S i) keywords
          end
      end
  end.

Definition joinWith (sep : string) (l : list string) : string :=
  match l with
  | [] => ""
  | x :: rest => fold_left (fun acc y => (acc ++ sep ++ y)%string) rest x
  end.

Definition cycleMessage (keywords : list KeywordDesc) : string :=
  "Cycle detected in keyword dependencies: " ++
  joinWith ", " (map (fun keyword => stringify (key keyword)) keywords).

(** [while (changed)]: [remaining] is [maxIterations - iterations]. *)
Fixpoint sortLoop (remaining : nat) (keywords : list KeywordDesc)
    : Error + list KeywordDesc :=
  match remaining with
  | O => inl (ValidationError (cycleMessage keywords))
  | S remaining' =>
      match sortPass (List.length keywords) 0 keywords with
      | Some keywords' => sortLoop remaining' keywords'
      | None => inr keywords
      end
  end.

Definition sortKeywords (keywords : list KeywordDesc) : Error + list KeywordDesc :=
  let n := List.length keywords in
  if Nat.eqb n 0 then inr keywords
  else sortLoop (n * n) keywords.

(** *** sortKeywords on an array that holds an inherited member

    [parseSchemaResource] sorts the array of
    [dialect.keywords[key] ?? unknownKeyword(key)].  For a key that names a
    member that the keywords object inherits, the array holds that member
    ([None] here) in place of a keyword: its [key], [dependencies] and
    [dependents] are [undefined], so it never matches a name, and iterating
    its lists or calling [includes] on them throws a TypeError.  What follows
    is the code of [sortKeywords] on such an array. *)
Fixpoint shiftMembersLoop (steps k : nat) (members : list (option KeywordDesc))
    : list (option KeywordDesc) :=
  match steps with
  | O => members
  | S steps' =>
      shiftMembersLoop steps' (k - 1) (setNth k (nth (k - 1) members None) members)
  end.

Definition shiftMember (from to : nat) (members : list (option KeywordDesc))
    : list (option KeywordDesc) :=
  let moved := nth from members None in
  setNth to moved (shiftMembersLoop (from - to) from members).

(** The scans whose test starts with [.dependents.includes(...)] or
    [.dependencies.includes(...)]. *)
Fixpoint findIncluding (p : nat -> KeywordDesc -> bool) (j0 : nat)
    (members : list (option KeywordDesc)) : Error + option nat :=
  match members with
  | [] => inr None
  | None :: _ => inl (TypeError "Cannot read properties of undefined (reading 'includes')")
  | Some keyword :: rest =>
      if p j0 keyword then inr (Some j0) else findIncluding p (S j0) rest
  end.

(** The scans for [keywords[j].key === name]. *)
Fixpoint indexOfMemberKey (name : string) (j0 : nat) (members : list (option KeywordDesc))
    : option nat :=
  match members with
  | [] => None
  | member :: rest =>
      if match member with
         | Some keyword => String.eqb (key keyword) name
         | None => false
         end
      then Some j0 else indexOfMemberKey name (S j0) rest
  end.

Fixpoint processMemberDependencies (i : nat) (deps : list string)
    (members : list (option KeywordDesc)) : Error + option (list (option KeywordDesc)) :=
  match deps with
  | [] => inr None
  | dependency :: rest =>
      if startsWithAt dependency then
        match findIncluding (fun j keyword =>
                               includes dependency (dependents keyword) && (Nat.ltb i j))
                            0 members with
        | inl e => inl e
        | inr (Some j) => inr (Some (shiftMember j i members))
        | inr None => processMemberDependencies i rest members
        end
      else
        match indexOfMemberKey dependency 0 members with
        | Some depIndex =>
            if Nat.ltb i depIndex then inr (Some (shiftMember depIndex i members))
            else processMemberDependencies i rest members
        | None => processMemberDependencies i rest members
        end
  end.

Fixpoint processMemberDependents (i : nat) (deps : list string)
    (members : list (option KeywordDesc)) : Error + option (list (option KeywordDesc)) :=
  match deps with
  | [] => inr None
  | dependent :: rest =>
      if startsWithAt dependent then
        match findIncluding (fun j keyword =>
                               includes dependent (dependencies keyword) && (Nat.ltb j i))
                            0 members with
        | inl e => inl e
        | inr (Some j) => inr (Some (shiftMember i j members))
        | inr None => processMemberDependents i rest members
        end
      else
        match indexOfMemberKey dependent 0 members with
        | Some depIndex =>
            if Nat.ltb depIndex i then inr (Some (shiftMember i depIndex members))
            else processMemberDependents i rest members
        | None => processMemberDependents i rest members
        end
  end.

(** One pass: at an inherited member, [for (... of keyword.dependencies)]
    throws. *)
Fixpoint sortMembersPass (count i : nat) (members : list (option KeywordDesc))
    : Error + option (list (option KeywordDesc)) :=
  match count with
  | O => inr None
  | S count' =>
      match nth i members None with
      | None => inl (TypeError "keyword.dependencies is not iterable")
      | Some keyword =>
          match processMemberDependencies i (dependencies keyword) members with
          | inl e => inl e
          | inr (Some members') => inr (Some members')
          | inr None =>
              match processMemberDependents i (dependents keyword) members with
              | inl e => inl e
              | inr (Some members') => inr (Some members')
              | inr None => sortMembersPass count' (S i) members
              end
          end
      end
  end.

(** [JSON.stringify(undefined)] is [undefined], which [join] writes as the
    empty text. *)
Definition memberCycleMessage (members : list (option KeywordDesc)) : string :=
  "Cycle detected in keyword dependencies: " ++
  joinWith ", " (map (fun member => match member with
                                    | Some keyword => stringify (key keyword)
                                    | None => ""
                                    end) members).

Fixpoint sortMembersLoop (remaining : nat) (members : list (option KeywordDesc))
    : Error + list (option KeywordDesc) :=
  match remaining with
  | O => inl (ValidationError (memberCycleMessage members))
  | S remaining' =>
      match sortMembersPass (List.length members) 0 members with
      | inl e => inl e
      | inr (Some members') => sortMembersLoop remaining' members'
      | inr None => inr members
      end
  end.

Definition sortMembers (members : list (option KeywordDesc))
    : Error + list (option KeywordDesc) :=
  let n := List.length members in
  if Nat.eqb n 0 then inr members
  else sortMembersLoop (n * n) members.

(** The array when it holds keywords only. *)
Fixpoint allKeywords (members : list (option KeywordDesc)) : option (list KeywordDesc) :=
  match members with
  | [] => Some []
  | Some keyword :: rest =>
      match allKeywords rest with
      | Some keywords => Some (keyword :: keywords)
      | None => None
      end
  | None :: _ => None
  end.

(** [sortKeywords(keywords, context)] as [parseSchemaResource] calls it.
    With an inherited member in the array the sort never returns: a pass
    that changes nothing visits every index, the member's too (see
    [sortMembers_throws] below); were it to return, the parse loop would
    fail to call the [parse] of the member. *)
Definition sortCollected (members : list (option KeywordDesc))
    : Error + list KeywordDesc :=
  match allKeywords members with
  | Some keywords => sortKeywords keywords
  | None =>
      match sortMembers members with
      | inl e => inl e
      | inr _ => inl (TypeError "keyword.parse is not a function")
      end
  end.

(** An acyclic list on which the sort gives up: ten keywords with real
    dependencies and dependents only. *)
Definition kw (k : string) (deps dpts : list string) : KeywordDesc := mkKeyword k deps dpts.

Definition slowKeywords : list KeywordDesc :=
  [ kw "D" ["A"] [];
    kw "I" ["J"; "F"; "B"; "E"] ["D"; "A"];
    kw "J" [] [];
    kw "A" [] ["D"];
    kw "C" [] ["I"; "H"; "B"; "G"];
    kw "B" ["H"; "G"; "C"] ["J"; "F"; "E"];
    kw "H" [] ["I"];
    kw "E" [] [];
    kw "F" ["E"] ["J"];
    kw "G" [] ["B"; "H"] ].

(** A valid order of [slowKeywords]. *)
Definition slowKeywordsSorted : list KeywordDesc :=
  [ kw "C" [] ["I"; "H"; "B"; "G"];
    kw "G" [] ["B"; "H"];
    kw "H" [] ["I"];
    kw "B" ["H"; "G"; "C"] ["J"; "F"; "E"];
    kw "E" [] [];
    kw "F" ["E"] ["J"];
    kw "J" [] [];
    kw "I" ["J"; "F"; "B"; "E"] ["D"; "A"];
    kw "A" [] ["D"];
    kw "D" ["A"] [] ].

(** The order in which [slowKeywords] stands when the sort gives up. *)
Definition slowKeywordsStuck : list KeywordDesc :=
  [ kw "G" [] ["B"; "H"];
    kw "H" [] ["I"];
    kw "C" [] ["I"; "H"; "B"; "G"];
    kw "B" ["H"; "G"; "C"] ["J"; "F"; "E"];
    kw "E" [] [];
    kw "F" ["E"] ["J"];
    kw "J" [] [];
    kw "I" ["J"; "F"; "B"; "E"] ["D"; "A"];
    kw "A" [] ["D"];
    kw "D" ["A"] [] ].

(** ** Collaborators from tool-json

    Functions of the tool-json package that the engine calls and whose code
    is not part of this repository are taken as an interface. *)

Class ToolJson : Type := {
  (** [currentLocation(context, frame)]: the absolute URI of the frame. *)
  currentLocation : list SchemaFrame -> string;
  (** [equal(a, b)]: deep equality of JSON values. *)
  equal : JSON -> JSON -> bool;
  (** [unicodeLength(s)]: number of code points. *)
  unicodeLength : string -> nat;
  (** [new RegExp(pattern, "u")]: [None] when the pattern does not compile,
      otherwise the [test] function of the regular expression. *)
  compilePattern : string -> option (string -> bool);
  (** [isValidUri(s)] of tool-uri. *)
  isValidUri : string -> bool
}.

(** Structural equality, used to look nodes up in the registries. *)
Fixpoint jsonEqb (a b : JSON) : bool :=
  match a, b with
  | JNull, JNull => true
  | JBool x, JBool y => Bool.eqb x y
  | JNum x, JNum y => Z.eqb x y
  | JStr x, JStr y => String.eqb x y
  | JArr xs, JArr ys =>
      (fix go (xs ys : list JSON) : bool :=
         match xs, ys with
         | [], [] => true
         | x :: xs', y :: ys' => jsonEqb x y && go xs' ys'
         | _, _ => false
         end) xs ys
  | JObj xs, JObj ys =>
      (fix go (xs ys : list (string * JSON)) : bool :=
         match xs, ys with
         | [], [] => true
         | (k, x) :: xs', (k', y) :: ys' =>
             String.eqb k k' && jsonEqb x y && go xs' ys'
         | _, _ => false
         end) xs ys
  | _, _ => false
  end.

Fixpoint lookupNode {A} (n : JSON) (l : list (JSON * A)) : option A :=
  match l with
  | [] => None
  | (m, a) :: rest => if jsonEqb m n then Some a else lookupNode n rest
  end.

(** [getResource(context, node)] and [getReference(context, node)]. *)
Definition getResource (c : Context) (n : JSON) : option SchemaResource :=
  lookupNode n (resources c).

Definition getReference (c : Context) (n : option JSON) : option Reference :=
  match n with
  | Some n => lookupNode n (references c)
  | None => None
  end.

(** [currentPointer(frame)] of tool-json: the node keys from the root to the
    frame, each escaped and preceded by a slash. *)
Fixpoint currentPointer (frames : list SchemaFrame) : string :=
  match frames with
  | [] => ""
  | frame :: parents =>
      (currentPointer parents ++
       match nodeKey frame with
       | Some k => "/" ++ escapePointer (keyToString k)
       | None => ""
       end)%string
  end.

(** [instanceLocation(frame)] (context.ts). *)
Fixpoint instanceLocation (frames : list SchemaFrame) : string :=
  match frames with
  | [] => ""
  | frame :: parents =>
      (instanceLocation parents ++
       match instanceKey frame with
       | Some k => "/" ++ escapePointer (keyToString k)
       | None => ""
       end)%string
  end.

Definition orElse {A} (o : option A) (d : A) : option A :=
  match o with Some _ => o | None => Some d end.

Section Output.
Context `{ToolJson}.

(** [initOutput(context, frame)] on the frame at the head of [frames]: the
    frame gets [{ valid: true }] when it has no output, and the three
    locations are filled in where they are [undefined].  The own-property
    bookkeeping ([!("error" in output)]) assigns [undefined] and is invisible
    at an option type. *)
Definition initOutputUnit (frames : list SchemaFrame) (o : OutputUnit) : OutputUnit :=
  mkOutput (valid o)
    (orElse (keywordLocation o) (currentPointer frames))
    (orElse (absoluteKeywordLocation o) (currentLocation frames))
    (orElse (instanceLocation_ o) (instanceLocation frames))
    (error o) (annotation o) (errors o) (annotations o).

Definition frameOutput (frames : list SchemaFrame) : OutputUnit :=
  match frames with
  | frame :: _ => match output frame with Some o => o | None => newOutput end
  | [] => newOutput
  end.

Definition initOutput (frames : list SchemaFrame) : list SchemaFrame * OutputUnit :=
  match frames with
  | [] => ([], newOutput)
  | frame :: parents =>
      let o := initOutputUnit frames (frameOutput frames) in
      (setOutput (Some o) frame :: parents, o)
  end.

(** The tests of [emitOutput]. *)
Definition noUnits (l : option (list OutputUnit)) : bool :=
  match l with
  | None => true
  | Some l => Nat.eqb (List.length l) 0
  end.

Definition oneUnit (l : option (list OutputUnit)) : bool :=
  match l with
  | Some l => Nat.eqb (List.length l) 1
  | None => false
  end.

Definition isUndefined {A} (o : option A) : bool :=
  match o with None => true | Some _ => false end.

Definition isEmptyOutput (o : OutputUnit) : bool :=
  isUndefined (error o) && isUndefined (annotation o) &&
  noUnits (errors o) && noUnits (annotations o).

Definition firstUnit (l : option (list OutputUnit)) (d : OutputUnit) : OutputUnit :=
  match l with
  | Some (u :: _) => u
  | _ => d
  end.

(** The hoisting step of [emitOutput]. *)
Definition hoistOutput (o : OutputUnit) : OutputUnit :=
  if isUndefined (error o) && isUndefined (annotation o) then
    if oneUnit (errors o) && (isUndefined (annotations o) || oneUnit (annotations o))
    then firstUnit (errors o) o
    else if oneUnit (annotations o) && (isUndefined (errors o) || oneUnit (errors o))
    then firstUnit (annotations o) o
    else o
  else o.

Definition pushUnit (l : option (list OutputUnit)) (u : OutputUnit) : option (list OutputUnit) :=
  match l with
  | None => Some [u]
  | Some l => Some (l ++ [u])
  end.

(** What [emitOutput] does to the ancestor output it found. *)
Definition chainOutput (o baseOutput : OutputUnit) : OutputUnit :=
  if negb (valid o)
  then setErrors (pushUnit (errors baseOutput) o) (setValid false baseOutput)
  else setAnnotations (pushUnit (annotations baseOutput) o) baseOutput.

(** The [while (frame !== undefined)] loop of [emitOutput] over the parents. *)
Fixpoint emitToParents (o : OutputUnit) (frames : list SchemaFrame)
    : list SchemaFrame * option OutputUnit :=
  match frames with
  | [] => ([], None)
  | frame :: parents =>
      match output frame with
      | Some baseOutput =>
          let baseOutput' := chainOutput o (initOutputUnit frames baseOutput) in
          (setOutput (Some baseOutput') frame :: parents, Some baseOutput')
      | None =>
          let (parents', r) := emitToParents o parents in
          (frame :: parents', r)
      end
  end.

(** [emitOutput(context, frame)] for the frame at the head of [frames]. *)
Definition emitOutputFrames (frames : list SchemaFrame)
    : list SchemaFrame * option OutputUnit :=
  match frames with
  | [] => ([], None)
  | frame :: parents =>
      match output frame with
      | None => (frames, None)
      | Some o =>
          if isEmptyOutput o then (frames, None)
          else
            let (parents', r) := emitToParents (hoistOutput o) parents in
            (frame :: parents', r)
      end
  end.

Definition emitOutput : M (option OutputUnit) :=
  fun c => let (frames, r) := emitOutputFrames (stack c) in (inr r, setStack frames c).

(** [attachError(context, message)]. *)
Definition attachError (message : string) : M OutputUnit :=
  _ <- currentFrame ;;
  frames <- getStack ;;
  let (frames', o) := initOutput frames in
  let o' := setError (Some message) (setValid false o) in
  putStack (match frames' with
            | frame :: parents => setOutput (Some o') frame :: parents
            | [] => []
            end) ;;
  ret o'.

(** [attachAnnotation(context, value)]. *)
Definition attachAnnotation (value : option JSON) : M OutputUnit :=
  _ <- currentFrame ;;
  frames <- getStack ;;
  let (frames', o) := initOutput frames in
  let o' := setAnnotation value o in
  putStack (match frames' with
            | frame :: parents => setOutput (Some o') frame :: parents
            | [] => []
            end) ;;
  ret o'.

Definition endsWith (s suffix : string) : bool :=
  Nat.leb (String.length suffix) (String.length s) &&
  String.eqb (substring (String.length s - String.length suffix)
                        (String.length suffix) s) suffix.

Definition startsWith (s p : string) : bool :=
  String.eqb (substring 0 (String.length p) s) p &&
  Nat.leb (String.length p) (String.length s).

Definition optStringEqb (a b : option string) : bool :=
  match a, b with
  | Some x, Some y => String.eqb x y
  | None, None => true
  | _, _ => false
  end.

(** [getAnnotations(output, keywordSuffix, annotations)]. *)
Fixpoint getAnnotationsUnit (keywordSuffix : string) (o : OutputUnit)
    (acc : list OutputUnit) {struct o} : list OutputUnit :=
  match o with
  | mkOutput v kl _ il _ ann _ anns =>
      if negb v then acc
      else
        let acc1 :=
          if negb (isUndefined ann) &&
             match kl with Some l => endsWith l keywordSuffix | None => false end
          then acc ++ [o] else acc in
        match anns with
        | None => acc1
        | Some units =>
            (fix visit (units : list OutputUnit) (acc : list OutputUnit) : list OutputUnit :=
               match units with
               | [] => acc
               | outputUnit :: rest =>
                   visit rest
                     (if isUndefined il || optStringEqb il (instanceLocation_ outputUnit)
                      then getAnnotationsUnit keywordSuffix outputUnit acc
                      else acc)
               end) units acc1
        end
  end.

Definition getAnnotations (o : option OutputUnit) (keywordSuffix : string)
    (acc : list OutputUnit) : list OutputUnit :=
  match o with
  | Some o => getAnnotationsUnit keywordSuffix o acc
  | None => acc
  end.

(** [getAnnotation(output, keywordLocation)]. *)
Fixpoint getAnnotationUnit (location : string) (o : OutputUnit) {struct o}
    : option OutputUnit :=
  match o with
  | mkOutput _ kl _ _ _ ann _ anns =>
      if optStringEqb kl (Some location) && negb (isUndefined ann) then Some o
      else
        match anns with
        | Some units =>
            if match kl with None => true | Some l => startsWith location l end
            then
              (fix visit (units : list OutputUnit) : option OutputUnit :=
                 match units with
                 | [] => None
                 | outputUnit :: rest =>
                     match getAnnotationUnit location outputUnit with
                     | Some subUnit => Some subUnit
                     | None => visit rest
                     end
                 end) units
            else None
        | None => None
        end
  end.

Definition getAnnotation (o : option OutputUnit) (location : string) : option OutputUnit :=
  match o with
  | Some o => getAnnotationUnit location o
  | None => None
  end.

(** [getChildAnnotation(frame, keyword)] for the frame at the head of
    [frames]; [None] when the frame is [undefined]. *)
Definition getChildAnnotation (frames : list SchemaFrame) (keyword : string)
    : option OutputUnit :=
  match frames with
  | [] => None
  | frame :: _ =>
      getAnnotation (output frame)
        (currentPointer frames ++ "/" ++ escapePointer keyword)%string
  end.

(** Checkpoints.  [checkpoint.output] is the output object of the frame at
    the time of the save; the frame keeps that object, so a restore writes to
    the frame's output exactly when an output existed at the save. *)
Record OutputCheckpoint : Type := mkCheckpoint {
  checkpointOutput : bool;
  checkpointValid : option bool;
  checkpointError : option string;
  checkpointErrors : option (list OutputUnit)
}.

Definition saveCheckpoint (o : option OutputUnit) : OutputCheckpoint :=
  match o with
  | Some o => mkCheckpoint true (Some (valid o)) (error o) (errors o)
  | None => mkCheckpoint false None None None
  end.

Definition restoreOutput (checkpoint : OutputCheckpoint) (o : OutputUnit) : OutputUnit :=
  setErrors (checkpointErrors checkpoint)
    (setError (checkpointError checkpoint)
       (setValid (match checkpointValid checkpoint with Some v => v | None => false end) o)).

Definition restoreCheckpoint (checkpoint : OutputCheckpoint) : M unit :=
  if checkpointOutput checkpoint then
    modifyFrame (fun frame =>
      match output frame with
      | Some o => setOutput (Some (restoreOutput checkpoint o)) frame
      | None => frame
      end)
  else ret tt.

End Output.

(** ** Keywords (keyword.ts)

    A keyword carries its descriptor and its two operations.  [parse] and
    [validate] receive the pipeline they recurse into ([parseSchemaResource],
    [validateSchemaResource]) as their argument. *)

Record Keyword : Type := mkKeywordImpl {
  descriptor : KeywordDesc;
  parse : M unit -> M unit;
  validate : M unit -> M unit
}.

(** A dialect: its meta-schema URI and its keywords by name. *)
Record Dialect : Type := mkDialect {
  dialectUri : string;
  keywords : list (string * Keyword)
}.

Fixpoint lookupString {A} (k : string) (l : list (string * A)) : option A :=
  match l with
  | [] => None
  | (k', a) :: rest => if String.eqb k' k then Some a else lookupString k rest
  end.

Definition getDialect (dialects : list Dialect) (uri : string) : option Dialect :=
  find (fun d => String.eqb (dialectUri d) uri) dialects.

Definition nop : M unit := ret tt.

Definition frameNode : M (option JSON) := frame <- currentFrame ;; ret (node frame).
Definition frameInstance : M (option JSON) := frame <- currentFrame ;; ret (instance frame).

(** [frame.parent]: the frames below the topmost one. *)
Definition parentFrames : M (list SchemaFrame) := frames <- getStack ;; ret (tl frames).

(** [frame.output.valid] of the current frame. *)
Definition readValid : M bool :=
  frame <- currentFrame ;;
  match output frame with
  | Some o => ret (valid o)
  | None => throw (TypeError "Cannot read properties of undefined (reading 'valid')")
  end.

Section Keywords.
Context `{ToolJson}.

(** [Keyword.prototype]: no dependencies, no dependents, [parse] and
    [validate] do nothing. *)
Definition KeywordPrototype (k : string) : Keyword :=
  mkKeywordImpl (mkKeyword k [] []) (fun _ => nop) (fun _ => nop).

(** [AnnotationKeyword.prototype.validate]:
    [attachAnnotation(context, context.stack?.node)]. *)
Definition annotationValidate : M unit :=
  frames <- getStack ;;
  attachAnnotation (match frames with frame :: _ => node frame | [] => None end) ;;
  ret tt.

(** [unknownKeyword(key)]. *)
Definition unknownKeyword (k : string) : Keyword :=
  mkKeywordImpl (mkKeyword k [] []) (fun _ => nop) (fun _ => annotationValidate).

(** The message lists: items separated by [", "], the last one by [sep]. *)
Fixpoint joinNames (sepLast : string) (names : list string) (i n : nat) : string :=
  match names with
  | [] => ""
  | name :: rest =>
      ((if Nat.eqb i 0 then "" else if negb (Nat.eqb i (n - 1)) then ", " else sepLast)
       ++ stringify name ++ joinNames sepLast rest (S i) n)%string
  end.

Definition namesMessage (singular plural : string) (names : list string) : string :=
  if Nat.eqb (List.length names) 1
  then (singular ++ stringify (hd "" names))%string
  else (plural ++ joinNames " and " names 0 (List.length names))%string.

Definition namesAnnotation (names : list string) : option JSON :=
  Some (JArr (map JStr names)).

Definition childFrame (k : option Key) (n : option JSON) (ik : option Key)
    (i : option JSON) (frame : SchemaFrame) : SchemaFrame :=
  setOutput (Some newOutput)
    (setInstance i (setInstanceKey ik (setNode n (setNodeKey k frame)))).

(** *** contains (applicator.ts) *)

(** The local variables [contains] ([None] is [true]) and [containsCount]. *)
Definition containsUpdate (index : nat) (v : bool) (st : option (list nat) * nat)
    : option (list nat) * nat :=
  let (contains, containsCount) := st in
  if v then
    (match contains with
     | Some l => Some (l ++ [index])
     | None => None
     end, S containsCount)
  else
    (match contains with
     | None => Some (seq 0 index)
     | Some l => Some l
     end, containsCount).

Definition containsChild (recur : M unit) (n : option JSON) (index : nat) (item : JSON)
    : M bool :=
  nestFrame (
    modifyFrame (fun frame =>
      setOutput (Some newOutput)
        (setInstance (Some item) (setInstanceKey (Some (KNum index)) (setNode n frame)))) ;;
    recur ;;
    v <- readValid ;;
    emitOutput ;;
    ret v).

Fixpoint containsLoop (recur : M unit) (n : option JSON) (items : list JSON)
    (index : nat) (st : option (list nat) * nat) : M (option (list nat) * nat) :=
  match items with
  | [] => ret st
  | item :: rest =>
      v <- containsChild recur n index item ;;
      containsLoop recur n rest (S index) (containsUpdate index v st)
  end.

Definition minContainsOf (parentNode : option JSON) : Z :=
  match parentNode with
  | Some (JObj fields) =>
      match getField "minContains" fields with
      | Some (JNum z) => z
      | _ => 1%Z
      end
  | _ => 1%Z
  end.

Definition containsAnnotation (contains : option (list nat)) : JSON :=
  match contains with
  | None => JBool true
  | Some l => JArr (map (fun i => JNum (Z.of_nat i)) l)
  end.

Definition containsValidate (recur : M unit) : M unit :=
  frame <- currentFrame ;;
  match instance frame with
  | Some (JArr items) =>
      let checkpoint := saveCheckpoint (output frame) in
      st <- containsLoop recur (node frame) items 0 (None, 0) ;;
      parents <- parentFrames ;;
      let minContains :=
        minContainsOf (match parents with p :: _ => node p | [] => None end) in
      if Nat.eqb (snd st) 0 && negb (Z.eqb minContains 0) then
        attachError "does not contain item" ;; ret tt
      else
        restoreCheckpoint checkpoint ;;
        attachAnnotation (Some (containsAnnotation (fst st))) ;;
        ret tt
  | _ => ret tt
  end.

(** *** unevaluatedItems (unevaluated.ts) *)

(** The loop over the collected annotations: [None] is the early [return]
    on a [true] annotation, otherwise [startIndex] and [contained]. *)
Fixpoint scanItemAnnotations (units : list OutputUnit) (startIndex : Z)
    (contained : option (list JSON)) : option (Z * option (list JSON)) :=
  match units with
  | [] => Some (startIndex, contained)
  | unit :: rest =>
      match annotation unit with
      | Some (JBool true) => None
      | Some (JNum value) => scanItemAnnotations rest (Z.max startIndex value) contained
      | Some (JArr value) =>
          scanItemAnnotations rest startIndex
            (Some (match contained with Some s => s | None => [] end ++ value))
      | _ => scanItemAnnotations rest startIndex contained
      end
  end.

(** [contained?.has(index) === true]. *)
Definition containedHas (contained : option (list JSON)) (index : nat) : bool :=
  match contained with
  | Some s => existsb (jsonEqb (JNum (Z.of_nat index))) s
  | None => false
  end.

(** The loop over the indices from [index]; [items] are the instance items
    from that index on.  The result is the pair of the locals [valid] and
    [count]. *)
Fixpoint unevaluatedItemsLoop (recur : M unit) (n : option JSON)
    (contained : option (list JSON)) (items : list JSON) (index : nat)
    (st : bool * nat) : M (bool * nat) :=
  match items with
  | [] => ret st
  | item :: rest =>
      if containedHas contained index then
        unevaluatedItemsLoop recur n contained rest (S index) st
      else
        st' <- nestFrame (
          modifyFrame (fun frame =>
            setOutput (Some newOutput)
              (setInstance (Some item)
                 (setInstanceKey (Some (KNum index)) (setNode n frame)))) ;;
          recur ;;
          v <- (if fst st then readValid else ret false) ;;
          emitOutput ;;
          ret (v, S (snd st))) ;;
        unevaluatedItemsLoop recur n contained rest (S index) st'
  end.

Definition parentOutput (parents : list SchemaFrame) : option OutputUnit :=
  match parents with
  | p :: _ => output p
  | [] => None
  end.

Definition itemAnnotations (parents : list SchemaFrame) : list OutputUnit :=
  getAnnotations (parentOutput parents) "/unevaluatedItems"
    (getAnnotations (parentOutput parents) "/contains"
       (getAnnotations (parentOutput parents) "/items"
          (getAnnotations (parentOutput parents) "/prefixItems" []))).

(** The part of [unevaluatedItems.validate] up to the end of its loop: the
    locals [valid] and [count], or [None] where it returned early. *)
Definition unevaluatedItemsApply (recur : M unit) : M (option (bool * nat)) :=
  frame <- currentFrame ;;
  match instance frame with
  | Some (JArr items) =>
      parents <- parentFrames ;;
      match scanItemAnnotations (itemAnnotations parents) 0%Z None with
      | None => ret None
      | Some (startIndex, contained) =>
          st <- unevaluatedItemsLoop recur (node frame) contained
                  (skipn (Z.to_nat startIndex) items) (Z.to_nat startIndex) (true, 0) ;;
          ret (Some st)
      end
  | _ => ret None
  end.

Definition unevaluatedItemsValidate (recur : M unit) : M unit :=
  applied <- unevaluatedItemsApply recur ;;
  match applied with
  | None => ret tt
  | Some _ => attachAnnotation (Some (JBool true)) ;; ret tt
  end.

(** *** properties, patternProperties, additionalProperties, propertyNames
    (applicator.ts)

    The loops return the locals [evaluatedProperties] and
    [invalidProperties] ([None] is [undefined]).  An entry of
    [Object.entries(instance)] of a JSON object always has a value, so the
    [value === undefined] tests never fire.  [isObject] of tool-json is
    taken to hold of plain objects only, not of functions. *)

Definition PropertyState : Type := (list string * option (list string))%type.

Definition pushInvalid (k : string) (invalid : option (list string)) : option (list string) :=
  Some (match invalid with Some l => l | None => [] end ++ [k]).

(** The tail of the four validate functions: the summary error and, for the
    first three, the annotation. *)
Definition reportProperties (singular plural : string) (annotate : bool)
    (st : PropertyState) : M unit :=
  let (evaluatedProperties, invalidProperties) := st in
  match invalidProperties with
  | Some invalid => attachError (namesMessage singular plural invalid) ;; ret tt
  | None =>
      if annotate then attachAnnotation (namesAnnotation evaluatedProperties) ;; ret tt
      else ret tt
  end.

(** [node[key]] for an instance key such as [constructor] finds an inherited
    member, which is not [undefined] and so becomes the node of the child
    frame.  [validateSchemaResource] throws on it before it does anything
    else: a function is not an object, and the prototype object, found under
    [__proto__], has no resource. *)
Definition inheritedSchemaMessage (k : string) : string :=
  if String.eqb k "__proto__" then "Uninitialized schema resource"
  else "Unexpected schema node".

Fixpoint propertiesLoop (recur : M unit) (schemas : list (string * JSON))
    (entries : list (string * JSON)) (st : PropertyState) : M PropertyState :=
  match entries with
  | [] => ret st
  | (k, value) :: rest =>
      match getMember k schemas with
      | Missing => propertiesLoop recur schemas rest st
      | Inherited => nestFrame (throw (ProcessingError (inheritedSchemaMessage k)))
      | Own subschema =>
          st' <- nestFrame (
            modifyFrame (childFrame (Some (KStr k)) (Some subschema)
                                    (Some (KStr k)) (Some value)) ;;
            recur ;;
            v <- readValid ;;
            emitOutput ;;
            ret (fst st ++ [k], if v then snd st else pushInvalid k (snd st))) ;;
          propertiesLoop recur schemas rest st'
      end
  end.

Definition propertiesValidate (recur : M unit) : M unit :=
  frame <- currentFrame ;;
  match instance frame with
  | Some (JObj entries) =>
      st <- propertiesLoop recur
              (match node frame with Some (JObj schemas) => schemas | _ => [] end)
              entries ([], None) ;;
      reportProperties "invalid property " "invalid properties " true st
  | _ => ret tt
  end.

(** [cachePattern(context, pattern)] (context.ts). *)
Definition cachePattern (pattern : string) : M (string -> bool) :=
  fun c =>
    match compilePattern pattern with
    | Some test =>
        (inr test,
         if includes pattern (patternCache c) then c
         else setPatternCache (patternCache c ++ [pattern]) c)
    | None => (inl (SyntaxError "Invalid regular expression"), c)
    end.

Fixpoint patternEntriesLoop (recur : M unit) (pattern : string) (subschema : JSON)
    (test : string -> bool) (entries : list (string * JSON)) (st : PropertyState)
    : M PropertyState :=
  match entries with
  | [] => ret st
  | (k, value) :: rest =>
      if negb (test k) then patternEntriesLoop recur pattern subschema test rest st
      else
        st' <- nestFrame (
          modifyFrame (childFrame (Some (KStr pattern)) (Some subschema)
                                  (Some (KStr k)) (Some value)) ;;
          recur ;;
          v <- readValid ;;
          ret (fst st ++ [k],
               if v then snd st
               else match snd st with
                    | Some l => if includes k l then Some l else Some (l ++ [k])
                    | None => Some [k]
                    end)) ;;
        patternEntriesLoop recur pattern subschema test rest st'
  end.

Fixpoint patternPropertiesLoop (recur : M unit) (patterns : list (string * JSON))
    (entries : list (string * JSON)) (st : PropertyState) : M PropertyState :=
  match patterns with
  | [] => ret st
  | (pattern, subschema) :: rest =>
      test <- cachePattern pattern ;;
      st' <- patternEntriesLoop recur pattern subschema test entries st ;;
      patternPropertiesLoop recur rest entries st'
  end.

Definition patternPropertiesValidate (recur : M unit) : M unit :=
  frame <- currentFrame ;;
  match instance frame with
  | Some (JObj entries) =>
      st <- patternPropertiesLoop recur
              (match node frame with Some (JObj patterns) => patterns | _ => [] end)
              entries ([], None) ;;
      reportProperties "invalid pattern property " "invalid pattern properties " true st
  | _ => ret tt
  end.

(** The names of an annotation that is an array ([Array.isArray(...)]); only
    its strings can be equal to a property name. *)
Definition annotationNames (u : option OutputUnit) : list string :=
  match u with
  | Some u =>
      match annotation u with
      | Some (JArr values) =>
          flat_map (fun v => match v with JStr s => [s] | _ => [] end) values
      | _ => []
      end
  | None => []
  end.

Fixpoint additionalPropertiesLoop (recur : M unit) (n : option JSON)
    (propertyNames : list string) (entries : list (string * JSON))
    (st : PropertyState) : M PropertyState :=
  match entries with
  | [] => ret st
  | (k, value) :: rest =>
      if includes k propertyNames
      then additionalPropertiesLoop recur n propertyNames rest st
      else
        st' <- nestFrame (
          modifyFrame (fun frame =>
            setOutput (Some newOutput)
              (setInstance (Some value) (setInstanceKey (Some (KStr k)) (setNode n frame)))) ;;
          recur ;;
          v <- readValid ;;
          ret (fst st ++ [k], if v then snd st else pushInvalid k (snd st))) ;;
        additionalPropertiesLoop recur n propertyNames rest st'
  end.

Definition additionalPropertiesValidate (recur : M unit) : M unit :=
  frame <- currentFrame ;;
  match instance frame with
  | Some (JObj entries) =>
      parents <- parentFrames ;;
      let propertyNames :=
        annotationNames (getChildAnnotation parents "properties") ++
        annotationNames (getChildAnnotation parents "patternProperties") in
      st <- additionalPropertiesLoop recur (node frame) propertyNames entries ([], None) ;;
      reportProperties "invalid additional property " "invalid additional properties "
        true st
  | _ => ret tt
  end.

Fixpoint propertyNamesLoop (recur : M unit) (n : option JSON)
    (entries : list (string * JSON)) (st : PropertyState) : M PropertyState :=
  match entries with
  | [] => ret st
  | (k, _) :: rest =>
      st' <- nestFrame (
        modifyFrame (fun frame =>
          setOutput (Some newOutput)
            (setInstance (Some (JStr k)) (setInstanceKey (Some (KStr k)) (setNode n frame)))) ;;
        recur ;;
        v <- readValid ;;
        ret (fst st, if v then snd st else pushInvalid k (snd st))) ;;
      propertyNamesLoop recur n rest st'
  end.

Definition propertyNamesValidate (recur : M unit) : M unit :=
  frame <- currentFrame ;;
  match instance frame with
  | Some (JObj entries) =>
      st <- propertyNamesLoop recur (node frame) entries ([], None) ;;
      reportProperties "invalid property name " "invalid property names " false st
  | _ => ret tt
  end.

(** *** $dynamicRef (core.ts) *)

(** [node.indexOf("#")] and [node.slice(hashIndex + 1)]: the text after the
    first [#], or [None] when there is none. *)
Fixpoint fragmentOf (s : string) : option string :=
  match s with
  | EmptyString => None
  | String c rest => if Ascii.eqb c "#"%char then Some rest else fragmentOf rest
  end.

(** [isObject(dynamicNode) && dynamicNode?.$dynamicAnchor === anchor]. *)
Definition declaresDynamicAnchor (anchor : string) (n : option JSON) : bool :=
  match n with
  | Some (JObj fields) =>
      match getField "$dynamicAnchor" fields with
      | Some (JStr a) => String.eqb a anchor
      | _ => false
      end
  | _ => false
  end.

(** The [do ... while (dynamicFrame !== undefined)] loop: from the current
    frame to the root, every matching frame replaces [resolved]. *)
Fixpoint dynamicResolve (anchor : string) (frames : list SchemaFrame) (resolved : JSON)
    : JSON :=
  match frames with
  | [] => resolved
  | dynamicFrame :: parents =>
      dynamicResolve anchor parents
        (if declaresDynamicAnchor anchor (node dynamicFrame)
         then match node dynamicFrame with Some n => n | None => resolved end
         else resolved)
  end.

Definition dynamicRefValidate (recur : M unit) : M unit :=
  frame <- currentFrame ;;
  frames <- getStack ;;
  fun c =>
    match getReference c (match tl frames with p :: _ => node p | [] => None end) with
    | None => (attachError "unknown schema reference" ;; ret tt) c
    | Some reference =>
        match target reference with
        | Some (JObj fields) =>
            match node frame with
            | Some (JStr uri) =>
                let resolved :=
                  match fragmentOf uri with
                  | Some anchor => dynamicResolve anchor frames (JObj fields)
                  | None => JObj fields
                  end in
                nestFrame (
                  modifyFrame (fun f => setInstance (instance frame) (setNode (Some resolved) f)) ;;
                  recur) c
            | _ => (inl (TypeError "node.indexOf is not a function"), c)
            end
        | _ => (attachError "unresolved schema reference" ;; ret tt) c
        end
    end.

(** *** Validation keywords (validation.ts)

    The keyword value [frame.node] has been checked by [parse]; a value of
    another type is read as the number [0], the empty string or the empty
    list by the casts below. *)

Definition zToString (z : Z) : string := NilEmpty.string_of_int (Z.to_int z).

Definition nodeNumber (n : option JSON) : Z :=
  match n with Some (JNum z) => z | _ => 0%Z end.

Definition nodeString (n : option JSON) : string :=
  match n with Some (JStr s) => s | _ => "" end.

Definition failWhen (b : bool) (message : string) : M unit :=
  if b then attachError message ;; ret tt else ret tt.

(** A keyword that applies to numbers: [typeof instance !== "number"]
    returns at once. *)
Definition onNumber (body : Z -> Z -> M unit) : M unit :=
  frame <- currentFrame ;;
  match instance frame with
  | Some (JNum i) => body (nodeNumber (node frame)) i
  | _ => ret tt
  end.

Definition onString (body : option JSON -> string -> M unit) : M unit :=
  frame <- currentFrame ;;
  match instance frame with
  | Some (JStr i) => body (node frame) i
  | _ => ret tt
  end.

Definition onArray (body : option JSON -> list JSON -> M unit) : M unit :=
  frame <- currentFrame ;;
  match instance frame with
  | Some (JArr i) => body (node frame) i
  | _ => ret tt
  end.

Definition onObject (body : option JSON -> list (string * JSON) -> M unit) : M unit :=
  frame <- currentFrame ;;
  match instance frame with
  | Some (JObj i) => body (node frame) i
  | _ => ret tt
  end.

(** [isInteger(instance / node)] where both numbers are integers and the
    division is exact, as it is for integers of small magnitude.  The source
    divides doubles: a number with a fraction is outside [JNum], and for
    large integers the quotient is rounded, possibly to an integer; no
    property below speaks of [multipleOf] on such numbers. *)
Definition dividesExactly (n i : Z) : bool :=
  negb (Z.eqb n 0) && Z.eqb (Z.rem i n) 0.

Definition multipleOfValidate : M unit :=
  onNumber (fun n i =>
    failWhen (negb (dividesExactly n i)) ("not a multiple of " ++ zToString n)).

Definition maximumValidate : M unit :=
  onNumber (fun n i => failWhen (Z.ltb n i) ("greater than " ++ zToString n)).

Definition exclusiveMaximumValidate : M unit :=
  onNumber (fun n i =>
    failWhen (Z.leb n i) ("greater than or equal to " ++ zToString n)).

Definition minimumValidate : M unit :=
  onNumber (fun n i => failWhen (Z.ltb i n) ("less than " ++ zToString n)).

Definition exclusiveMinimumValidate : M unit :=
  onNumber (fun n i =>
    failWhen (Z.leb i n) ("less than or equal to " ++ zToString n)).

Definition maxLengthValidate : M unit :=
  onString (fun n i =>
    failWhen (Z.ltb (nodeNumber n) (Z.of_nat (unicodeLength i)))
      ("longer than " ++ zToString (nodeNumber n) ++ " characters")).

Definition minLengthValidate : M unit :=
  onString (fun n i =>
    failWhen (Z.ltb (Z.of_nat (unicodeLength i)) (nodeNumber n))
      ("shorter than " ++ zToString (nodeNumber n) ++ " characters")).

Definition patternValidate : M unit :=
  onString (fun n i =>
    test <- cachePattern (nodeString n) ;;
    failWhen (negb (test i)) ("does not match pattern " ++ stringify (nodeString n))).

Definition maxItemsValidate : M unit :=
  onArray (fun n i =>
    failWhen (Z.ltb (nodeNumber n) (Z.of_nat (List.length i)))
      ("more than " ++ zToString (nodeNumber n) ++ " items")).

Definition minItemsValidate : M unit :=
  onArray (fun n i =>
    failWhen (Z.ltb (Z.of_nat (List.length i)) (nodeNumber n))
      ("fewer than " ++ zToString (nodeNumber n) ++ " items")).

(** The first pair [(i, j)], [i < j], of equal items, in the order of the two
    nested loops. *)
Fixpoint findEqualAfter (x : JSON) (rest : list JSON) (j : nat) : option nat :=
  match rest with
  | [] => None
  | y :: rest' => if equal x y then Some j else findEqualAfter x rest' (S j)
  end.

Fixpoint findDuplicate (items : list JSON) (i : nat) : option (nat * nat) :=
  match items with
  | [] => None
  | x :: rest =>
      match findEqualAfter x rest (S i) with
      | Some j => Some (i, j)
      | None => findDuplicate rest (S i)
      end
  end.

Definition uniqueItemsValidate : M unit :=
  frame <- currentFrame ;;
  match instance frame, node frame with
  | Some (JArr items), Some (JBool true) =>
      match findDuplicate items 0 with
      | Some (i, j) =>
          attachError ("duplicate item at index " ++ natToString i ++ " and " ++ natToString j) ;;
          ret tt
      | None => ret tt
      end
  | _, _ => ret tt
  end.

(** [getChildAnnotation(frame.parent, "contains")?.annotation]. *)
Definition containedAnnotation : M (option JSON) :=
  parents <- parentFrames ;;
  ret (match getChildAnnotation parents "contains" with
       | Some u => annotation u
       | None => None
       end).

Definition maxContainsValidate : M unit :=
  onArray (fun n i =>
    contained <- containedAnnotation ;;
    failWhen
      (match contained with
       | Some (JArr l) => Z.ltb (nodeNumber n) (Z.of_nat (List.length l))
       | Some (JBool true) => Z.ltb (nodeNumber n) (Z.of_nat (List.length i))
       | _ => false
       end)
      ("more than " ++ zToString (nodeNumber n) ++ " contained items")).

Definition minContainsValidate : M unit :=
  onArray (fun n i =>
    contained <- containedAnnotation ;;
    failWhen
      (match contained with
       | Some (JArr l) => Z.ltb (Z.of_nat (List.length l)) (nodeNumber n)
       | Some (JBool true) => Z.ltb (Z.of_nat (List.length i)) (nodeNumber n)
       | _ => false
       end)
      ("fewer than " ++ zToString (nodeNumber n) ++ " contained items")).

Definition maxPropertiesValidate : M unit :=
  onObject (fun n i =>
    failWhen (Z.ltb (nodeNumber n) (Z.of_nat (List.length i)))
      ("more than " ++ zToString (nodeNumber n) ++ " properties")).

Definition minPropertiesValidate : M unit :=
  onObject (fun n i =>
    failWhen (Z.ltb (Z.of_nat (List.length i)) (nodeNumber n))
      ("fewer than " ++ zToString (nodeNumber n) ++ " properties")).

Definition stringItems (n : option JSON) : list string :=
  match n with
  | Some (JArr l) => flat_map (fun v => match v with JStr s => [s] | _ => [] end) l
  | _ => []
  end.

Definition requiredValidate : M unit :=
  onObject (fun n i =>
    let missing := filter (fun k => negb (hasMember k i)) (stringItems n) in
    if negb (Nat.eqb (List.length missing) 0) then
      attachError ("missing required " ++
                   (if Nat.eqb (List.length missing) 1 then "property " else "properties ") ++
                   joinNames " and " missing 0 (List.length missing)) ;;
      ret tt
    else ret tt).

(** The pairs [[key, requirement]] of [dependentRequired]. *)
Definition missingDependents (n : option JSON) (i : list (string * JSON))
    : list (string * string) :=
  flat_map (fun entry =>
    match n with
    | Some (JObj requirements) =>
        match getMember (fst entry) requirements with
        | Own reqs =>
            map (fun r => (fst entry, r))
                (filter (fun r => negb (hasMember r i)) (stringItems (Some reqs)))
        | _ => []
        end
    | _ => []
    end) i.

(** [node[key]] finds an inherited member for an instance key such as
    [constructor]: a function, or the prototype object, neither of which
    [for ... of] can iterate. *)
Definition inheritedRequirements (n : option JSON) (i : list (string * JSON)) : bool :=
  match n with
  | Some (JObj requirements) =>
      existsb (fun entry =>
                 match getMember (fst entry) requirements with
                 | Inherited => true
                 | _ => false
                 end) i
  | _ => false
  end.

Fixpoint joinDependents (missing : list (string * string)) (i n : nat) : string :=
  match missing with
  | [] => ""
  | (k, requirement) :: rest =>
      ((if Nat.eqb i 0 then "" else if negb (Nat.eqb i (n - 1)) then ", " else " and ")
       ++ stringify requirement ++ " (required by " ++ stringify k ++ ")"
       ++ joinDependents rest (S i) n)%string
  end.

Definition dependentRequiredValidate : M unit :=
  onObject (fun n i =>
    let missing := missingDependents n i in
    if inheritedRequirements n i then throw (TypeError "requirements is not iterable")
    else if negb (Nat.eqb (List.length missing) 0) then
      attachError ("missing dependent " ++
                   (if Nat.eqb (List.length missing) 1 then "property " else "properties ") ++
                   joinDependents missing 0 (List.length missing)) ;;
      ret tt
    else ret tt).

(** The validation keywords that apply to one instance type only, with the
    [validate] of each. *)
Definition typedValidationKeywords : list (string * M unit) :=
  [ ("multipleOf", multipleOfValidate);
    ("maximum", maximumValidate);
    ("exclusiveMaximum", exclusiveMaximumValidate);
    ("minimum", minimumValidate);
    ("exclusiveMinimum", exclusiveMinimumValidate);
    ("maxLength", maxLengthValidate);
    ("minLength", minLengthValidate);
    ("pattern", patternValidate);
    ("maxItems", maxItemsValidate);
    ("minItems", minItemsValidate);
    ("uniqueItems", uniqueItemsValidate);
    ("maxContains", maxContainsValidate);
    ("minContains", minContainsValidate);
    ("maxProperties", maxPropertiesValidate);
    ("minProperties", minPropertiesValidate);
    ("required", requiredValidate);
    ("dependentRequired", dependentRequiredValidate) ].

(** The applicable domain of each of them, as a test on the instance. *)
Definition isNumber (v : option JSON) : bool :=
  match v with Some (JNum _) => true | _ => false end.
Definition isString (v : option JSON) : bool :=
  match v with Some (JStr _) => true | _ => false end.

Definition applicableDomain (k : string) : option JSON -> bool :=
  if existsb (String.eqb k)
       ["multipleOf"; "maximum"; "exclusiveMaximum"; "minimum"; "exclusiveMinimum"]
  then isNumber
  else if existsb (String.eqb k) ["maxLength"; "minLength"; "pattern"]
  then isString
  else if existsb (String.eqb k)
       ["maxItems"; "minItems"; "uniqueItems"; "maxContains"; "minContains"]
  then isArray
  else isObject.

End Keywords.

(** ** The pipeline (resource.ts, schema.ts) *)

Section Pipeline.
Context `{ToolJson}.
Variable dialects : list Dialect.

(** [isSchemaResource(resource)]. *)
Definition isSchemaResource (r : option SchemaResource) : bool :=
  match r with
  | Some r => negb (isUndefined (dialect r)) && negb (isUndefined (keys r))
  | None => false
  end.

(** [dialect.keywords[key] ?? unknownKeyword(key)], as the descriptor that
    the sort reads: the dialect's own keyword, else a member that the
    keywords object inherits from [Object.prototype] ([None]), else the
    unknown keyword. *)
Definition collectKeyword (d : Dialect) (k : string) : option KeywordDesc :=
  match lookupString k (keywords d) with
  | Some keyword => Some (descriptor keyword)
  | None =>
      if inheritedMember k then None else Some (descriptor (unknownKeyword k))
  end.

(** The keyword object that a parse cached in [resource.keys] under the key
    [k]: the dialect's own keyword of that name, or [unknownKeyword(k)].
    The cached list holds descriptors, and the loops of the pipeline find
    the operations of a keyword through its key; no cached key names an
    inherited member, since the sort throws on an array that holds one. *)
Definition keywordOf (d : option Dialect) (k : string) : Keyword :=
  match d with
  | Some d =>
      match lookupString k (keywords d) with
      | Some keyword => keyword
      | None => unknownKeyword k
      end
  | None => unknownKeyword k
  end.

Definition resourceDialect (r : SchemaResource) : option Dialect :=
  match dialect r with
  | Some uri => getDialect dialects uri
  | None => None
  end.

(** One round of the loop of [validateSchemaResource]: the frame of a
    keyword, its [validate], and the emission of its output. *)
Definition validateKeyword (recur : M unit) (d : option Dialect)
    (fields : list (string * JSON)) (inst : option JSON) (k : string) : M unit :=
  nestFrame (
    modifyFrame (fun frame =>
      setOutput (Some newOutput)
        (setInstance inst (setNode (getField k fields) (setNodeKey (Some (KStr k)) frame)))) ;;
    validate (keywordOf d k) recur ;;
    emitOutput ;;
    ret tt).

Fixpoint validateKeywords (recur : M unit) (d : option Dialect)
    (fields : list (string * JSON)) (inst : option JSON) (ks : list KeywordDesc)
    : M unit :=
  match ks with
  | [] => ret tt
  | keyword :: rest =>
      validateKeyword recur d fields inst (key keyword) ;;
      validateKeywords recur d fields inst rest
  end.

(** [validateSchemaResource(context)].  [fuel] bounds the depth of the
    recursion through the keywords. *)
Fixpoint validateSchemaResource (fuel : nat) : M unit :=
  match fuel with
  | O => throw (ProcessingError "recursion depth exhausted")
  | S fuel' =>
      frame <- currentFrame ;;
      match node frame with
      | Some (JBool true) => ret tt
      | Some (JBool false) => attachError "never valid" ;; ret tt
      | Some (JObj fields) =>
          fun c =>
            let resource := getResource c (JObj fields) in
            match resource with
            | Some r =>
                if isSchemaResource resource then
                  ((if isUndefined (baseUri frame)
                    then modifyFrame (setBaseUri (resourceBaseUri r))
                    else ret tt) ;;
                   validateKeywords (validateSchemaResource fuel') (resourceDialect r)
                     fields (instance frame)
                     (match keys r with Some ks => ks | None => [] end)) c
                else (inl (ProcessingError "Uninitialized schema resource"), c)
            | None => (inl (ProcessingError "Uninitialized schema resource"), c)
            end
      | _ => throw (ProcessingError "Unexpected schema node")
      end
  end.

(** A [Schema] handle: the raw node and the context it was parsed in. *)
Record Schema : Type := mkSchema {
  schemaNode : JSON;
  schemaContext : Context
}.

(** [Schema.validate(instance)]: the output object [{ valid: true }] is the
    output of the frame that isolates the validation, and is returned. *)
Definition validateInstance (fuel : nat) (schema : Schema) (inst : JSON)
    : Error + OutputUnit :=
  fst (nestFrame (
         modifyFrame (fun frame =>
           setOutput (Some newOutput)
             (setInstance (Some inst) (setNode (Some (schemaNode schema)) frame))) ;;
         validateSchemaResource fuel ;;
         frame <- currentFrame ;;
         ret (frameOutput [frame]))
       (schemaContext schema)).

(** [createResource(undefined, node)], [setResource(context, resource)] and
    the assignments to the fields of the registered resource. *)
Definition createResource (n : JSON) : SchemaResource :=
  mkResource n None None None None.

Definition setResource (r : SchemaResource) : M unit :=
  fun c => (inr tt, setResources ((resourceNode r, r) :: resources c) c).

Fixpoint updateNode {A} (n : JSON) (g : A -> A) (l : list (JSON * A)) : list (JSON * A) :=
  match l with
  | [] => []
  | (m, a) :: rest =>
      if jsonEqb m n then (m, g a) :: rest else (m, a) :: updateNode n g rest
  end.

Definition updateResource (n : JSON) (g : SchemaResource -> SchemaResource) : M unit :=
  fun c => (inr tt, setResources (updateNode n g (resources c)) c).

Definition setDialect (d : option string) (r : SchemaResource) : SchemaResource :=
  mkResource (resourceNode r) (resourceUri r) (resourceBaseUri r) d (keys r).

Definition setKeys (ks : option (list KeywordDesc)) (r : SchemaResource) : SchemaResource :=
  mkResource (resourceNode r) (resourceUri r) (resourceBaseUri r) (dialect r) ks.

(** The part of [parseSchemaResource] that determines the dialect of the
    schema: it stores the dialect in the resource and returns it. *)
Definition determineDialect (n : JSON) (fields : list (string * JSON)) : M Dialect :=
  match getField "$schema" fields with
  | Some schemaUri =>
      match schemaUri with
      | JStr uri =>
          if negb (isValidUri uri) then
            throw (ValidationError (stringify "$schema" ++ " must be a valid URI"))
          else
            updateResource n
              (setDialect (match getDialect dialects uri with
                           | Some d => Some (dialectUri d)
                           | None => None
                           end)) ;;
            match getDialect dialects uri with
            | Some d => ret d
            | None => throw (ValidationError ("Unknown dialect " ++ stringify uri))
            end
      | _ => throw (ValidationError (stringify "$schema" ++ " must be a string"))
      end
  | None =>
      fun c =>
        (updateResource n (setDialect (defaultDialect c)) ;;
         match defaultDialect c with
         | Some uri =>
             match getDialect dialects uri with
             | Some d => ret d
             | None => throw (ValidationError "No default dialect")
             end
         | None => throw (ValidationError "No default dialect")
         end) c
  end.

(** One round of the parse loop: the frame of a keyword and its [parse]. *)
Definition parseKeyword (recur : M unit) (d : Dialect)
    (fields : list (string * JSON)) (k : string) : M unit :=
  nestFrame (
    modifyFrame (fun frame => setNode (getField k fields) (setNodeKey (Some (KStr k)) frame)) ;;
    parse (keywordOf (Some d) k) recur).

Fixpoint parseKeywords (recur : M unit) (d : Dialect)
    (fields : list (string * JSON)) (ks : list KeywordDesc) : M unit :=
  match ks with
  | [] => ret tt
  | keyword :: rest =>
      parseKeyword recur d fields (key keyword) ;;
      parseKeywords recur d fields rest
  end.

Definition liftResult {A} (r : Error + A) : M A :=
  match r with
  | inl e => throw e
  | inr a => ret a
  end.

(** The part of [parseSchemaResource] between the lookup of the resource and
    the parse loop: the resource is created and registered if there is none,
    the dialect is determined, and the keywords of the node are collected,
    sorted and cached in the resource. *)
Definition prepareResource (n : JSON) (fields : list (string * JSON))
    (resource : option SchemaResource) : M (Dialect * list KeywordDesc) :=
  (if isUndefined resource then setResource (createResource n) else ret tt) ;;
  d <- determineDialect n fields ;;
  sorted <- liftResult (sortCollected (map (fun e => collectKeyword d (fst e)) fields)) ;;
  updateResource n (setKeys (Some sorted)) ;;
  ret (d, sorted).

(** [parseSchemaResource(context)]. *)
Fixpoint parseSchemaResource (fuel : nat) : M (option SchemaResource) :=
  match fuel with
  | O => throw (ProcessingError "recursion depth exhausted")
  | S fuel' =>
      frame <- currentFrame ;;
      match node frame with
      | Some (JBool _) => ret None
      | Some (JObj fields) =>
          let n := JObj fields in
          fun c =>
            let resource := getResource c n in
            if isSchemaResource resource then (inr resource, c)
            else
              (prepared <- prepareResource n fields resource ;;
               parseKeywords (parseSchemaResource fuel' ;; ret tt) (fst prepared) fields
                 (snd prepared) ;;
               fun c' => (inr (getResource c' n), c')) c
      | _ => throw (ValidationError "Schema must be an object or a boolean")
      end
  end.

End Pipeline.

(** ** Keyword values and a dialect

    The keywords modelled above as values of [Keyword], with their [parse]
    operations, and the dialect that maps their names to them: the part of
    the Draft 2020-12 dialect that this development covers. *)

Section Dialects.
Context `{ToolJson}.

Definition parseError (k what : string) : M unit :=
  throw (ValidationError (stringify k ++ " must be " ++ what)).

(** [parse] of the keywords whose value is a schema. *)
Definition parseSubschema (recur : M unit) : M unit := recur.

(** [parse] of the keywords whose value is an object of schemas. *)
Fixpoint parseMembers (recur : M unit) (members : list (string * JSON)) : M unit :=
  match members with
  | [] => ret tt
  | (k, subschema) :: rest =>
      nestFrame (
        modifyFrame (fun frame => setNode (Some subschema) (setNodeKey (Some (KStr k)) frame)) ;;
        recur) ;;
      parseMembers recur rest
  end.

Definition parseProperties (k : string) (recur : M unit) : M unit :=
  n <- frameNode ;;
  match n with
  | Some (JObj members) => parseMembers recur members
  | _ => parseError k "an object"
  end.

(** [patternProperties.parse]: a pattern that does not compile is passed
    over (the [catch] block is empty). *)
Fixpoint parsePatternMembers (recur : M unit) (members : list (string * JSON)) : M unit :=
  match members with
  | [] => ret tt
  | (pattern, subschema) :: rest =>
      (fun c => match cachePattern pattern c with
                | (inr _, c') => (inr tt, c')
                | (inl _, c') => (inr tt, c')
                end) ;;
      nestFrame (
        modifyFrame (fun frame =>
          setNode (Some subschema) (setNodeKey (Some (KStr pattern)) frame)) ;;
        recur) ;;
      parsePatternMembers recur rest
  end.

Definition parsePatternProperties (recur : M unit) : M unit :=
  n <- frameNode ;;
  match n with
  | Some (JObj members) => parsePatternMembers recur members
  | _ => parseError "patternProperties" "an object"
  end.

Definition parseNumber (k : string) : M unit :=
  n <- frameNode ;;
  match n with
  | Some (JNum _) => ret tt
  | _ => parseError k "a number"
  end.

Definition parseMultipleOf : M unit :=
  n <- frameNode ;;
  match n with
  | Some (JNum z) => if Z.leb z 0 then parseError "multipleOf" "a positive number" else ret tt
  | _ => parseError "multipleOf" "a positive number"
  end.

Definition parseNonNegative (k : string) : M unit :=
  n <- frameNode ;;
  match n with
  | Some (JNum z) =>
      if Z.ltb z 0 then parseError k "a non-negative integer" else ret tt
  | _ => parseError k "a non-negative integer"
  end.

Definition parsePattern : M unit :=
  n <- frameNode ;;
  match n with
  | Some (JStr pattern) =>
      fun c => match cachePattern pattern c with
               | (inr _, c') => (inr tt, c')
               | (inl _, c') => (inr tt, c')
               end
  | _ => parseError "pattern" "a string"
  end.

Definition parseBoolean (k : string) : M unit :=
  n <- frameNode ;;
  match n with
  | Some (JBool _) => ret tt
  | _ => parseError k "a boolean"
  end.

(** The loop of [required.parse] over the elements, with the set [seen]:
    the message of the first error, if any. *)
Fixpoint requiredError (l : list JSON) (seen : list string) : option string :=
  match l with
  | [] => None
  | JStr s :: rest =>
      if includes s seen
      then Some (stringify "required" ++ " property names must be unique (" ++ s ++ ")")%string
      else requiredError rest (s :: seen)
  | _ :: _ => Some (stringify "required" ++ " must be an array of strings")%string
  end.

Definition parseRequired : M unit :=
  n <- frameNode ;;
  match n with
  | Some (JArr l) =>
      match requiredError l [] with
      | Some message => throw (ValidationError message)
      | None => ret tt
      end
  | _ => parseError "required" "an array of strings"
  end.

(** The loops of [dependentRequired.parse]: over the elements of one array,
    and over the values of the object. *)
Fixpoint dependenciesError (l : list JSON) (seen : list string) : option string :=
  match l with
  | [] => None
  | JStr s :: rest =>
      if includes s seen
      then Some (stringify "dependentRequired" ++ " array elements must be unique")%string
      else dependenciesError rest (s :: seen)
  | _ :: _ => Some (stringify "dependentRequired" ++ " array elements must be strings")%string
  end.

Fixpoint dependentRequiredError (members : list (string * JSON)) : option string :=
  match members with
  | [] => None
  | (_, JArr l) :: rest =>
      match dependenciesError l [] with
      | Some message => Some message
      | None => dependentRequiredError rest
      end
  | _ :: _ => Some (stringify "dependentRequired" ++ " property values must be arrays")%string
  end.

Definition parseDependentRequired : M unit :=
  n <- frameNode ;;
  match n with
  | Some (JObj members) =>
      match dependentRequiredError members with
      | Some message => throw (ValidationError message)
      | None => ret tt
      end
  | _ => parseError "dependentRequired" "an object"
  end.

Definition keywordWith (k : string) (deps dpts : list string)
    (p v : M unit -> M unit) : string * Keyword :=
  (k, mkKeywordImpl (mkKeyword k deps dpts) p v).

Definition containsKeyword :=
  keywordWith "contains" [] [] parseSubschema containsValidate.
Definition propertiesKeyword :=
  keywordWith "properties" [] [] (parseProperties "properties") propertiesValidate.
Definition patternPropertiesKeyword :=
  keywordWith "patternProperties" [] [] parsePatternProperties patternPropertiesValidate.
Definition additionalPropertiesKeyword :=
  keywordWith "additionalProperties" ["properties"; "patternProperties"] []
    parseSubschema additionalPropertiesValidate.
Definition propertyNamesKeyword :=
  keywordWith "propertyNames" [] [] parseSubschema propertyNamesValidate.
Definition unevaluatedItemsKeyword :=
  keywordWith "unevaluatedItems" ["@unevaluated"; "prefixItems"; "items"; "contains"] []
    parseSubschema unevaluatedItemsValidate.

Definition validationKeywords : list (string * Keyword) :=
  [ keywordWith "multipleOf" [] [] (fun _ => parseMultipleOf) (fun _ => multipleOfValidate);
    keywordWith "maximum" [] [] (fun _ => parseNumber "maximum") (fun _ => maximumValidate);
    keywordWith "exclusiveMaximum" [] [] (fun _ => parseNumber "exclusiveMaximum")
      (fun _ => exclusiveMaximumValidate);
    keywordWith "minimum" [] [] (fun _ => parseNumber "minimum") (fun _ => minimumValidate);
    keywordWith "exclusiveMinimum" [] [] (fun _ => parseNumber "exclusiveMinimum")
      (fun _ => exclusiveMinimumValidate);
    keywordWith "maxLength" [] [] (fun _ => parseNonNegative "maxLength")
      (fun _ => maxLengthValidate);
    keywordWith "minLength" [] [] (fun _ => parseNonNegative "minLength")
      (fun _ => minLengthValidate);
    keywordWith "pattern" [] [] (fun _ => parsePattern) (fun _ => patternValidate);
    keywordWith "maxItems" [] [] (fun _ => parseNonNegative "maxItems")
      (fun _ => maxItemsValidate);
    keywordWith "minItems" [] [] (fun _ => parseNonNegative "minItems")
      (fun _ => minItemsValidate);
    keywordWith "uniqueItems" [] [] (fun _ => parseBoolean "uniqueItems")
      (fun _ => uniqueItemsValidate);
    keywordWith "maxContains" ["contains"] [] (fun _ => parseNonNegative "maxContains")
      (fun _ => maxContainsValidate);
    keywordWith "minContains" ["contains"] [] (fun _ => parseNonNegative "minContains")
      (fun _ => minContainsValidate);
    keywordWith "maxProperties" [] [] (fun _ => parseNonNegative "maxProperties")
      (fun _ => maxPropertiesValidate);
    keywordWith "minProperties" [] [] (fun _ => parseNonNegative "minProperties")
      (fun _ => minPropertiesValidate);
    keywordWith "required" [] [] (fun _ => parseRequired) (fun _ => requiredValidate);
    keywordWith "dependentRequired" [] [] (fun _ => parseDependentRequired)
      (fun _ => dependentRequiredValidate) ].

Definition dialect202012 : Dialect :=
  mkDialect "https://json-schema.org/draft/2020-12/schema"
    ([ containsKeyword; propertiesKeyword; patternPropertiesKeyword;
       additionalPropertiesKeyword; propertyNamesKeyword; unevaluatedItemsKeyword ]
     ++ validationKeywords).

End Dialects.

(** ** A concrete host, for running the definitions

    Stand-ins for the tool-json functions: the absolute location is the
    pointer after [#], deep equality is structural, every character is one
    code point, a pattern is a literal text searched in the input, and a URI
    is valid when it has a colon. *)

Fixpoint isPrefixOf (p s : string) : bool :=
  match p, s with
  | EmptyString, _ => true
  | String a p', String b s' => Ascii.eqb a b && isPrefixOf p' s'
  | String _ _, EmptyString => false
  end.

Fixpoint hasSubstring (p s : string) : bool :=
  isPrefixOf p s ||
  match s with
  | EmptyString => false
  | String _ s' => hasSubstring p s'
  end.

Definition plainHost : ToolJson := {|
  currentLocation := fun frames => ("#" ++ currentPointer frames)%string;
  equal := jsonEqb;
  unicodeLength := String.length;
  compilePattern := fun p => Some (hasSubstring p);
  isValidUri := hasSubstring ":"
|}.

(** An empty context whose default dialect is Draft 2020-12. *)
Definition emptyContext : Context :=
  mkContext [] [] [] (Some "https://json-schema.org/draft/2020-12/schema") [].

Definition withStack (frames : list SchemaFrame) : Context := setStack frames emptyContext.

(** ** Notions used by the properties *)

(** The sort contract on an order, stated position by position. *)
Definition RespectsOrder (l : list KeywordDesc) : Prop :=
  forall i j ki kj d,
    nth_error l i = Some ki ->
    nth_error l j = Some kj ->
    (In d (dependencies ki) -> startsWithAt d = false -> key kj = d -> j < i) /\
    (In d (dependencies ki) -> startsWithAt d = true ->
     includes d (dependents kj) = true -> j < i) /\
    (In d (dependents ki) -> startsWithAt d = false -> key kj = d -> i < j).

(** No keyword constrains itself: it does not name its own key, and it does
    not list one virtual name on both sides. *)
Definition NoSelfReference (kw : KeywordDesc) : Prop :=
  forall d,
    (In d (dependencies kw) ->
     if startsWithAt d then includes d (dependents kw) = false else d <> key kw) /\
    (In d (dependents kw) -> startsWithAt d = false -> d <> key kw).

(** The node of the outermost frame of the dynamic scope (the one nearest to
    the root) whose schema object declares [$dynamicAnchor] with the given
    name, if any. *)
Definition outermostDynamicAnchor (anchor : string) (frames : list SchemaFrame)
    : option JSON :=
  match find (fun f => declaresDynamicAnchor anchor (node f)) (rev frames) with
  | Some f => node f
  | None => None
  end.

(** The output unit that the [validate] of an unknown keyword leaves on its
    frame: valid, located at the keyword, annotated with the keyword's
    value. *)
Definition unknownKeywordUnit `{ToolJson} (frames : list SchemaFrame) (k : string) (inst : option JSON)
    (value : JSON) : OutputUnit :=
  let frame := mkFrame (Some (KStr k)) (Some value) None inst None (Some newOutput) in
  mkOutput true
    (Some (currentPointer frames ++ "/" ++ escapePointer k)%string)
    (Some (currentLocation (frame :: frames)))
    (Some (instanceLocation (frame :: frames)))
    None (Some value) None None.

(** The numeric values among the annotations, in order. *)
Definition numericAnnotations (units : list OutputUnit) : list Z :=
  flat_map (fun u => match annotation u with Some (JNum v) => [v] | _ => [] end) units.

(** The indices, counted from [index], at which the flag is [true]. *)
Fixpoint validIndices (flags : list bool) (index : nat) : list nat :=
  match flags with
  | [] => []
  | v :: rest =>
      if v then index :: validIndices rest (S index) else validIndices rest (S index)
  end.

(** The annotation the claim describes: [true] when every item validated,
    otherwise the ascending array of the indices that did. *)
Definition expectedContainsAnnotation (flags : list bool) : JSON :=
  if forallb (fun v => v) flags then JBool true
  else JArr (map (fun i => JNum (Z.of_nat i)) (validIndices flags 0)).

(** The number of items that validated. *)
Definition countValid (flags : list bool) : nat := List.length (filter (fun v => v) flags).

(** The locals [contains] and [containsCount] after the outcomes [flags]. *)
Fixpoint foldContains (flags : list bool) (index : nat) (st : option (list nat) * nat)
    : option (list nat) * nat :=
  match flags with
  | [] => st
  | v :: rest => foldContains rest (S index) (containsUpdate index v st)
  end.

(** [validateSchemaResource] on boolean sub-schemas, as a sub-validation of
    its own. *)
Definition booleanSchemaValidate `{ToolJson} : M unit :=
  frame <- currentFrame ;;
  match node frame with
  | Some (JBool true) => ret tt
  | Some (JBool false) => attachError "never valid" ;; ret tt
  | _ => throw (ProcessingError "Unexpected schema node")
  end.

(** A computation is [topOnly] when, started on a frame that owns an output,
    it ends (normally or by an exception) with the frames below that frame
    untouched and the frame still owning an output. *)
Definition topOnly {A} (m : M A) : Prop :=
  forall c child rest r c',
    stack c = child :: rest ->
    output child <> None ->
    m c = (r, c') ->
    exists child', stack c' = child' :: rest /\ output child' <> None.

(** The tail of the body of a child frame: it may chain the child's output
    to the frame below, and leaves the frames further down untouched. *)
Definition childTail {A} (t : M A) : Prop :=
  forall c child below rest r c',
    stack c = child :: below :: rest ->
    output below <> None ->
    t c = (r, c') ->
    exists child' below', stack c' = child' :: below' :: rest /\ output below' <> None.

(** Every keyword of the dialects keeps to its own frame when the pipeline
    it recurses into does. *)
Definition keywordsTopOnly (dialects : list Dialect) : Prop :=
  forall d k keyword,
    In d dialects ->
    lookupString k (keywords d) = Some keyword ->
    forall recur, topOnly recur -> topOnly (validate keyword recur).

(** A computation keeps the resource of the node [n] when a complete
    resource that is registered for [n] is still registered for it, as it
    is, however the computation ends. *)
Definition keepsResource {A} (n : JSON) (m : M A) : Prop :=
  forall c r c' res,
    getResource c n = Some res ->
    isSchemaResource (Some res) = true ->
    m c = (r, c') ->
    getResource c' n = Some res.

(** The [parse] of every keyword of the dialects keeps the resource of [n]
    when the parse it recurses into does. *)
Definition parsersKeepResource (dialects : list Dialect) (n : JSON) : Prop :=
  forall d k keyword,
    In d dialects ->
    lookupString k (keywords d) = Some keyword ->
    forall recur, keepsResource n recur -> keepsResource n (parse keyword recur).

(** ** Sample inputs *)

(** An error unit of a sub-schema. *)
Definition nestedError : OutputUnit :=
  mkOutput false (Some "/allOf/0/type") None (Some "") (Some "not a string") None None None.

(** The frame of an [unevaluatedItems] keyword on the empty array, below it
    the frame of its schema. *)
Definition emptyArrayStack : list SchemaFrame :=
  [ mkFrame (Some (KStr "unevaluatedItems")) (Some (JBool false)) None
      (Some (JArr [])) None (Some newOutput);
    mkFrame None (Some (JObj [("unevaluatedItems", JBool false)])) None
      (Some (JArr [])) None (Some newOutput) ].

(** The annotations that [items] and [prefixItems] leave when they apply to
    every item, respectively up to index 2. *)
Definition itemsTrueUnit : OutputUnit :=
  mkOutput true (Some "/items") None None None (Some (JBool true)) None None.

Definition prefixItemsUnit : OutputUnit :=
  mkOutput true (Some "/prefixItems") None None None (Some (JNum 2)) None None.

(** The frame of an [unevaluatedItems] keyword on a one-item array whose
    schema already carries the annotation of [items]. *)
Definition evaluatedStack : list SchemaFrame :=
  [ mkFrame (Some (KStr "unevaluatedItems")) (Some (JBool false)) None
      (Some (JArr [JNum 1])) None (Some newOutput);
    mkFrame None (Some (JObj [("items", JBool true); ("unevaluatedItems", JBool false)]))
      None (Some (JArr [JNum 1])) None
      (Some (mkOutput true None None None None None None (Some [itemsTrueUnit]))) ].

(** A sub-validation that accepts every instance: [validateSchemaResource]
    on the schema [true]. *)
Definition acceptAll : M unit := ret tt.

(** The schema [{"$dynamicRef": "#node"}] evaluated inside a
    tree schema that is itself evaluated inside a stricter schema; both
    declare the dynamic anchor [node], and the stricter one is chosen. *)
Definition strictSchema : JSON :=
  JObj [("$dynamicAnchor", JStr "node"); ("unevaluatedProperties", JBool false)].

(** The tree schema and the schema that refers to the anchor. *)
Definition treeSchema : JSON := JObj [("$dynamicAnchor", JStr "node")].

Definition refSchema : JSON := JObj [("$dynamicRef", JStr "#node")].

(** The dynamic scope, from the frame of [$dynamicRef] to the root. *)
Definition dynamicScope : list SchemaFrame :=
  [ mkFrame (Some (KStr "$dynamicRef")) (Some (JStr "#node")) None (Some JNull) None
      (Some newOutput);
    mkFrame None (Some refSchema) None (Some JNull) None (Some newOutput);
    mkFrame None (Some treeSchema) None (Some JNull) None (Some newOutput);
    mkFrame None (Some strictSchema) None (Some JNull) None (Some newOutput) ].

(** The context in which the reference of [refSchema] resolved statically
    to the tree schema. *)
Definition dynamicContext : Context :=
  mkContext dynamicScope [] [(refSchema, mkReference (Some treeSchema) "#node")] None [].

(** The frame of a [contains] keyword with the sub-schema [true] on a
    two-item array. *)
Definition twoItemStack : list SchemaFrame :=
  [ mkFrame (Some (KStr "contains")) (Some (JBool true)) None
      (Some (JArr [JNum 1; JNum 2])) None (Some newOutput);
    mkFrame None (Some (JObj [("contains", JBool true)])) None
      (Some (JArr [JNum 1; JNum 2])) None (Some newOutput) ].

(** The boolean sub-validation on the concrete host. *)
Definition plainBoolean : M unit := booleanSchemaValidate (H := plainHost).

(** The frame of [additionalProperties: false] on [{"a": 1}]. *)
Definition additionalStack : list SchemaFrame :=
  [ mkFrame (Some (KStr "additionalProperties")) (Some (JBool false)) None
      (Some (JObj [("a", JNum 1)])) None (Some newOutput);
    mkFrame None (Some (JObj [("additionalProperties", JBool false)])) None
      (Some (JObj [("a", JNum 1)])) None (Some newOutput) ].

(** A schema whose only keyword has a malformed value. *)
Definition badSchema : JSON := JObj [("maximum", JStr "high")].

(** The frame that [parseSchema] sets up for [badSchema], in a context with
    nothing registered. *)
Definition badContext : Context := withStack [setNode (Some badSchema) createSchemaFrame].

(** The dialects known to the concrete host. *)
Definition plainDialects : list Dialect := [dialect202012 (H := plainHost)].

(** ** Further applicators (applicator.ts, unevaluated.ts, core.ts)

    The keyword value [frame.node] has been checked by [parse]: the value of
    [allOf], [anyOf], [oneOf] and [prefixItems] is an array and the value of
    [dependentSchemas] an object; a value of another type is read as empty. *)

Section Applicators.
Context `{ToolJson}.

Definition nodeItems (n : option JSON) : list JSON :=
  match n with Some (JArr l) => l | _ => [] end.

Definition nodeMembers (n : option JSON) : list (string * JSON) :=
  match n with Some (JObj l) => l | _ => [] end.

(** The child frame of the loops of [allOf], [anyOf] and [oneOf]: the
    sub-schema at [index] is applied to the whole instance and the child
    output is emitted; [read] is what the loop does with
    [frame.output.valid] in between. *)
Definition branchChild {A} (recur : M unit) (index : nat) (subschema : JSON)
    (inst : option JSON) (read : M A) : M A :=
  nestFrame (
    modifyFrame (fun frame =>
      setOutput (Some newOutput)
        (setInstance inst (setNode (Some subschema) (setNodeKey (Some (KNum index)) frame)))) ;;
    recur ;;
    v <- read ;;
    emitOutput ;;
    ret v).

(** [valid &&= frame.output.valid]: the right-hand side is read only while
    [valid] is [true]. *)
Definition andValid (valid : bool) : M bool :=
  if valid then readValid else ret false.

(** [valid ||= frame.output.valid]: read only while [valid] is [false]. *)
Definition orValid (valid : bool) : M bool :=
  if valid then ret true else readValid.

(** *** allOf *)

Fixpoint allOfLoop (recur : M unit) (subschemas : list JSON) (inst : option JSON)
    (index : nat) (valid : bool) : M bool :=
  match subschemas with
  | [] => ret valid
  | subschema :: rest =>
      valid' <- branchChild recur index subschema inst (andValid valid) ;;
      allOfLoop recur rest inst (S index) valid'
  end.

Definition allOfValidate (recur : M unit) : M unit :=
  frame <- currentFrame ;;
  valid <- allOfLoop recur (nodeItems (node frame)) (instance frame) 0 true ;;
  failWhen (negb valid) "not valid against all subschemas".

(** *** anyOf *)

Fixpoint anyOfLoop (recur : M unit) (subschemas : list JSON) (inst : option JSON)
    (index : nat) (valid : bool) : M bool :=
  match subschemas with
  | [] => ret valid
  | subschema :: rest =>
      valid' <- branchChild recur index subschema inst (orValid valid) ;;
      anyOfLoop recur rest inst (S index) valid'
  end.

Definition anyOfValidate (recur : M unit) : M unit :=
  frame <- currentFrame ;;
  let checkpoint := saveCheckpoint (output frame) in
  valid <- anyOfLoop recur (nodeItems (node frame)) (instance frame) 0 false ;;
  if negb valid then attachError "not valid against any subschemas" ;; ret tt
  else restoreCheckpoint checkpoint.

(** *** oneOf *)

Fixpoint oneOfLoop (recur : M unit) (subschemas : list JSON) (inst : option JSON)
    (index : nat) (validCount : nat) : M nat :=
  match subschemas with
  | [] => ret validCount
  | subschema :: rest =>
      validCount' <- branchChild recur index subschema inst
                       (v <- readValid ;; ret (if v then S validCount else validCount)) ;;
      oneOfLoop recur rest inst (S index) validCount'
  end.

Definition oneOfValidate (recur : M unit) : M unit :=
  frame <- currentFrame ;;
  let checkpoint := saveCheckpoint (output frame) in
  validCount <- oneOfLoop recur (nodeItems (node frame)) (instance frame) 0 0 ;;
  if negb (Nat.eqb validCount 1)
  then attachError "not valid against exactly one subschema" ;; ret tt
  else restoreCheckpoint checkpoint.

(** *** not, if, then, else

    [not] and [if] run the pipeline in the frame of the keyword itself and
    then read [frame.output?.valid] of that frame. *)

Definition notValidate (recur : M unit) : M unit :=
  frame <- currentFrame ;;
  let checkpoint := saveCheckpoint (output frame) in
  recur ;;
  frame' <- currentFrame ;;
  match output frame' with
  | Some o =>
      if negb (valid o) then restoreCheckpoint checkpoint
      else attachError "unexpectedly valid" ;; ret tt
  | None => attachError "unexpectedly valid" ;; ret tt
  end.

Definition ifValidate (recur : M unit) : M unit :=
  frame <- currentFrame ;;
  let checkpoint := saveCheckpoint (output frame) in
  recur ;;
  frame' <- currentFrame ;;
  attachAnnotation (match output frame' with
                    | Some o => Some (JBool (valid o))
                    | None => None
                    end) ;;
  restoreCheckpoint checkpoint.

(** [getChildAnnotation(frame.parent, "if")?.annotation]. *)
Definition ifCondition : M (option JSON) :=
  parents <- parentFrames ;;
  ret (match getChildAnnotation parents "if" with
       | Some u => annotation u
       | None => None
       end).

Definition thenValidate (recur : M unit) : M unit :=
  _ <- currentFrame ;;
  condition <- ifCondition ;;
  match condition with
  | Some (JBool true) => recur
  | _ => ret tt
  end.

Definition elseValidate (recur : M unit) : M unit :=
  _ <- currentFrame ;;
  condition <- ifCondition ;;
  match condition with
  | Some (JBool false) => recur
  | _ => ret tt
  end.

(** *** dependentSchemas *)

Fixpoint dependentSchemasLoop (recur : M unit) (schemas : list (string * JSON))
    (entries : list (string * JSON)) (invalidDependents : option (list string))
    : M (option (list string)) :=
  match schemas with
  | [] => ret invalidDependents
  | (k, subschema) :: rest =>
      if negb (hasMember k entries)
      then dependentSchemasLoop recur rest entries invalidDependents
      else
          invalidDependents' <- nestFrame (
            modifyFrame (fun frame =>
              setOutput (Some newOutput)
                (setInstance (Some (JObj entries))
                   (setNode (Some subschema) (setNodeKey (Some (KStr k)) frame)))) ;;
            recur ;;
            v <- readValid ;;
            emitOutput ;;
            ret (if v then invalidDependents else pushInvalid k invalidDependents)) ;;
          dependentSchemasLoop recur rest entries invalidDependents'
  end.

(** The message: for one name the prefix is overwritten by the name. *)
Definition dependentSchemasMessage (invalid : list string) : string :=
  if Nat.eqb (List.length invalid) 1
  then (stringify (hd "" invalid) ++ " dependent subschema")%string
  else ("not valid against " ++ joinNames " and " invalid 0 (List.length invalid)
        ++ " dependent subschemas")%string.

Definition dependentSchemasValidate (recur : M unit) : M unit :=
  frame <- currentFrame ;;
  match instance frame with
  | Some (JObj entries) =>
      invalidDependents <-
        dependentSchemasLoop recur (nodeMembers (node frame)) entries None ;;
      match invalidDependents with
      | Some invalid => attachError (dependentSchemasMessage invalid) ;; ret tt
      | None => ret tt
      end
  | _ => ret tt
  end.

(** *** prefixItems *)

Fixpoint prefixItemsLoop (recur : M unit) (subschemas items : list JSON)
    (index : nat) (valid : bool) : M bool :=
  match subschemas, items with
  | subschema :: subschemas', item :: items' =>
      valid' <- nestFrame (
        modifyFrame (fun frame =>
          setOutput (Some newOutput)
            (setInstance (Some item)
               (setInstanceKey (Some (KNum index))
                  (setNode (Some subschema) (setNodeKey (Some (KNum index)) frame))))) ;;
        recur ;;
        v <- andValid valid ;;
        emitOutput ;;
        ret v) ;;
      prefixItemsLoop recur subschemas' items' (S index) valid'
  | _, _ => ret valid
  end.

Definition prefixItemsMessage (nodeLength instanceLength : nat) : string :=
  ((if Nat.eqb instanceLength 0
    then "empty array is missing " ++ natToString nodeLength
    else "array is missing " ++ natToString (nodeLength - instanceLength)
         ++ " of " ++ natToString nodeLength)
   ++ " expected prefix " ++ (if Nat.eqb nodeLength 1 then "item" else "items"))%string.

Definition prefixItemsAnnotation (commonLength instanceLength : nat) : JSON :=
  if Nat.eqb commonLength instanceLength then JBool true
  else JNum (Z.of_nat commonLength).

Definition prefixItemsValidate (recur : M unit) : M unit :=
  frame <- currentFrame ;;
  match instance frame with
  | Some (JArr items) =>
      let subschemas := nodeItems (node frame) in
      let commonLength := Nat.min (List.length subschemas) (List.length items) in
      valid <- prefixItemsLoop recur subschemas items 0 true ;;
      failWhen (negb (Nat.eqb commonLength (List.length subschemas)))
        (prefixItemsMessage (List.length subschemas) (List.length items)) ;;
      if valid
      then attachAnnotation
             (Some (prefixItemsAnnotation commonLength (List.length items))) ;; ret tt
      else ret tt
  | _ => ret tt
  end.

(** *** items *)

(** [startIndex]: the instance length for the annotation [true], the
    annotation itself when it is a number, and 0 otherwise. *)
Definition itemsStart (prefixItemsAnnotation : option JSON) (instanceLength : nat) : Z :=
  match prefixItemsAnnotation with
  | Some (JBool true) => Z.of_nat instanceLength
  | Some (JNum z) => z
  | _ => 0%Z
  end.

(** [instance[index]]: [undefined] outside the array. *)
Definition itemAt (items : list JSON) (index : Z) : option JSON :=
  if Z.ltb index 0 then None else nth_error items (Z.to_nat index).

(** The instance key [index]; the key is only ever read through [String],
    and a negative index has the text of the string key. *)
Definition indexKey (index : Z) : Key :=
  if Z.ltb index 0 then KStr (zToString index) else KNum (Z.to_nat index).

(** [for (let index = startIndex; index < instance.length; index += 1)], for
    the [count] indices from [index]. *)
Fixpoint itemsLoop (recur : M unit) (n : option JSON) (items : list JSON)
    (count : nat) (index : Z) (valid : bool) : M bool :=
  match count with
  | O => ret valid
  | S count' =>
      valid' <- nestFrame (
        modifyFrame (fun frame =>
          setOutput (Some newOutput)
            (setInstance (itemAt items index)
               (setInstanceKey (Some (indexKey index)) (setNode n frame)))) ;;
        recur ;;
        v <- andValid valid ;;
        emitOutput ;;
        ret v) ;;
      itemsLoop recur n items count' (index + 1)%Z valid'
  end.

Definition itemsValidate (recur : M unit) : M unit :=
  frame <- currentFrame ;;
  match instance frame with
  | Some (JArr items) =>
      parents <- parentFrames ;;
      let startIndex :=
        itemsStart (match getChildAnnotation parents "prefixItems" with
                    | Some u => annotation u
                    | None => None
                    end) (List.length items) in
      valid <- itemsLoop recur (node frame) items
                 (Z.to_nat (Z.of_nat (List.length items) - startIndex)) startIndex true ;;
      failWhen (negb valid) "not valid against all items" ;;
      if valid && Z.ltb startIndex (Z.of_nat (List.length items))
      then attachAnnotation (Some (JBool true)) ;; ret tt
      else ret tt
  | _ => ret tt
  end.

(** *** unevaluatedProperties (unevaluated.ts) *)

Definition propertyAnnotations (parents : list SchemaFrame) : list OutputUnit :=
  getAnnotations (parentOutput parents) "/unevaluatedProperties"
    (getAnnotations (parentOutput parents) "/additionalProperties"
       (getAnnotations (parentOutput parents) "/patternProperties"
          (getAnnotations (parentOutput parents) "/properties" []))).

(** The set [propertyNames]: the members of the annotations that are
    arrays; only its strings can be equal to a property name. *)
Definition evaluatedNames (units : list OutputUnit) : list string :=
  flat_map (fun u => annotationNames (Some u)) units.

(** The loop over the entries of the instance; the state is the pair of the
    locals [valid] and [evaluatedProperties]. *)
Fixpoint unevaluatedPropertiesLoop (recur : M unit) (n : option JSON)
    (propertyNames : list string) (entries : list (string * JSON))
    (st : bool * list string) : M (bool * list string) :=
  match entries with
  | [] => ret st
  | (k, value) :: rest =>
      if includes k propertyNames
      then unevaluatedPropertiesLoop recur n propertyNames rest st
      else
        st' <- nestFrame (
          modifyFrame (fun frame =>
            setOutput (Some newOutput)
              (setInstance (Some value) (setInstanceKey (Some (KStr k)) (setNode n frame)))) ;;
          recur ;;
          v <- andValid (fst st) ;;
          emitOutput ;;
          ret (v, snd st ++ [k])) ;;
        unevaluatedPropertiesLoop recur n propertyNames rest st'
  end.

Definition unevaluatedPropertiesValidate (recur : M unit) : M unit :=
  frame <- currentFrame ;;
  match instance frame with
  | Some (JObj entries) =>
      parents <- parentFrames ;;
      st <- unevaluatedPropertiesLoop recur (node frame)
              (evaluatedNames (propertyAnnotations parents)) entries (true, []) ;;
      attachAnnotation (namesAnnotation (snd st)) ;;
      ret tt
  | _ => ret tt
  end.

(** *** $ref (core.ts) *)

Definition refValidate (recur : M unit) : M unit :=
  frame <- currentFrame ;;
  frames <- getStack ;;
  fun c =>
    match getReference c (match tl frames with p :: _ => node p | [] => None end) with
    | None => (attachError "unknown schema reference" ;; ret tt) c
    | Some reference =>
        match target reference with
        | Some (JObj fields) =>
            nestFrame (
              modifyFrame (fun f =>
                setInstance (instance frame) (setNode (Some (JObj fields)) f)) ;;
              recur) c
        | _ => (attachError "unresolved schema reference" ;; ret tt) c
        end
    end.

End Applicators.

(** ** The applicators as keyword values, and a larger dialect *)

Section MoreDialects.
Context `{ToolJson}.

(** [parse] of the keywords whose value is a non-empty array of schemas. *)
Fixpoint parseItemsFrom (recur : M unit) (subschemas : list JSON) (index : nat) : M unit :=
  match subschemas with
  | [] => ret tt
  | subschema :: rest =>
      nestFrame (
        modifyFrame (fun frame =>
          setNode (Some subschema) (setNodeKey (Some (KNum index)) frame)) ;;
        recur) ;;
      parseItemsFrom recur rest (S index)
  end.

Definition parseSchemaArray (k : string) (recur : M unit) : M unit :=
  n <- frameNode ;;
  match n with
  | Some (JArr (subschema :: rest)) => parseItemsFrom recur (subschema :: rest) 0
  | _ => parseError k "a non-empty array"
  end.

Definition allOfKeyword :=
  keywordWith "allOf" [] ["@unevaluated"] (parseSchemaArray "allOf") allOfValidate.
Definition anyOfKeyword :=
  keywordWith "anyOf" [] ["@unevaluated"] (parseSchemaArray "anyOf") anyOfValidate.
Definition oneOfKeyword :=
  keywordWith "oneOf" [] ["@unevaluated"] (parseSchemaArray "oneOf") oneOfValidate.
Definition notKeyword :=
  keywordWith "not" [] ["@unevaluated"] parseSubschema notValidate.
Definition ifKeyword :=
  keywordWith "if" [] [] parseSubschema ifValidate.
Definition thenKeyword :=
  keywordWith "then" ["if"] ["@unevaluated"] parseSubschema thenValidate.
Definition elseKeyword :=
  keywordWith "else" ["if"] ["@unevaluated"] parseSubschema elseValidate.
Definition dependentSchemasKeyword :=
  keywordWith "dependentSchemas" [] ["@unevaluated"] (parseProperties "dependentSchemas")
    dependentSchemasValidate.
Definition prefixItemsKeyword :=
  keywordWith "prefixItems" [] [] (parseSchemaArray "prefixItems") prefixItemsValidate.
Definition itemsKeyword :=
  keywordWith "items" ["prefixItems"] [] parseSubschema itemsValidate.
Definition unevaluatedPropertiesKeyword :=
  keywordWith "unevaluatedProperties"
    ["@unevaluated"; "properties"; "patternProperties"; "additionalProperties"] []
    parseSubschema unevaluatedPropertiesValidate.

(** [dialect202012] together with the keywords above. *)
Definition dialectApplicators : Dialect :=
  mkDialect "https://json-schema.org/draft/2020-12/schema"
    ([ allOfKeyword; anyOfKeyword; oneOfKeyword; notKeyword; ifKeyword; thenKeyword;
       elseKeyword; dependentSchemasKeyword; prefixItemsKeyword; itemsKeyword;
       unevaluatedPropertiesKeyword ]
     ++ keywords dialect202012).

(** The part of [parseSchema] (schema.ts) that is this repository's: the
    schema is parsed in a frame of its own.  The references that the parse
    registers are resolved afterwards by tool-json. *)
Definition parseSchemaNode (dialects : list Dialect) (fuel : nat) (n : JSON)
    (base : option string) : M (option SchemaResource) :=
  nestFrame (
    modifyFrame (fun frame => setNode (Some n) (setBaseUri base frame)) ;;
    parseSchemaResource dialects fuel).

End MoreDialects.

(** A conditional schema whose members are written with [if] last. *)
Definition conditionalSchema (condition consequence alternative : bool) : JSON :=
  JObj [("then", JBool consequence); ("else", JBool alternative); ("if", JBool condition)].

(** ** Further notions and sample inputs *)

(** An output unit that [getAnnotations] may collect for a keyword suffix:
    valid, annotated, and located at a keyword location with that suffix. *)
Definition annotatedAt (keywordSuffix : string) (u : OutputUnit) : Prop :=
  valid u = true /\ annotation u <> None /\
  exists l, keywordLocation u = Some l /\ endsWith l keywordSuffix = true.

(** The instance keys that no annotation in [names] covers, in the order of
    the instance. *)
Definition uncoveredKeys (names : list string) (entries : list (string * JSON))
    : list string :=
  filter (fun k => negb (includes k names)) (map fst entries).

(** The frame of a keyword with the value [n] on the instance [inst], above
    the frame of its schema. *)
Definition keywordStack (k : string) (n inst : JSON) : list SchemaFrame :=
  [ mkFrame (Some (KStr k)) (Some n) None (Some inst) None (Some newOutput);
    mkFrame None (Some (JObj [(k, n)])) None (Some inst) None (Some newOutput) ].

(** The same, where the schema has already collected the annotation
    [value] of the sibling keyword [sibling]. *)
Definition siblingUnit (sibling : string) (value : JSON) : OutputUnit :=
  mkOutput true (Some ("/" ++ sibling)%string) None (Some "") None (Some value) None None.

Definition keywordStackAfter (sibling : string) (value : JSON) (k : string)
    (n inst : JSON) : list SchemaFrame :=
  [ mkFrame (Some (KStr k)) (Some n) None (Some inst) None (Some newOutput);
    mkFrame None (Some (JObj [(sibling, JBool true); (k, n)])) None (Some inst) None
      (Some (mkOutput true (Some "") None (Some "") None None None
               (Some [siblingUnit sibling value]))) ].

(** The schema [{"allOf": [{"x-note": "n", "maximum": 0}]}] and the
    instance 5: the branch of [allOf] collects the annotation of the unknown
    keyword and the error of [maximum]. *)
Definition notedBranch : JSON := JObj [("x-note", JStr "n"); ("maximum", JNum 0)].

Definition notedSchema : JSON := JObj [("allOf", JArr [notedBranch])].

Definition applicatorDialects : list Dialect := [dialectApplicators (H := plainHost)].

(** The context in which the parse of [notedSchema] leaves its resources. *)
Definition notedContext : Context :=
  snd (parseSchemaNode (H := plainHost) applicatorDialects 3 notedSchema None emptyContext).

(** The loop of [allOf] up to its call of [emitOutput]: the frame of the
    branch, above the frames of the keyword and of the schema, after the
    branch was validated. *)
Definition notedBranchRun : (Error + unit) * Context :=
  (modifyFrame (fun frame =>
     setOutput (Some newOutput)
       (setInstance (Some (JNum 5))
          (setNode (Some notedBranch) (setNodeKey (Some (KNum 0)) frame)))) ;;
   validateSchemaResource (H := plainHost) applicatorDialects 2)
    (setStack (createSchemaFrame :: keywordStack "allOf" (JArr [notedBranch]) (JNum 5))
       notedContext).

(** The units that the keywords of the branch emit, and the output of the
    branch that holds them. *)
Definition maximumError : OutputUnit :=
  mkOutput false (Some "/allOf/0/maximum") (Some "#/allOf/0/maximum") (Some "")
    (Some "greater than 0") None None None.

Definition noteAnnotation : OutputUnit :=
  mkOutput true (Some "/allOf/0/x-note") (Some "#/allOf/0/x-note") (Some "")
    None (Some (JStr "n")) None None.

Definition notedBranchOutput : OutputUnit :=
  mkOutput false (Some "/allOf/0") (Some "#/allOf/0") (Some "") None None
    (Some [maximumError]) (Some [noteAnnotation]).

(** ** Sub-validations with a verdict

    What the properties of the applicators assume of the pipeline they
    recurse into, and the words in which they speak of its outcome. *)

(** The registries of a context, which a validation reads and leaves as
    they are. *)
Definition registry (c : Context)
    : list (JSON * SchemaResource) * list (JSON * Reference) * option string :=
  (resources c, references c, defaultDialect c).

(** [recur] decides the sub-schema, with the verdict [accepts], in the
    contexts that share the registries of [c0]: run on a frame that holds
    the sub-schema and the fresh output [{ valid: true }], it returns,
    keeps the registries and the frames below, and leaves on the frame an
    output whose [valid] is [accepts subschema instance]. *)
Definition decidesOn (recur : M unit) (accepts : JSON -> option JSON -> bool)
    (c0 : Context) (subschema : JSON) : Prop :=
  forall c child below,
    registry c = registry c0 ->
    stack c = child :: below ->
    node child = Some subschema ->
    output child = Some newOutput ->
    exists c' child' o',
      recur c = (inr tt, c') /\
      registry c' = registry c0 /\
      stack c' = child' :: below /\
      output child' = Some o' /\
      valid o' = accepts subschema (instance child).

(** The output of a rejection says why, in an error of its own or in nested
    errors, and what [emitOutput] passes on of it is invalid; what it passes
    on of an acceptance, if anything, is valid. *)
Definition reportsVerdict (o : OutputUnit) : Prop :=
  if valid o
  then isEmptyOutput o = true \/ valid (hoistOutput o) = true
  else isEmptyOutput o = false /\ valid (hoistOutput o) = false.

(** [recur] decides the sub-schema and reports its verdict. *)
Definition reportsOn (recur : M unit) (accepts : JSON -> option JSON -> bool)
    (c0 : Context) (subschema : JSON) : Prop :=
  forall c child below,
    registry c = registry c0 ->
    stack c = child :: below ->
    node child = Some subschema ->
    output child = Some newOutput ->
    exists c' child' o',
      recur c = (inr tt, c') /\
      registry c' = registry c0 /\
      stack c' = child' :: below /\
      output child' = Some o' /\
      valid o' = accepts subschema (instance child) /\
      reportsVerdict o'.

(** The verdict on the sub-schemas of the sample inputs: a boolean schema
    accepts every instance or none, and [{"maximum": n}] accepts what is not
    a number and the numbers up to [n]. *)
Definition sampleVerdict (subschema : JSON) (inst : option JSON) : bool :=
  match subschema with
  | JBool b => b
  | JObj [("maximum", JNum n)] =>
      match inst with
      | Some (JNum i) => Z.leb i n
      | _ => true
      end
  | _ => true
  end.

(** The schema [{"maximum": 1}], the context in which its parse leaves it,
    the pipeline over that context, and the frame of a keyword with the
    value [n] in it. *)
Definition boundSchema : JSON := JObj [("maximum", JNum 1)].

Definition boundContext : Context :=
  snd (parseSchemaNode (H := plainHost) plainDialects 2 boundSchema None emptyContext).

Definition boundPipeline : M unit := validateSchemaResource (H := plainHost) plainDialects 2.

Definition boundStack (k : string) (n inst : JSON) : Context :=
  setStack (keywordStack k n inst) boundContext.

(** The units of a list of nested errors or annotations. *)
Definition unitsOf (l : option (list OutputUnit)) : list OutputUnit :=
  match l with Some units => units | None => [] end.

(** What the output [o] of a frame has become, [o1], once [rejected]
    children with a rejection and [accepted] children with an acceptance
    have passed their outputs to [emitOutput]: its nested errors hold one
    invalid unit more for each rejection, its nested annotations at most one
    valid unit more for each acceptance, its own error and annotation are as
    they were, and it is as valid as it was unless a child was rejected. *)
Definition emittedInto (o o1 : OutputUnit) (rejected accepted : nat) : Prop :=
  exists eunits aunits,
    unitsOf (errors o1) = unitsOf (errors o) ++ eunits /\
    List.length eunits = rejected /\
    Forall (fun u => valid u = false) eunits /\
    unitsOf (annotations o1) = unitsOf (annotations o) ++ aunits /\
    List.length aunits <= accepted /\
    Forall (fun u => valid u = true) aunits /\
    error o1 = error o /\ annotation o1 = annotation o /\
    valid o1 = valid o && Nat.eqb rejected 0.

(** The number of sub-schemas that the verdict accepts, and that it
    rejects. *)
Definition acceptedCount (accepts : JSON -> option JSON -> bool) (inst : option JSON)
    (subschemas : list JSON) : nat :=
  List.length (filter (fun s => accepts s inst) subschemas).

Definition rejectedCount (accepts : JSON -> option JSON -> bool) (inst : option JSON)
    (subschemas : list JSON) : nat :=
  List.length (filter (fun s => negb (accepts s inst)) subschemas).

(** Names in the order of their first occurrence. *)
Definition addName (names : list string) (k : string) : list string :=
  if includes k names then names else names ++ [k].

Definition distinctNames (names : list string) : list string :=
  fold_left addName names [].

(** The properties among [applied] that the sub-schema rejects. *)
Definition rejectedNames (accepts : JSON -> option JSON -> bool) (subschema : JSON)
    (applied : list (string * JSON)) : list string :=
  map fst (filter (fun e => negb (accepts subschema (Some (snd e)))) applied).

(** The properties that [additionalProperties] applies its sub-schema to:
    those that no annotation of [properties] or [patternProperties] names. *)
Definition additionalApplied (names : list string) (entries : list (string * JSON))
    : list (string * JSON) :=
  filter (fun e => negb (includes (fst e) names)) entries.

(** [propertyNames] applies its sub-schema to each name, as a string. *)
Definition namesApplied (entries : list (string * JSON)) : list (string * JSON) :=
  map (fun e => (fst e, JStr (fst e))) entries.

(** The properties that a pattern of [patternProperties] matches. *)
Definition patternApplied `{ToolJson} (pattern : string) (entries : list (string * JSON))
    : list (string * JSON) :=
  match compilePattern pattern with
  | Some test => filter (fun e => test (fst e)) entries
  | None => []
  end.

(** The properties that some sub-schema of [patternProperties] rejects,
    pattern by pattern, each named once. *)
Definition patternRejected `{ToolJson} (accepts : JSON -> option JSON -> bool)
    (patterns entries : list (string * JSON)) : list string :=
  distinctNames
    (flat_map (fun p => rejectedNames accepts (snd p) (patternApplied (fst p) entries))
              patterns).

(** The properties that [properties] has a sub-schema for, each with the
    sub-schema, and those that their sub-schema rejects. *)
Definition propertiesApplied (schemas entries : list (string * JSON))
    : list (string * (JSON * JSON)) :=
  flat_map (fun e => match getField (fst e) schemas with
                     | Some subschema => [(fst e, (subschema, snd e))]
                     | None => []
                     end) entries.

Definition propertiesRejected (accepts : JSON -> option JSON -> bool)
    (schemas entries : list (string * JSON)) : list string :=
  map fst (filter (fun a => negb (accepts (fst (snd a)) (Some (snd (snd a)))))
                  (propertiesApplied schemas entries)).

(** What [invalidProperties] holds after the names [names] were pushed. *)
Definition optionList {A} (l : option (list A)) : list A :=
  match l with Some l => l | None => [] end.

Definition invalidAfter (invalid : option (list string)) (names : list string)
    : option (list string) :=
  match names with
  | [] => invalid
  | _ => Some (optionList invalid ++ names)
  end.

(** The same where a name is pushed only if it is not there yet. *)
Definition distinctAfter (invalid : option (list string)) (names : list string)
    : option (list string) :=
  match names with
  | [] => invalid
  | _ => Some (fold_left addName names (optionList invalid))
  end.

(** The names that [patternProperties] evaluates, pattern by pattern. *)
Definition patternEvaluated `{ToolJson} (patterns entries : list (string * JSON))
    : list string :=
  flat_map (fun p => map fst (patternApplied (fst p) entries)) patterns.

(** ** Schemas of annotations only *)

(** The descriptors of keywords that no dialect knows: the members of the
    schema, each with no dependency and no dependent. *)
Definition annotationDescriptors (fields : list (string * JSON)) : list KeywordDesc :=
  map (fun e => mkKeyword (fst e) [] []) fields.

(** The resource that [parseSchemaResource] registers for such a schema
    under the dialect [uri]. *)
Definition annotationResource (uri : string) (fields : list (string * JSON))
    : SchemaResource :=
  mkResource (JObj fields) None None (Some uri) (Some (annotationDescriptors fields)).

(** ** Dates and times (format/parse.ts, format/date.ts)

    The parsers read an [InputBuffer]: the input, an offset that they
    advance, and a limit.  A string is the sequence of its code units, which
    the parsers compare with ASCII characters only; a thrown [Error] is its
    message.  Numbers are natural numbers: every field of fixed width is
    exact in the source as well, and only a fraction of a second of more
    than fifteen digits is rounded there. *)

Record InputBuffer : Type := mkBuffer {
  input : string;
  offset : nat;
  limit : nat
}.

Definition Parser (A : Type) : Type := InputBuffer -> (string + A) * InputBuffer.

Definition pret {A} (a : A) : Parser A := fun buf => (inr a, buf).
Definition pthrow {A} (message : string) : Parser A := fun buf => (inl message, buf).
Definition pbind {A B} (p : Parser A) (f : A -> Parser B) : Parser B :=
  fun buf => match p buf with
             | (inr a, buf') => f a buf'
             | (inl e, buf') => (inl e, buf')
             end.

Notation "'let*' x ':=' p 'in' q" := (pbind p (fun x => q))
  (at level 10, x name, p at level 100, q at level 200).

(** [buf.offset += 1]. *)
Definition advance (buf : InputBuffer) : InputBuffer :=
  mkBuffer (input buf) (S (offset buf)) (limit buf).

(** [peekCharCode(buf)]; [None] is [-1]. *)
Definition peekCharCode (buf : InputBuffer) : option ascii :=
  if Nat.ltb (offset buf) (limit buf) then String.get (offset buf) (input buf) else None.

Definition tryParseCharCode (c : ascii) : Parser bool :=
  fun buf =>
    match peekCharCode buf with
    | Some x => if Ascii.eqb x c then (inr true, advance buf) else (inr false, buf)
    | None => (inr false, buf)
    end.

Definition parseCharCode (c : ascii) : Parser unit :=
  let* found := tryParseCharCode c in
  if found then pret tt else pthrow ("Expected " ++ stringify (String c ""))%string.

(** [isDigit] of tool-uri: the ASCII digits. *)
Definition isDigit (c : ascii) : bool :=
  N.leb 48 (N_of_ascii c) && N.leb (N_of_ascii c) 57.

(** The [while] loop of [tryParseDigits]; [fuel] bounds the characters left. *)
Fixpoint digitsLoop (fuel : nat) (max : option nat) (start : nat) (value : N)
    (buf : InputBuffer) : N * InputBuffer :=
  match fuel with
  | O => (value, buf)
  | S fuel' =>
      if match max with
         | None => true
         | Some m => Nat.ltb (offset buf - start) m
         end
      then
        match peekCharCode buf with
        | Some c =>
            if isDigit c
            then digitsLoop fuel' max start (value * 10 + (N_of_ascii c - 48))%N (advance buf)
            else (value, buf)
        | None => (value, buf)
        end
      else (value, buf)
  end.

Definition optNatEqb (min : nat) (max : option nat) : bool :=
  match max with Some m => Nat.eqb min m | None => false end.

(** [tryParseDigits(buf, min, max, required)]; [None] is [undefined]. *)
Definition tryParseDigits (min : nat) (max : option nat) (required : bool)
    : Parser (option N) :=
  fun buf =>
    let start := offset buf in
    let (value, buf') := digitsLoop (limit buf - offset buf) max start 0%N buf in
    let count := offset buf' - start in
    if (required || negb (Nat.eqb count 0)) && Nat.ltb count min then
      let digits := if Nat.eqb min 1 then "digit" else "digits" in
      if optNatEqb min max
      then (inl ("Expected " ++ natToString min ++ " " ++ digits)%string, buf')
      else (inl ("Expected at least " ++ natToString min ++ " " ++ digits)%string, buf')
    else if Nat.eqb count 0 then (inr None, buf')
    else (inr (Some value), buf').

(** [parseDigits(buf, min, max)]: with [min >= 1], as in every call, the
    result is a number. *)
Definition parseDigits (min : nat) (max : option nat) : Parser N :=
  let* value := tryParseDigits min max true in
  pret (match value with Some v => v | None => 0%N end).

Definition parseEnd : Parser unit :=
  fun buf =>
    if Nat.ltb (offset buf) (limit buf) then (inl "Expected end of input", buf)
    else (inr tt, buf).

(** [typeof input === "string"] selects the final [parseEnd]. *)
Definition endOfString (isString : bool) : Parser unit :=
  if isString then parseEnd else pret tt.

(** [{ input, offset: 0, limit: input.length }]. *)
Definition bufferOf (s : string) : InputBuffer := mkBuffer s 0 (String.length s).

Record FullDate : Type := mkDate { year : N; month : N; day : N }.

Definition nToString (n : N) : string := NilEmpty.string_of_uint (N.to_uint n).

Definition maxDays (year month : N) : N :=
  if N.eqb month 2 then
    if (N.eqb (year mod 4) 0 && negb (N.eqb (year mod 100) 0)) || N.eqb (year mod 400) 0
    then 29 else 28
  else if N.eqb month 4 || N.eqb month 6 || N.eqb month 9 || N.eqb month 11 then 30
  else 31.

Definition parseFullDateFrom (isString : bool) : Parser FullDate :=
  let* year := parseDigits 4 (Some 4) in
  let* _ := parseCharCode "-" in
  let* month := parseDigits 2 (Some 2) in
  if N.ltb month 1 || N.ltb 12 month then pthrow "month must be between 1 and 12"
  else
    let* _ := parseCharCode "-" in
    let* day := parseDigits 2 (Some 2) in
    if N.ltb day 1 then pthrow "day must be at least 1"
    else if N.ltb (maxDays year month) day
    then pthrow ("day must be between 1 and " ++ nToString (maxDays year month)
                 ++ " for month " ++ nToString month)%string
    else
      let* _ := endOfString isString in
      pret (mkDate year month day).

(** [parseFullDate(input)] for a string. *)
Definition parseFullDate (s : string) : string + FullDate :=
  fst (parseFullDateFrom true (bufferOf s)).

Record FullTime : Type := mkTime {
  hour : N;
  minute : N;
  second : N;
  millisecond : option N;
  timeOffset : string
}.

Definition parsePartialTime : Parser (N * N * N * option N) :=
  let* hour := parseDigits 2 (Some 2) in
  if N.ltb 23 hour then pthrow "hour must be between 0 and 23"
  else
    let* _ := parseCharCode ":" in
    let* minute := parseDigits 2 (Some 2) in
    if N.ltb 59 minute then pthrow "minute must be between 0 and 59"
    else
      let* _ := parseCharCode ":" in
      let* second := parseDigits 2 (Some 2) in
      if N.ltb 60 second then pthrow "second must be between 0 and 60"
      else
        let* dot := tryParseCharCode "." in
        if dot
        then let* millisecond := parseDigits 1 None in
             pret (hour, minute, second, Some millisecond)
        else pret (hour, minute, second, None).

Definition parseTimeOffset : Parser string :=
  fun buf =>
    let start := offset buf in
    (let* zulu := tryParseCharCode "Z" in
     let* _ :=
       (if zulu then pret tt
        else
          let* plus := tryParseCharCode "+" in
          let* sign := (if plus then pret true else tryParseCharCode "-") in
          if negb sign then pthrow ("expected " ++ stringify "+" ++ " or " ++ stringify "-")%string
          else
            let* hour := parseDigits 2 (Some 2) in
            if N.ltb 23 hour then pthrow "offset hour must be between 0 and 23"
            else
              let* _ := parseCharCode ":" in
              let* minute := parseDigits 2 (Some 2) in
              if N.ltb 59 minute then pthrow "offset minute must be between 0 and 59"
              else pret tt) in
     fun buf' => (inr (substring start (offset buf' - start) (input buf')), buf')) buf.

Definition parseFullTimeFrom (isString : bool) : Parser FullTime :=
  let* time := parsePartialTime in
  let* off := parseTimeOffset in
  let* _ := endOfString isString in
  pret (let '(h, m, s, ms) := time in mkTime h m s ms off).

Definition parseFullTime (s : string) : string + FullTime :=
  fst (parseFullTimeFrom true (bufferOf s)).

Definition parseDateTimeFrom (isString : bool) : Parser (FullDate * FullTime) :=
  let* date := parseFullDateFrom false in
  let* _ := parseCharCode "T" in
  let* time := parseFullTimeFrom false in
  let* _ := endOfString isString in
  pret (date, time).

Definition parseDateTime (s : string) : string + (FullDate * FullTime) :=
  fst (parseDateTimeFrom true (bufferOf s)).

(** *** Notions for the date and time properties *)

(** The character of a decimal digit. *)
Definition digitChar (k : N) : ascii := ascii_of_N (48 + k).

(** A number written with two, respectively four, digits. *)
Definition pad2 (n : N) : string :=
  String (digitChar (n / 10)) (String (digitChar (n mod 10)) "").

Definition pad4 (n : N) : string :=
  String (digitChar (n / 1000))
    (String (digitChar (n / 100 mod 10))
       (String (digitChar (n / 10 mod 10)) (String (digitChar (n mod 10)) ""))).

(** The text [YYYY-MM-DD] of a date. *)
Definition dateText (d : FullDate) : string :=
  (pad4 (year d) ++ "-" ++ pad2 (month d) ++ "-" ++ pad2 (day d))%string.

(** A date of the calendar with a year of four digits. *)
Definition validDate (d : FullDate) : Prop :=
  (year d < 10000 /\ 1 <= month d <= 12 /\ 1 <= day d <= maxDays (year d) (month d))%N.

(** The number that a list of digits denotes, after the value read so far. *)
Definition digitsValue (ks : list N) (value : N) : N :=
  fold_left (fun v k => (v * 10 + k)%N) ks value.

(** The buffer after [n] characters were read. *)
Definition moved (n : nat) (buf : InputBuffer) : InputBuffer :=
  mkBuffer (input buf) (offset buf + n) (limit buf).

(** [b] reads, after the prefix [p], what [b'] reads from its start. *)
Definition shifted (p : string) (b b' : InputBuffer) : Prop :=
  input b = (p ++ input b')%string /\
  offset b = String.length p + offset b' /\
  limit b = String.length p + limit b'.

(** Two parsers that give the same result on such buffers, and leave such
    buffers. *)
Definition agree {A} (p : string) (P Q : Parser A) : Prop :=
  forall b b', shifted p b b' ->
    fst (P b) = fst (Q b') /\ shifted p (snd (P b)) (snd (Q b')).

(* ===================================================================== *)
(** * Part II: properties *)
(* ===================================================================== *)

(** ** Monad and stack lemmas *)

Lemma bind_ok {A B} (m : M A) (f : A -> M B) c a c' :
  m c = (inr a, c') -> bind m f c = f a c'.
Proof. intros E. unfold bind. now rewrite E. Qed.

Lemma bind_err {A B} (m : M A) (f : A -> M B) c e c' :
  m c = (inl e, c') -> bind m f c = (inl e, c').
Proof. intros E. unfold bind. now rewrite E. Qed.

Lemma stack_setStack s c : stack (setStack s c) = s.
Proof. reflexivity. Qed.

Lemma setStack_setStack s s' c : setStack s (setStack s' c) = setStack s c.
Proof. reflexivity. Qed.

Lemma setStack_stack c : setStack (stack c) c = c.
Proof. now destruct c. Qed.

(** ** sortKeywords *)

Ltac permute :=
  repeat
    lazymatch goal with
    | |- Permutation [] [] => apply perm_nil
    | |- Permutation (?a :: ?l) ?r =>
        let rec split pre r :=
          lazymatch r with
          | a :: ?post =>
              change (Permutation (a :: l) (pre ++ a :: post));
              apply Permutation_cons_app; simpl app
          | ?b :: ?post => split (pre ++ [b]) post
          end in
        split (@nil KeywordDesc) r
    end.

Lemma setNth_length {A} k (v : A) l : List.length (setNth k v l) = List.length l.
Proof.
  revert k. induction l as [| x l IH]; intros [| k]; simpl; auto.
Qed.

Lemma firstn_setNth {A} n k (v : A) l :
  n <= k -> firstn n (setNth k v l) = firstn n l.
Proof.
  revert n k. induction l as [| x l IH]; intros [| n] [| k] Hle; simpl; auto; try lia.
  f_equal. apply IH. lia.
Qed.

Lemma skipn_setNth {A} k (v : A) l :
  k < List.length l -> skipn k (setNth k v l) = v :: skipn (S k) l.
Proof.
  revert k. induction l as [| x l IH]; intros [| k] Hlt; simpl in *; try lia; auto.
  apply IH. lia.
Qed.

Lemma skipn_setNth_after {A} n k (v : A) l :
  k < n -> skipn n (setNth k v l) = skipn n l.
Proof.
  revert n k. induction l as [| x l IH]; intros [| n] [| k] Hlt; simpl; auto; try lia.
  apply IH. lia.
Qed.

Lemma firstn_S_nth {A} n (d : A) l :
  n < List.length l -> firstn (S n) l = firstn n l ++ [nth n l d].
Proof.
  revert n. induction l as [| x l IH]; intros [| n] Hlt; simpl in *; try lia; auto.
  f_equal. apply IH. lia.
Qed.

Lemma nth_setNth_other {A} i k (v d : A) l :
  i <> k -> nth i (setNth k v l) d = nth i l d.
Proof.
  revert i k. induction l as [| x l IH]; intros [| i] [| k] Hne; simpl; auto; lia.
Qed.

(** Shifting up to the front: the items before [n] move one place right. *)
Lemma shiftLoop_full n l :
  n < List.length l ->
  shiftLoop n n l = hd emptyKeyword l :: firstn n l ++ skipn (S n) l.
Proof.
  revert l. induction n as [| n IH]; intros l Hlt.
  - destruct l as [| x l]; simpl in *; [lia | reflexivity].
  - cbn [shiftLoop]. replace (S n - 1) with n by lia.
    rewrite IH by (rewrite setNth_length; lia).
    rewrite firstn_setNth by lia.
    rewrite skipn_setNth by lia.
    rewrite (firstn_S_nth emptyKeyword) by lia.
    rewrite <- app_assoc. simpl.
    f_equal. destruct l; reflexivity.
Qed.

Lemma shiftLoop_cons steps k x l :
  steps <= k -> shiftLoop steps (S k) (x :: l) = x :: shiftLoop steps k l.
Proof.
  revert k l. induction steps as [| steps IH]; intros k l Hle; [reflexivity |].
  cbn [shiftLoop]. destruct k as [| k]; [lia |].
  replace (S (S k) - 1) with (S k) by lia. replace (S k - 1) with k by lia.
  simpl setNth. simpl nth. apply IH. lia.
Qed.

Lemma shiftTo_cons from to x l :
  to < from -> shiftTo (S from) (S to) (x :: l) = x :: shiftTo from to l.
Proof.
  intros Hlt. unfold shiftTo. simpl nth.
  replace (S from - S to) with (from - to) by lia.
  rewrite shiftLoop_cons by lia. reflexivity.
Qed.

Lemma shiftTo_permutation from to l :
  to < from -> from < List.length l -> Permutation l (shiftTo from to l).
Proof.
  revert from l. induction to as [| to IH]; intros from l Hlt Hlen.
  - unfold shiftTo. rewrite Nat.sub_0_r, shiftLoop_full by exact Hlen.
    simpl setNth.
    rewrite <- (firstn_skipn from l) at 1.
    rewrite (firstn_skipn from l).
    transitivity (firstn from l ++ nth from l emptyKeyword :: skipn (S from) l).
    + rewrite <- (firstn_skipn from l) at 1. apply Permutation_app_head.
      clear Hlt. revert l Hlen. induction from as [| from IHf]; intros [| x l] Hlen;
        simpl in *; try lia; [reflexivity |].
      apply IHf. lia.
    + symmetry. apply Permutation_middle.
  - destruct from as [| from]; [lia |]. destruct l as [| x l]; [simpl in Hlen; lia |].
    rewrite shiftTo_cons by lia. apply perm_skip. apply IH; simpl in *; lia.
Qed.

Lemma findFrom_bound p j0 l j :
  findFrom p j0 l = Some j -> j0 <= j < j0 + List.length l.
Proof.
  revert j0. induction l as [| x l IH]; intros j0; simpl; [discriminate |].
  destruct (p j0 x).
  - intros [= <-]. lia.
  - intros E. apply IH in E. lia.
Qed.

Lemma findFrom_some p j0 l j :
  findFrom p j0 l = Some j ->
  j < j0 + List.length l /\ p j (nth (j - j0) l emptyKeyword) = true.
Proof.
  revert j0. induction l as [| x l IH]; intros j0; simpl; [discriminate |].
  destruct (p j0 x) eqn:E.
  - intros [= <-]. rewrite Nat.sub_diag. split; [lia | exact E].
  - intros Ef. apply findFrom_bound in Ef as Hb. apply IH in Ef.
    destruct Ef as [Hlt Hp]. split; [lia |].
    replace (j - j0) with (S (j - S j0)) by lia. exact Hp.
Qed.

Lemma processDependencies_permutation i deps l l' :
  processDependencies i deps l = Some l' -> Permutation l l'.
Proof.
  induction deps as [| d deps IH]; simpl; [discriminate |].
  destruct (startsWithAt d).
  - destruct (findFrom _ 0 l) as [j |] eqn:Ej; [| exact IH].
    intros [= <-]. apply findFrom_some in Ej. destruct Ej as [Hlen Hp].
    apply andb_prop in Hp. destruct Hp as [_ Hlt]. apply Nat.ltb_lt in Hlt.
    apply shiftTo_permutation; lia.
  - unfold indexOfKey. destruct (findFrom _ 0 l) as [j |] eqn:Ej; [| exact IH].
    destruct (Nat.ltb i j) eqn:Hlt; [| exact IH].
    intros [= <-]. apply findFrom_some in Ej. apply Nat.ltb_lt in Hlt.
    apply shiftTo_permutation; lia.
Qed.

Lemma processDependents_permutation i deps l l' :
  i < List.length l ->
  processDependents i deps l = Some l' -> Permutation l l'.
Proof.
  intros Hi. induction deps as [| d deps IH]; simpl; [discriminate |].
  destruct (startsWithAt d).
  - destruct (findFrom _ 0 l) as [j |] eqn:Ej; [| exact IH].
    intros [= <-]. apply findFrom_some in Ej. destruct Ej as [_ Hp].
    apply andb_prop in Hp. destruct Hp as [_ Hlt]. apply Nat.ltb_lt in Hlt.
    apply shiftTo_permutation; lia.
  - unfold indexOfKey. destruct (findFrom _ 0 l) as [j |] eqn:Ej; [| exact IH].
    destruct (Nat.ltb j i) eqn:Hlt; [| exact IH].
    intros [= <-]. apply Nat.ltb_lt in Hlt.
    apply shiftTo_permutation; lia.
Qed.

Lemma sortPass_permutation count i l l' :
  i + count <= List.length l ->
  sortPass count i l = Some l' -> Permutation l l'.
Proof.
  revert i. induction count as [| count IH]; intros i Hle; simpl; [discriminate |].
  destruct (processDependencies i _ l) as [l1 |] eqn:E1.
  - intros [= <-]. eapply processDependencies_permutation; eauto.
  - destruct (processDependents i _ l) as [l2 |] eqn:E2.
    + intros [= <-]. eapply processDependents_permutation; [| eauto]. lia.
    + apply IH. lia.
Qed.

Lemma sortLoop_permutation remaining l l' :
  sortLoop remaining l = inr l' ->
  Permutation l l' /\ sortPass (List.length l') 0 l' = None.
Proof.
  revert l. induction remaining as [| remaining IH]; intros l; simpl; [discriminate |].
  destruct (sortPass (List.length l) 0 l) as [l1 |] eqn:E.
  - intros El. apply sortPass_permutation in E; [| lia].
    apply IH in El. destruct El as [Hp Hn]. split; [| exact Hn].
    now transitivity l1.
  - intros [= <-]. split; [reflexivity | exact E].
Qed.

Lemma findFrom_none p j0 l :
  findFrom p j0 l = None ->
  forall j kw, nth_error l j = Some kw -> p (j0 + j) kw = false.
Proof.
  revert j0. induction l as [| x l IH]; intros j0 E j kw Hn.
  - destruct j; discriminate.
  - simpl in E. destruct (p j0 x) eqn:Ep; [discriminate |].
    destruct j as [| j]; simpl in Hn.
    + injection Hn as <-. now rewrite Nat.add_0_r.
    + replace (j0 + S j) with (S j0 + j) by lia. now apply IH.
Qed.

Lemma indexOfKey_unique l j kj :
  NoDup (map key l) -> nth_error l j = Some kj -> indexOfKey (key kj) l = Some j.
Proof.
  unfold indexOfKey. change (Some j) with (Some (0 + j)). generalize 0 as j0.
  revert j. induction l as [| x l IH]; intros j j0 Hnd Hn.
  - destruct j; discriminate.
  - simpl. inversion Hnd as [| ? ? Hnotin Hnd']; subst.
    destruct j as [| j]; simpl in Hn.
    + injection Hn as <-. rewrite String.eqb_refl. f_equal. lia.
    + destruct (String.eqb (key x) (key kj)) eqn:E.
      * apply String.eqb_eq in E. exfalso. apply Hnotin. rewrite E.
        apply in_map. eapply nth_error_In; eauto.
      * rewrite (IH j (S j0) Hnd' Hn). f_equal. lia.
Qed.

Lemma processDependencies_none i deps l :
  processDependencies i deps l = None ->
  forall d, In d deps ->
    if startsWithAt d
    then findFrom (fun j kw => includes d (dependents kw) && Nat.ltb i j) 0 l = None
    else forall di, indexOfKey d l = Some di -> Nat.ltb i di = false.
Proof.
  induction deps as [| d0 deps IH]; intros E d Hin; [destruct Hin |].
  simpl in E. destruct Hin as [<- | Hin].
  - destruct (startsWithAt d0).
    + destruct (findFrom _ 0 l); [discriminate | reflexivity].
    + intros di Hdi. rewrite Hdi in E. destruct (Nat.ltb i di); [discriminate | reflexivity].
  - apply IH; [| exact Hin].
    destruct (startsWithAt d0).
    + destruct (findFrom _ 0 l); [discriminate | exact E].
    + destruct (indexOfKey d0 l) as [di |]; [| exact E].
      destruct (Nat.ltb i di); [discriminate | exact E].
Qed.

Lemma processDependents_none i deps l :
  processDependents i deps l = None ->
  forall d, In d deps -> startsWithAt d = false ->
    forall di, indexOfKey d l = Some di -> Nat.ltb di i = false.
Proof.
  induction deps as [| d0 deps IH]; intros E d Hin Hreal; [destruct Hin |].
  simpl in E. destruct Hin as [<- | Hin].
  - rewrite Hreal in E. intros di Hdi. rewrite Hdi in E.
    destruct (Nat.ltb di i); [discriminate | reflexivity].
  - apply IH; [| exact Hin | exact Hreal].
    destruct (startsWithAt d0).
    + destruct (findFrom _ 0 l); [discriminate | exact E].
    + destruct (indexOfKey d0 l) as [di |]; [| exact E].
      destruct (Nat.ltb di i); [discriminate | exact E].
Qed.

Lemma sortPass_none count i l :
  sortPass count i l = None ->
  forall j, i <= j -> j < i + count ->
    processDependencies j (dependencies (nth j l emptyKeyword)) l = None /\
    processDependents j (dependents (nth j l emptyKeyword)) l = None.
Proof.
  revert i. induction count as [| count IH]; intros i E j Hle Hlt; [lia |].
  simpl in E.
  destruct (processDependencies i _ l) eqn:E1; [discriminate |].
  destruct (processDependents i _ l) eqn:E2; [discriminate |].
  destruct (Nat.eq_dec i j) as [<- | Hne]; [now split |].
  apply (IH (S i)); [exact E | lia | lia].
Qed.

Lemma fixed_point_respects l :
  NoDup (map key l) ->
  Forall NoSelfReference l ->
  sortPass (List.length l) 0 l = None ->
  RespectsOrder l.
Proof.
  intros Hnd Hns Hfix i j ki kj d Hi Hj.
  assert (Hil : i < List.length l) by (apply nth_error_Some; congruence).
  destruct (@sortPass_none _ _ _ Hfix i (Nat.le_0_l i) Hil) as [Hd Ht].
  rewrite (@nth_error_nth _ l i ki emptyKeyword Hi) in Hd, Ht.
  pose proof (proj1 (@Forall_forall _ NoSelfReference l) Hns ki (@nth_error_In _ l i ki Hi)) as Hself.
  assert (Hsame : i = j -> ki = kj) by (intros ->; congruence).
  repeat split.
  - intros Hin Hreal Hk.
    pose proof (@processDependencies_none _ _ _ Hd d Hin) as Hc. rewrite Hreal in Hc.
    pose proof (@indexOfKey_unique l j kj Hnd Hj) as Hu. rewrite Hk in Hu.
    apply Hc in Hu. apply Nat.ltb_ge in Hu.
    destruct (Nat.eq_dec i j) as [He | Hne]; [| lia].
    exfalso. pose proof (proj1 (Hself d) Hin) as Hs. rewrite Hreal in Hs.
    apply Hs. rewrite (Hsame He). now symmetry.
  - intros Hin Hvirt Hinc.
    pose proof (@processDependencies_none _ _ _ Hd d Hin) as Hc. rewrite Hvirt in Hc.
    pose proof (@findFrom_none _ _ _ Hc j kj Hj) as Hp. simpl in Hp.
    rewrite Hinc in Hp. simpl in Hp. apply Nat.ltb_ge in Hp.
    destruct (Nat.eq_dec i j) as [He | Hne]; [| lia].
    exfalso. pose proof (proj1 (Hself d) Hin) as Hs. rewrite Hvirt in Hs.
    rewrite (Hsame He) in Hs. congruence.
  - intros Hin Hreal Hk.
    pose proof (@indexOfKey_unique l j kj Hnd Hj) as Hu. rewrite Hk in Hu.
    pose proof (@processDependents_none _ _ _ Ht d Hin Hreal j Hu) as Hc.
    apply Nat.ltb_ge in Hc.
    destruct (Nat.eq_dec i j) as [He | Hne]; [| lia].
    exfalso. apply (proj2 (Hself d) Hin Hreal). rewrite (Hsame He). now symmetry.
Qed.

(** X1: when [sortKeywords] returns normally, the result is a rearrangement
    of the input; if the keys are distinct and no keyword constrains itself,
    the result satisfies the sort contract. *)
Theorem sortKeywords_sound (keywords sorted : list KeywordDesc) :
  sortKeywords keywords = inr sorted ->
  Permutation keywords sorted /\
  (NoDup (map key keywords) -> Forall NoSelfReference keywords -> RespectsOrder sorted).
Proof.
  unfold sortKeywords. intros E.
  assert (Hs : Permutation keywords sorted /\
               sortPass (List.length sorted) 0 sorted = None).
  { destruct (Nat.eqb (List.length keywords) 0) eqn:E0.
    - injection E as <-. apply Nat.eqb_eq in E0. split; [reflexivity |].
      rewrite E0. reflexivity.
    - now apply sortLoop_permutation in E. }
  destruct Hs as [Hp Hfix]. split; [exact Hp |].
  intros Hnd Hns. apply fixed_point_respects; [| | exact Hfix].
  - eapply Permutation_NoDup; [| exact Hnd]. now apply Permutation_map.
  - eapply Permutation_Forall; eauto.
Qed.

(** The witness: the list of scenario 6 of the specification. *)
Lemma sortKeywords_sound_witness :
  Permutation [kw "B" ["@V"] []; kw "A" [] ["@V"]] [kw "A" [] ["@V"]; kw "B" ["@V"] []].
Proof.
  exact (proj1 (@sortKeywords_sound [kw "B" ["@V"] []; kw "A" [] ["@V"]]
                  [kw "A" [] ["@V"]; kw "B" ["@V"] []] eq_refl)).
Defined.

Ltac distinct_keys :=
  simpl; repeat constructor; simpl; intuition discriminate.

Ltac no_self_reference :=
  repeat (apply Forall_cons;
          [ intros d; split; simpl; intros Hin;
            repeat (destruct Hin as [<- | Hin]); try contradiction; simpl;
            try reflexivity; try discriminate; intros; discriminate
          | ]);
  apply Forall_nil.

(** C1, at the failing input: [slowKeywords] has no dependency cycle, since
    its rearrangement [slowKeywordsSorted] satisfies the sort contract, yet
    [sortKeywords] gives up on it with the cycle error. *)
Theorem sortKeywords_rejects_acyclic_list :
  Permutation slowKeywords slowKeywordsSorted /\
  RespectsOrder slowKeywordsSorted /\
  sortKeywords slowKeywords = inl (ValidationError (cycleMessage slowKeywordsStuck)).
Proof.
  split; [| split].
  - unfold slowKeywords, slowKeywordsSorted. permute.
  - apply fixed_point_respects.
    + distinct_keys.
    + unfold slowKeywordsSorted. no_self_reference.
    + vm_compute. reflexivity.
  - vm_compute. reflexivity.
Qed.

(** ** sortKeywords on an array that holds an inherited member *)

Lemma shiftMembersLoop_full n l :
  n < List.length l ->
  shiftMembersLoop n n l = hd None l :: firstn n l ++ skipn (S n) l.
Proof.
  revert l. induction n as [| n IH]; intros l Hlt.
  - destruct l as [| x l]; simpl in *; [lia | reflexivity].
  - cbn [shiftMembersLoop]. replace (S n - 1) with n by lia.
    rewrite IH by (rewrite setNth_length; lia).
    rewrite firstn_setNth by lia.
    rewrite skipn_setNth by lia.
    rewrite (firstn_S_nth None) by lia.
    rewrite <- app_assoc. simpl.
    f_equal. destruct l; reflexivity.
Qed.

Lemma shiftMembersLoop_cons steps k x l :
  steps <= k -> shiftMembersLoop steps (S k) (x :: l) = x :: shiftMembersLoop steps k l.
Proof.
  revert k l. induction steps as [| steps IH]; intros k l Hle; [reflexivity |].
  cbn [shiftMembersLoop]. destruct k as [| k]; [lia |].
  replace (S (S k) - 1) with (S k) by lia. replace (S k - 1) with k by lia.
  simpl setNth. simpl nth. apply IH. lia.
Qed.

Lemma shiftMember_cons from to x l :
  to < from -> shiftMember (S from) (S to) (x :: l) = x :: shiftMember from to l.
Proof.
  intros Hlt. unfold shiftMember. simpl nth.
  replace (S from - S to) with (from - to) by lia.
  rewrite shiftMembersLoop_cons by lia. reflexivity.
Qed.

Lemma shiftMember_permutation from to l :
  to < from -> from < List.length l -> Permutation l (shiftMember from to l).
Proof.
  revert from l. induction to as [| to IH]; intros from l Hlt Hlen.
  - unfold shiftMember. rewrite Nat.sub_0_r, shiftMembersLoop_full by exact Hlen.
    simpl setNth.
    transitivity (firstn from l ++ nth from l None :: skipn (S from) l).
    + rewrite <- (firstn_skipn from l) at 1. apply Permutation_app_head.
      clear Hlt. revert l Hlen. induction from as [| from IHf]; intros [| x l] Hlen;
        simpl in *; try lia; [reflexivity |].
      apply IHf. lia.
    + symmetry. apply Permutation_middle.
  - destruct from as [| from]; [lia |]. destruct l as [| x l]; [simpl in Hlen; lia |].
    rewrite shiftMember_cons by lia. apply perm_skip. apply IH; simpl in *; lia.
Qed.

Lemma findIncluding_some p j0 l j :
  findIncluding p j0 l = inr (Some j) ->
  j < j0 + List.length l /\ exists keyword, p j keyword = true.
Proof.
  revert j0. induction l as [| [x |] l IH]; intros j0; simpl; try discriminate.
  destruct (p j0 x) eqn:E.
  - intros [= <-]. split; [lia | eauto].
  - intros Ef. apply IH in Ef. destruct Ef as [Hlt Hp]. split; [lia | exact Hp].
Qed.

Lemma indexOfMemberKey_bound name j0 l j :
  indexOfMemberKey name j0 l = Some j -> j < j0 + List.length l.
Proof.
  revert j0. induction l as [| x l IH]; intros j0; simpl; [discriminate |].
  destruct (match x with Some keyword => String.eqb (key keyword) name | None => false end).
  - intros [= <-]. lia.
  - intros E. apply IH in E. lia.
Qed.

Lemma processMemberDependencies_permutation i deps l l' :
  processMemberDependencies i deps l = inr (Some l') -> Permutation l l'.
Proof.
  induction deps as [| d deps IH]; simpl; [discriminate |].
  destruct (startsWithAt d).
  - destruct (findIncluding _ 0 l) as [e | [j |]] eqn:Ej; [discriminate | | exact IH].
    intros [= <-]. apply findIncluding_some in Ej. destruct Ej as [Hlen [keyword Hp]].
    apply andb_prop in Hp. destruct Hp as [_ Hlt]. apply Nat.ltb_lt in Hlt.
    apply shiftMember_permutation; lia.
  - destruct (indexOfMemberKey d 0 l) as [j |] eqn:Ej; [| exact IH].
    destruct (Nat.ltb i j) eqn:Hlt; [| exact IH].
    intros [= <-]. apply indexOfMemberKey_bound in Ej. apply Nat.ltb_lt in Hlt.
    apply shiftMember_permutation; lia.
Qed.

Lemma processMemberDependents_permutation i deps l l' :
  i < List.length l ->
  processMemberDependents i deps l = inr (Some l') -> Permutation l l'.
Proof.
  intros Hi. induction deps as [| d deps IH]; simpl; [discriminate |].
  destruct (startsWithAt d).
  - destruct (findIncluding _ 0 l) as [e | [j |]] eqn:Ej; [discriminate | | exact IH].
    intros [= <-]. apply findIncluding_some in Ej. destruct Ej as [_ [keyword Hp]].
    apply andb_prop in Hp. destruct Hp as [_ Hlt]. apply Nat.ltb_lt in Hlt.
    apply shiftMember_permutation; lia.
  - destruct (indexOfMemberKey d 0 l) as [j |] eqn:Ej; [| exact IH].
    destruct (Nat.ltb j i) eqn:Hlt; [| exact IH].
    intros [= <-]. apply Nat.ltb_lt in Hlt.
    apply shiftMember_permutation; lia.
Qed.

Lemma sortMembersPass_permutation count i l l' :
  i + count <= List.length l ->
  sortMembersPass count i l = inr (Some l') -> Permutation l l'.
Proof.
  revert i. induction count as [| count IH]; intros i Hle; simpl; [discriminate |].
  destruct (nth i l None) as [keyword |]; [| discriminate].
  destruct (processMemberDependencies i _ l) as [e | [l1 |]] eqn:E1; [discriminate | |].
  - intros [= <-]. eapply processMemberDependencies_permutation; eauto.
  - destruct (processMemberDependents i _ l) as [e | [l2 |]] eqn:E2; [discriminate | |].
    + intros [= <-]. eapply processMemberDependents_permutation; [| eauto]. lia.
    + apply IH. lia.
Qed.

(** A pass that changes nothing has read the lists of every member. *)
Lemma sortMembersPass_none count i l :
  sortMembersPass count i l = inr None ->
  forall j, i <= j -> j < i + count -> nth j l None <> None.
Proof.
  revert i. induction count as [| count IH]; intros i E j Hij Hj; [lia |].
  simpl in E. destruct (nth i l None) as [keyword |] eqn:En; [| discriminate].
  destruct (processMemberDependencies i _ l) as [e | [l1 |]]; try discriminate.
  destruct (processMemberDependents i _ l) as [e | [l2 |]]; try discriminate.
  destruct (Nat.eq_dec i j) as [<- | Hne]; [congruence |].
  apply (IH (S i) E); lia.
Qed.

Lemma sortMembersLoop_throws remaining : forall members,
  In None members -> exists e, sortMembersLoop remaining members = inl e.
Proof.
  induction remaining as [| remaining IH]; intros members Hin; simpl; [eauto |].
  destruct (sortMembersPass (List.length members) 0 members) as [e | [members' |]] eqn:E;
    [eauto | |].
  - apply IH. apply sortMembersPass_permutation in E; [| lia].
    eapply Permutation_in; eauto.
  - exfalso. destruct (In_nth _ _ None Hin) as (j & Hj & Hn).
    apply (@sortMembersPass_none _ _ _ E j); [lia | lia | exact Hn].
Qed.

Lemma allKeywords_none members : allKeywords members = None -> In None members.
Proof.
  induction members as [| [keyword |] members IH]; simpl; [discriminate | | now left].
  destruct (allKeywords members); [discriminate |]. intros _. right. now apply IH.
Qed.

(** With an inherited member in the array the sort throws. *)
Lemma sortMembers_throws members :
  allKeywords members = None -> exists e, sortMembers members = inl e.
Proof.
  intros E. apply allKeywords_none in E. unfold sortMembers.
  destruct members as [| m members]; [destruct E |].
  cbn [List.length Nat.eqb]. apply sortMembersLoop_throws. exact E.
Qed.

(** ** sortKeywords on ordered and on unorderable lists *)

Lemma findFrom_all_false p j0 l :
  (forall j kw, nth_error l j = Some kw -> p (j0 + j) kw = false) ->
  findFrom p j0 l = None.
Proof.
  revert j0. induction l as [| x l IH]; intros j0 Hall; [reflexivity |].
  simpl. pose proof (Hall 0 x eq_refl) as H0. rewrite Nat.add_0_r in H0. rewrite H0.
  apply IH. intros j kw Hn. replace (S j0 + j) with (j0 + S j) by lia. now apply Hall.
Qed.

Lemma findFrom_nth p l j :
  findFrom p 0 l = Some j -> exists kw, nth_error l j = Some kw /\ p j kw = true.
Proof.
  intros E. apply findFrom_some in E. destruct E as [Hlt Hp].
  rewrite Nat.sub_0_r in Hp. exists (nth j l emptyKeyword). split; [| exact Hp].
  apply nth_error_nth'. lia.
Qed.

Lemma includes_In s l : includes s l = true <-> In s l.
Proof.
  unfold includes. rewrite existsb_exists. split.
  - intros [x [Hin E]]. apply String.eqb_eq in E. now subst.
  - intros Hin. exists s. split; [exact Hin | apply String.eqb_refl].
Qed.

Lemma respects_processDependencies l i ki deps :
  RespectsOrder l ->
  nth_error l i = Some ki ->
  (forall d, In d deps -> In d (dependencies ki)) ->
  processDependencies i deps l = None.
Proof.
  intros Hr Hi. induction deps as [| d deps IH]; intros Hsub; [reflexivity |].
  assert (Hd : In d (dependencies ki)) by (apply Hsub; now left).
  assert (Hrest : processDependencies i deps l = None)
    by (apply IH; intros d' Hin; apply Hsub; now right).
  simpl. destruct (startsWithAt d) eqn:Hv.
  - rewrite findFrom_all_false; [exact Hrest |].
    intros j kj Hj. simpl. destruct (includes d (dependents kj)) eqn:Hinc; [| reflexivity].
    simpl. apply Nat.ltb_ge.
    destruct (Hr i j ki kj d Hi Hj) as [_ [H2 _]]. specialize (H2 Hd Hv Hinc). lia.
  - destruct (indexOfKey d l) as [di |] eqn:Edi; [| exact Hrest].
    apply findFrom_nth in Edi. destruct Edi as [kj [Hj Hk]]. apply String.eqb_eq in Hk.
    destruct (Hr i di ki kj d Hi Hj) as [H1 _]. specialize (H1 Hd Hv Hk).
    replace (Nat.ltb i di) with false by (symmetry; apply Nat.ltb_ge; lia).
    exact Hrest.
Qed.

Lemma respects_processDependents l i ki deps :
  RespectsOrder l ->
  nth_error l i = Some ki ->
  (forall d, In d deps -> In d (dependents ki)) ->
  processDependents i deps l = None.
Proof.
  intros Hr Hi. induction deps as [| d deps IH]; intros Hsub; [reflexivity |].
  assert (Hd : In d (dependents ki)) by (apply Hsub; now left).
  assert (Hrest : processDependents i deps l = None)
    by (apply IH; intros d' Hin; apply Hsub; now right).
  simpl. destruct (startsWithAt d) eqn:Hv.
  - rewrite findFrom_all_false; [exact Hrest |].
    intros j kj Hj. simpl. destruct (includes d (dependencies kj)) eqn:Hinc; [| reflexivity].
    simpl. apply Nat.ltb_ge.
    destruct (Hr j i kj ki d Hj Hi) as [_ [H2 _]].
    apply includes_In in Hinc. apply includes_In in Hd. specialize (H2 Hinc Hv Hd). lia.
  - destruct (indexOfKey d l) as [di |] eqn:Edi; [| exact Hrest].
    apply findFrom_nth in Edi. destruct Edi as [kj [Hj Hk]]. apply String.eqb_eq in Hk.
    destruct (Hr i di ki kj d Hi Hj) as [_ [_ H3]]. specialize (H3 Hd Hv Hk).
    replace (Nat.ltb di i) with false by (symmetry; apply Nat.ltb_ge; lia).
    exact Hrest.
Qed.

Lemma respects_sortPass l count i :
  RespectsOrder l -> i + count <= List.length l -> sortPass count i l = None.
Proof.
  intros Hr. revert i. induction count as [| count IH]; intros i Hle; [reflexivity |].
  simpl. assert (Hi : nth_error l i = Some (nth i l emptyKeyword))
    by (apply nth_error_nth'; lia).
  rewrite (@respects_processDependencies l i _ _ Hr Hi) by auto.
  rewrite (@respects_processDependents l i _ _ Hr Hi) by auto.
  apply IH. lia.
Qed.

Lemma sortLoop_fixed remaining l :
  sortPass (List.length l) 0 l = None -> sortLoop (S remaining) l = inr l.
Proof. intros E. simpl. now rewrite E. Qed.

Lemma sortKeywords_fixed l :
  sortPass (List.length l) 0 l = None -> sortKeywords l = inr l.
Proof.
  intros E. unfold sortKeywords. destruct l as [| x l]; [reflexivity |].
  cbn [List.length Nat.eqb Nat.mul Nat.add]. now apply sortLoop_fixed.
Qed.

Lemma sortLoop_gives_up remaining l e :
  sortLoop remaining l = inl e ->
  exists l', Permutation l l' /\ e = ValidationError (cycleMessage l').
Proof.
  revert l. induction remaining as [| remaining IH]; intros l; simpl.
  - intros [= <-]. exists l. split; reflexivity.
  - destruct (sortPass (List.length l) 0 l) as [l1 |] eqn:E; [| discriminate].
    intros El. apply sortPass_permutation in E; [| lia].
    destruct (IH _ El) as [l' [Hp He]]. exists l'. split; [| exact He].
    now transitivity l1.
Qed.

(** X9: a list that already satisfies the sort contract is returned as it
    is. *)
Theorem sortKeywords_keeps_ordered_list (keywords : list KeywordDesc) :
  RespectsOrder keywords -> sortKeywords keywords = inr keywords.
Proof.
  intros Hr. apply sortKeywords_fixed. apply respects_sortPass; [exact Hr | lia].
Qed.

Lemma sortKeywords_keeps_ordered_list_witness :
  sortKeywords [kw "A" [] ["@V"]; kw "B" ["@V"; "A"] []] =
    inr [kw "A" [] ["@V"]; kw "B" ["@V"; "A"] []].
Proof.
  apply (@sortKeywords_keeps_ordered_list [kw "A" [] ["@V"]; kw "B" ["@V"; "A"] []]).
  apply fixed_point_respects.
  - distinct_keys.
  - no_self_reference.
  - vm_compute. reflexivity.
Defined.

(** X10: sorting is idempotent: the order that [sortKeywords] returns is
    returned unchanged when it is sorted again. *)
Theorem sortKeywords_idempotent (keywords sorted : list KeywordDesc) :
  sortKeywords keywords = inr sorted -> sortKeywords sorted = inr sorted.
Proof.
  intros E. apply sortKeywords_fixed. unfold sortKeywords in E.
  destruct (Nat.eqb (List.length keywords) 0) eqn:E0.
  - injection E as <-. apply Nat.eqb_eq in E0. now rewrite E0.
  - now apply sortLoop_permutation in E.
Qed.

Lemma sortKeywords_idempotent_witness :
  sortKeywords [kw "A" [] ["@V"]; kw "B" ["@V"] []] =
    inr [kw "A" [] ["@V"]; kw "B" ["@V"] []].
Proof.
  exact (@sortKeywords_idempotent [kw "B" ["@V"] []; kw "A" [] ["@V"]]
           [kw "A" [] ["@V"]; kw "B" ["@V"] []] eq_refl).
Defined.

(** X11: a list of distinct keywords, none of which constrains itself, that
    has no order satisfying the sort contract is rejected with the cycle
    error; the message lists the keys in the order reached. *)
Theorem sortKeywords_rejects_unorderable (keywords : list KeywordDesc) :
  NoDup (map key keywords) ->
  Forall NoSelfReference keywords ->
  (forall order, Permutation keywords order -> ~ RespectsOrder order) ->
  exists reached,
    Permutation keywords reached /\
    sortKeywords keywords = inl (ValidationError (cycleMessage reached)).
Proof.
  intros Hnd Hns Hno. unfold sortKeywords.
  destruct (Nat.eqb (List.length keywords) 0) eqn:E0.
  - exfalso. apply (Hno keywords (Permutation_refl _)).
    apply Nat.eqb_eq in E0. destruct keywords; [| discriminate].
    intros i j ki kj d Hi. destruct i; discriminate.
  - destruct (sortLoop _ keywords) as [e | sorted] eqn:E.
    + destruct (@sortLoop_gives_up _ _ _ E) as [reached [Hp ->]]. now exists reached.
    + exfalso. apply sortLoop_permutation in E. destruct E as [Hp Hfix].
      apply (Hno sorted Hp). apply fixed_point_respects; [| | exact Hfix].
      * eapply Permutation_NoDup; [| exact Hnd]. now apply Permutation_map.
      * eapply Permutation_Forall; eauto.
Qed.

Lemma two_cycle_unorderable order :
  Permutation [kw "A" ["B"] []; kw "B" ["A"] []] order -> ~ RespectsOrder order.
Proof.
  intros Hp Hr. apply Permutation_length_2_inv in Hp. destruct Hp as [-> | ->].
  - destruct (Hr 0 1 (kw "A" ["B"] []) (kw "B" ["A"] []) "B" eq_refl eq_refl) as [H1 _].
    assert (1 < 0) by (apply H1; simpl; auto). lia.
  - destruct (Hr 0 1 (kw "B" ["A"] []) (kw "A" ["B"] []) "A" eq_refl eq_refl) as [H1 _].
    assert (1 < 0) by (apply H1; simpl; auto). lia.
Qed.

Lemma sortKeywords_rejects_unorderable_witness :
  exists reached,
    Permutation [kw "A" ["B"] []; kw "B" ["A"] []] reached /\
    sortKeywords [kw "A" ["B"] []; kw "B" ["A"] []] =
      inl (ValidationError (cycleMessage reached)).
Proof.
  apply (@sortKeywords_rejects_unorderable [kw "A" ["B"] []; kw "B" ["A"] []]).
  - distinct_keys.
  - no_self_reference.
  - exact two_cycle_unorderable.
Defined.

(** ** emitOutput *)

Section OutputFacts.
Context `{ToolJson}.

(** X3: an empty child is dropped: nothing changes and nothing is
    returned. *)
Lemma emitOutput_drops_empty frame parents o :
  output frame = Some o ->
  isEmptyOutput o = true ->
  emitOutputFrames (frame :: parents) = (frame :: parents, None).
Proof.
  intros Ho He. unfold emitOutputFrames. now rewrite Ho, He.
Qed.

(** X4: a single nested error beside no list of annotations is hoisted, and
    so is a single nested annotation beside no list of errors. *)
Lemma hoistOutput_single v kl akl il u :
  hoistOutput (mkOutput v kl akl il None None (Some [u]) None) = u /\
  hoistOutput (mkOutput v kl akl il None None None (Some [u])) = u.
Proof. split; reflexivity. Qed.

(** X5: the nearest parent that owns an output receives the unit, chained by
    [chainOutput]: an invalid unit makes it invalid and is appended to its
    errors, a valid one is appended to its annotations. *)
Lemma emitToParents_nearest u skipped frame parents base :
  Forall (fun f => output f = None) skipped ->
  output frame = Some base ->
  emitToParents u (skipped ++ frame :: parents) =
    (skipped ++
       setOutput (Some (chainOutput u (initOutputUnit (frame :: parents) base))) frame
       :: parents,
     Some (chainOutput u (initOutputUnit (frame :: parents) base))).
Proof.
  intros Hs Hb. induction Hs as [| f skipped Hf _ IH]; simpl.
  - now rewrite Hb.
  - rewrite Hf, IH. reflexivity.
Qed.

Lemma chainOutput_invalid u base :
  valid u = false ->
  valid (chainOutput u base) = false /\
  errors (chainOutput u base) = pushUnit (errors base) u /\
  annotations (chainOutput u base) = annotations base.
Proof. intros E. unfold chainOutput. rewrite E. simpl. auto. Qed.

Lemma chainOutput_valid u base :
  valid u = true ->
  valid (chainOutput u base) = valid base /\
  errors (chainOutput u base) = errors base /\
  annotations (chainOutput u base) = pushUnit (annotations base) u.
Proof. intros E. unfold chainOutput. rewrite E. simpl. auto. Qed.

End OutputFacts.

(** C3, at the failing input: on the instance 5 the branch of
    [{"allOf": [{"x-note": "n", "maximum": 0}]}] reaches [emitOutput] with an
    output that has no error and no annotation of its own, one nested error
    and one nested annotation.  The child has something of substance besides
    its single nested error, yet [emitOutput] hoists the error in its place:
    the keyword receives the error of [maximum], not the unit of the branch,
    and the annotation is in no unit of the output that [validate]
    returns. *)
Theorem emitOutput_hoists_error_beside_annotation :
  (exists resource,
     parseSchemaNode (H := plainHost) applicatorDialects 3 notedSchema None emptyContext
       = (inr (Some resource), notedContext)) /\
  fst notedBranchRun = inr tt /\
  map output (stack (snd notedBranchRun))
    = [Some notedBranchOutput; Some newOutput; Some newOutput] /\
  isUndefined (error notedBranchOutput) = true /\
  isUndefined (annotation notedBranchOutput) = true /\
  oneUnit (errors notedBranchOutput) = true /\
  noUnits (annotations notedBranchOutput) = false /\
  (exists base,
     snd (emitOutputFrames (H := plainHost) (stack (snd notedBranchRun))) = Some base /\
     errors base = Some [maximumError] /\
     errors base <> Some [notedBranchOutput] /\
     annotations base = None) /\
  exists out unit,
    validateInstance (H := plainHost) applicatorDialects 3
      (mkSchema notedSchema notedContext) (JNum 5) = inr out /\
    errors out = Some [unit] /\
    annotations out = None /\
    keywordLocation unit = Some "/allOf" /\
    errors unit = Some [maximumError] /\
    annotations unit = None.
Proof.
  split; [eexists; vm_compute; reflexivity |].
  split; [vm_compute; reflexivity |].
  split; [vm_compute; reflexivity |].
  do 4 (split; [reflexivity |]).
  split.
  - eexists. split; [vm_compute; reflexivity |].
    split; [reflexivity |]. split; [discriminate | reflexivity].
  - eexists. eexists. split; [vm_compute; reflexivity |].
    repeat split; reflexivity.
Qed.

Lemma emitOutput_drops_empty_witness :
  emitOutputFrames (H := plainHost) [mkFrame None None None None None (Some newOutput)]
    = ([mkFrame None None None None None (Some newOutput)], None).
Proof.
  apply (@emitOutput_drops_empty plainHost (mkFrame None None None None None (Some newOutput))
           [] newOutput); reflexivity.
Defined.

Lemma emitToParents_nearest_witness :
  emitToParents (H := plainHost) nestedError
    ([mkFrame None None None None None None] ++
     [mkFrame None None None None None (Some newOutput)])
  = ([mkFrame None None None None None None] ++
     [setOutput
        (Some (chainOutput nestedError
                 (initOutputUnit (H := plainHost) [mkFrame None None None None None (Some newOutput)] newOutput)))
        (mkFrame None None None None None (Some newOutput))],
     Some (chainOutput nestedError
             (initOutputUnit (H := plainHost) [mkFrame None None None None None (Some newOutput)] newOutput))).
Proof.
  apply (@emitToParents_nearest plainHost nestedError [mkFrame None None None None None None]
           (mkFrame None None None None None (Some newOutput)) [] newOutput).
  - repeat constructor.
  - reflexivity.
Defined.

(** ** Boolean schemas *)

Section PipelineFacts.
Context `{ToolJson}.
Variable dialects : list Dialect.

(** C6: against the schema [true] every instance gives the output
    [{ valid: true }], with no error; against the schema [false] every
    instance gives an output with [valid = false] and the error
    "never valid".  One unit of fuel is enough. *)
Theorem boolean_schema_validate (fuel : nat) (ctx : Context) (inst : JSON) :
  validateInstance dialects (S fuel) (mkSchema (JBool true) ctx) inst = inr newOutput /\
  exists o,
    validateInstance dialects (S fuel) (mkSchema (JBool false) ctx) inst = inr o /\
    valid o = false /\
    error o = Some "never valid" /\
    annotation o = None /\ errors o = None /\ annotations o = None.
Proof.
  split.
  - reflexivity.
  - eexists. split; [reflexivity |]. simpl. auto.
Qed.

(** ** Unknown keywords *)

(** A key that the dialect does not know, where the pipeline runs the
    unknown keyword for it, is parsed without error whatever its value and
    whatever the context, and its round of the validation loop succeeds: the
    schema's output receives, in its annotations, a valid unit at the
    keyword's location whose annotation is the keyword's value, and the
    schema's [valid] flag and errors stay as they were.  The keys that name
    an inherited member are not among them: see
    [collected_inherited_member_throws] below. *)
Lemma unknown_keyword_annotates (d : Dialect) (k : string) (value : JSON)
    (fields : list (string * JSON)) (inst : option JSON) (recur : M unit)
    (c : Context) (frame : SchemaFrame) (parents : list SchemaFrame) (o : OutputUnit) :
  inheritedMember k = false ->
  lookupString k (keywords d) = None ->
  getField k fields = Some value ->
  stack c = frame :: parents ->
  output frame = Some o ->
  (forall c', parse (keywordOf (Some d) k) recur c' = (inr tt, c')) /\
  exists o',
    validateKeyword recur (Some d) fields inst k c =
      (inr tt, setStack (setOutput (Some o') frame :: parents) c) /\
    valid o' = valid o /\
    errors o' = errors o /\
    error o' = error o /\
    annotations o' =
      pushUnit (annotations o) (unknownKeywordUnit (frame :: parents) k inst value).
Proof.
  intros _ Hk Hv Hs Ho. unfold keywordOf. rewrite Hk. split.
  - reflexivity.
  - eexists. split.
    + unfold validateKeyword, keywordOf. rewrite Hk.
      unfold nestFrame, bind, modifyFrame, unknownKeyword,
        annotationValidate, attachAnnotation, getStack, putStack, currentFrame,
        emitOutput, ret. simpl.
      rewrite Hs, Hv. simpl. rewrite Ho. simpl. reflexivity.
    + simpl. repeat split.
Qed.

End PipelineFacts.

Lemma allKeywords_member members : In None members -> allKeywords members = None.
Proof.
  induction members as [| [keyword |] members IH]; simpl; [tauto | | reflexivity].
  intros [E | Hin]; [discriminate |]. now rewrite IH.
Qed.

(** A schema with a key that the dialect does not know and that names an
    inherited member does not parse, whatever else it holds: the sort of its
    keywords throws. *)
Lemma collected_inherited_member_throws `{ToolJson} (d : Dialect)
    (fields : list (string * JSON)) (k : string) :
  In k (map fst fields) ->
  lookupString k (keywords d) = None ->
  inheritedMember k = true ->
  exists e,
    sortMembers (map (fun e => collectKeyword d (fst e)) fields) = inl e /\
    sortCollected (map (fun e => collectKeyword d (fst e)) fields) = inl e.
Proof.
  intros Hin Hk Hi.
  assert (Hnone : allKeywords (map (fun e => collectKeyword d (fst e)) fields) = None).
  { apply allKeywords_member. apply in_map_iff in Hin. destruct Hin as (e & <- & Hin).
    apply in_map_iff. exists e. split; [| exact Hin].
    unfold collectKeyword. now rewrite Hk, Hi. }
  destruct (sortMembers_throws _ Hnone) as [e E].
  exists e. split; [exact E |]. unfold sortCollected. now rewrite Hnone, E.
Qed.

(** C8, at the failing inputs: a key such as [toString] or [constructor] is
    not a keyword of the dialect, yet a schema that has it does not parse,
    whatever the value of the key.  [dialect.keywords[key]] finds the member
    that the keywords object inherits, [unknownKeyword] is not called, and
    [sortKeywords] throws a TypeError when it iterates the [dependencies] of
    the member. *)
Theorem unknown_keyword_inherited_name_throws :
  Forall (fun k =>
            lookupString k (keywords (dialectApplicators (H := plainHost))) = None /\
            forall value,
              fst (parseSchemaNode (H := plainHost) applicatorDialects 1
                     (JObj [(k, value)]) None emptyContext)
                = inl (TypeError "keyword.dependencies is not iterable"))
         objectPrototypeMembers.
Proof.
  unfold objectPrototypeMembers.
  repeat (apply Forall_cons; [split; [vm_compute; reflexivity |
                                      intros value; vm_compute; reflexivity] |]).
  apply Forall_nil.
Qed.

(** ** Validation keywords outside their domain *)

Section ValidationFacts.
Context `{ToolJson}.

(** C9: each of the seventeen typed validation keywords returns at once,
    leaving the whole context (and with it the current output unit) as it
    was, when the instance of the current frame is outside the keyword's
    domain. *)
Theorem validation_keyword_noop_outside_domain (k : string) (v : M unit)
    (c : Context) (frame : SchemaFrame) (parents : list SchemaFrame) :
  In (k, v) typedValidationKeywords ->
  stack c = frame :: parents ->
  applicableDomain k (instance frame) = false ->
  v c = (inr tt, c).
Proof.
  intros Hin Hs Hd. unfold typedValidationKeywords in Hin. simpl in Hin.
  repeat (destruct Hin as [Hin | Hin];
          [ injection Hin as <- <-;
            cbv [multipleOfValidate maximumValidate exclusiveMaximumValidate
                 minimumValidate exclusiveMinimumValidate maxLengthValidate
                 minLengthValidate patternValidate maxItemsValidate minItemsValidate
                 uniqueItemsValidate maxContainsValidate minContainsValidate
                 maxPropertiesValidate minPropertiesValidate requiredValidate
                 dependentRequiredValidate onNumber onString onArray onObject
                 bind currentFrame ret];
            rewrite Hs;
            destruct (instance frame) as [[| | | | |] |]; try reflexivity;
            discriminate Hd
          | ]).
  contradiction.
Qed.

End ValidationFacts.

(** The witness: [maximum] on a string instance. *)
Lemma validation_keyword_noop_outside_domain_witness :
  maximumValidate (H := plainHost)
    (withStack [mkFrame (Some (KStr "maximum")) (Some (JNum 3)) None (Some (JStr "abc"))
                  None (Some newOutput)])
  = (inr tt,
     withStack [mkFrame (Some (KStr "maximum")) (Some (JNum 3)) None (Some (JStr "abc"))
                  None (Some newOutput)]).
Proof.
  apply (@validation_keyword_noop_outside_domain plainHost "maximum" _ _
           (mkFrame (Some (KStr "maximum")) (Some (JNum 3)) None (Some (JStr "abc"))
              None (Some newOutput)) []).
  - simpl. auto.
  - reflexivity.
  - reflexivity.
Defined.

(** ** $dynamicRef *)

Lemma find_app_split {A} (p : A -> bool) (l1 l2 : list A) :
  find p (l1 ++ l2) = match find p l1 with Some x => Some x | None => find p l2 end.
Proof.
  induction l1 as [| x l1 IH]; simpl; [reflexivity |].
  destruct (p x); [reflexivity | exact IH].
Qed.

Lemma declaresDynamicAnchor_node anchor n :
  declaresDynamicAnchor anchor n = true -> exists v, n = Some v.
Proof. destruct n as [v |]; simpl; [eauto | discriminate]. Qed.

Lemma dynamicResolve_outermost anchor frames resolved :
  dynamicResolve anchor frames resolved =
    match outermostDynamicAnchor anchor frames with
    | Some n => n
    | None => resolved
    end.
Proof.
  revert resolved. unfold outermostDynamicAnchor.
  induction frames as [| f frames IH]; intros resolved; simpl; [reflexivity |].
  rewrite IH, find_app_split.
  destruct (find _ (rev frames)) as [g |] eqn:Eg.
  { apply find_some in Eg. destruct Eg as [_ Eg].
    destruct (declaresDynamicAnchor_node _ _ Eg) as [v ->]. reflexivity. }
  simpl. destruct (declaresDynamicAnchor anchor (node f)) eqn:E; [| reflexivity].
  destruct (declaresDynamicAnchor_node _ _ E) as [v ->]. reflexivity.
Qed.

Section DynamicRefFacts.
Context `{ToolJson}.


End DynamicRefFacts.


(** ** unevaluatedItems *)

Section UnevaluatedFacts.
Context `{ToolJson}.

(** C4, at the failing input: on the empty array, with no annotation in
    scope, [unevaluatedItems] applies its sub-schema to no index (the
    counter [count] ends at 0), and still attaches the annotation [true]. *)
Theorem unevaluatedItems_annotates_without_applying (recur : M unit) :
  exists c,
    unevaluatedItemsApply recur (withStack emptyArrayStack) = (inr (Some (true, 0)), c) /\
    exists c' o,
      unevaluatedItemsValidate recur (withStack emptyArrayStack) = (inr tt, c') /\
      frameOutput (stack c') = o /\
      annotation o = Some (JBool true).
Proof.
  eexists. split; [reflexivity |].
  eexists. eexists. split; [reflexivity |]. split; reflexivity.
Qed.

End UnevaluatedFacts.

Lemma scanItemAnnotations_true units u startIndex contained :
  In u units ->
  annotation u = Some (JBool true) ->
  scanItemAnnotations units startIndex contained = None.
Proof.
  revert startIndex contained. induction units as [| x units IH];
    intros startIndex contained Hin Ha; [destruct Hin |].
  simpl. destruct Hin as [-> | Hin]; [now rewrite Ha |].
  destruct (annotation x) as [[| [|] | | | |] |]; eauto.
Qed.

(** X7: the first index that [unevaluatedItems] looks at is the largest of
    the initial 0 and the numeric values of the relevant annotations. *)
Lemma scanItemAnnotations_start units startIndex contained startIndex' contained' :
  scanItemAnnotations units startIndex contained = Some (startIndex', contained') ->
  startIndex' = fold_left Z.max (numericAnnotations units) startIndex.
Proof.
  revert startIndex contained. induction units as [| x units IH];
    intros startIndex contained; simpl.
  - now intros [= <- <-].
  - unfold numericAnnotations. simpl.
    destruct (annotation x) as [[| [|] | v | | |] |]; simpl; try discriminate; eauto.
Qed.

Section UnevaluatedScope.
Context `{ToolJson}.

(** X6: a [true] annotation among the relevant ones makes
    [unevaluatedItems] a no-op: the context is left as it was. *)
Theorem unevaluatedItems_ignored_after_true (recur : M unit) (c : Context)
    (frame : SchemaFrame) (parents : list SchemaFrame) (u : OutputUnit) :
  stack c = frame :: parents ->
  In u (itemAnnotations parents) ->
  annotation u = Some (JBool true) ->
  unevaluatedItemsValidate recur c = (inr tt, c).
Proof.
  intros Hs Hin Ha.
  unfold unevaluatedItemsValidate, unevaluatedItemsApply, bind, currentFrame,
    parentFrames, getStack, ret.
  rewrite !Hs. simpl tl.
  destruct (instance frame) as [[| | | | items |] |]; try reflexivity.
  unfold bind, ret. rewrite Hs. simpl tl.
  cbn [tl]. now rewrite (@scanItemAnnotations_true _ u 0%Z None Hin Ha).
Qed.

End UnevaluatedScope.

Lemma scanItemAnnotations_start_witness :
  scanItemAnnotations [prefixItemsUnit] 0 None = Some (2%Z, None) /\
  2%Z = fold_left Z.max (numericAnnotations [prefixItemsUnit]) 0%Z.
Proof.
  split; [reflexivity |].
  apply (@scanItemAnnotations_start [prefixItemsUnit] 0%Z None 2%Z None). reflexivity.
Defined.

Lemma unevaluatedItems_ignored_after_true_witness :
  unevaluatedItemsValidate (H := plainHost) acceptAll (withStack evaluatedStack) =
    (inr tt, withStack evaluatedStack).
Proof.
  apply (@unevaluatedItems_ignored_after_true plainHost acceptAll
           (withStack evaluatedStack)
           (hd createSchemaFrame evaluatedStack) (tl evaluatedStack)
           itemsTrueUnit).
  - reflexivity.
  - vm_compute. left. reflexivity.
  - reflexivity.
Defined.

(** ** contains *)

Lemma foldContains_some flags index l n :
  foldContains flags index (Some l, n) =
    (Some (l ++ validIndices flags index), n + countValid flags).
Proof.
  revert index l n. induction flags as [| v flags IH]; intros index l n; simpl.
  - rewrite app_nil_r, Nat.add_0_r. reflexivity.
  - destruct v; simpl; rewrite IH; unfold countValid; simpl.
    + rewrite <- app_assoc. simpl. f_equal. lia.
    + reflexivity.
Qed.

Lemma foldContains_none flags index n :
  foldContains flags index (None, n) =
    (if forallb (fun v => v) flags then None
     else Some (seq 0 index ++ validIndices flags index),
     n + countValid flags).
Proof.
  revert index n. induction flags as [| v flags IH]; intros index n.
  - simpl. rewrite Nat.add_0_r. reflexivity.
  - destruct v.
    + change (foldContains (true :: flags) index (None, n))
        with (foldContains flags (S index) (None, S n)).
      rewrite IH. cbn [forallb validIndices andb]. unfold countValid.
      cbn [filter List.length]. f_equal.
      * destruct (forallb _ flags); [reflexivity |].
        rewrite seq_S, <- app_assoc. reflexivity.
      * lia.
    + change (foldContains (false :: flags) index (None, n))
        with (foldContains flags (S index) (Some (seq 0 index), n)).
      rewrite foldContains_some. reflexivity.
Qed.

Lemma validIndices_sorted flags index :
  forall i j, nth_error (validIndices flags index) i <> None ->
              i < j -> nth_error (validIndices flags index) j <> None ->
              nth i (validIndices flags index) 0 < nth j (validIndices flags index) 0.
Proof.
  assert (Hge : forall flags index x, In x (validIndices flags index) -> index <= x).
  { clear. induction flags as [| v flags IH]; intros index x; simpl; [tauto |].
    destruct v; simpl; intros Hin.
    - destruct Hin as [<- | Hin]; [lia | apply IH in Hin; lia].
    - apply IH in Hin. lia. }
  revert index. induction flags as [| v flags IH]; intros index i j Hi Hij Hj.
  - destruct i; simpl in Hi; congruence.
  - simpl in *. destruct v; [| now apply IH].
    destruct j as [| j]; [lia |]. destruct i as [| i]; simpl in *.
    + assert (Hin : In (nth j (validIndices flags (S index)) 0) (validIndices flags (S index))).
      { apply nth_In. apply nth_error_Some. exact Hj. }
      apply Hge in Hin. lia.
    + apply IH; [exact Hi | lia | exact Hj].
Qed.

Lemma countValid_zero flags :
  Nat.eqb (countValid flags) 0 = negb (existsb (fun v => v) flags).
Proof.
  induction flags as [| v flags IH]; [reflexivity |].
  unfold countValid in *. simpl. destruct v; simpl; [reflexivity | exact IH].
Qed.

(** X8: on a boolean schema node the pipeline is the boolean validation:
    nothing for [true], the error [never valid] for [false]. *)
Lemma validateSchemaResource_boolean `{ToolJson} dialects fuel c frame parents b :
  stack c = frame :: parents ->
  node frame = Some (JBool b) ->
  validateSchemaResource dialects (S fuel) c = booleanSchemaValidate c.
Proof.
  intros Hs Hn. unfold booleanSchemaValidate. simpl. unfold bind, currentFrame.
  rewrite Hs, Hn. destruct b; reflexivity.
Qed.

Lemma validateSchemaResource_boolean_witness :
  validateSchemaResource (H := plainHost) plainDialects 1 (withStack twoItemStack) =
    plainBoolean (withStack twoItemStack).
Proof.
  apply (@validateSchemaResource_boolean plainHost plainDialects 0
           (withStack twoItemStack) (hd createSchemaFrame twoItemStack)
           (tl twoItemStack) true); reflexivity.
Defined.

(** ** The pipeline leaves the frames below its own alone *)

Lemma cachePattern_stack `{ToolJson} pattern c r c' :
  cachePattern pattern c = (r, c') -> stack c' = stack c.
Proof.
  unfold cachePattern. destruct (compilePattern pattern); intros E; injection E as <- <-;
    [destruct (includes pattern (patternCache c)) |]; reflexivity.
Qed.

Lemma topOnly_ret {A} (a : A) : topOnly (ret a).
Proof. intros c child rest r c' Hs Ho E. injection E as <- <-. eauto. Qed.

Lemma topOnly_throw {A} e : topOnly (@throw A e).
Proof. intros c child rest r c' Hs Ho E. injection E as <- <-. eauto. Qed.

Lemma topOnly_bind {A B} (m : M A) (f : A -> M B) :
  topOnly m -> (forall a, topOnly (f a)) -> topOnly (bind m f).
Proof.
  intros Hm Hf c child rest r c' Hs Ho E. unfold bind in E.
  destruct (m c) as [[e | a] c1] eqn:Em.
  - injection E as <- <-. eapply Hm; eauto.
  - destruct (Hm _ _ _ _ _ Hs Ho Em) as (child1 & Hs1 & Ho1).
    eapply Hf; eauto.
Qed.

Lemma topOnly_currentFrame : topOnly currentFrame.
Proof.
  intros c child rest r c' Hs Ho E. unfold currentFrame in E. rewrite Hs in E.
  injection E as <- <-. eauto.
Qed.

Lemma topOnly_getStack : topOnly getStack.
Proof. intros c child rest r c' Hs Ho E. injection E as <- <-. eauto. Qed.

Lemma topOnly_parentFrames : topOnly parentFrames.
Proof.
  apply topOnly_bind; [apply topOnly_getStack | intros; apply topOnly_ret].
Qed.

Lemma topOnly_readValid : topOnly readValid.
Proof.
  apply topOnly_bind; [apply topOnly_currentFrame |].
  intros f. destruct (output f); [apply topOnly_ret | apply topOnly_throw].
Qed.

Lemma topOnly_modifyFrame (g : SchemaFrame -> SchemaFrame) :
  (forall f, output f <> None -> output (g f) <> None) -> topOnly (modifyFrame g).
Proof.
  intros Hg c child rest r c' Hs Ho E. unfold modifyFrame in E. rewrite Hs in E.
  injection E as <- <-. simpl. eauto.
Qed.

Lemma topOnly_restoreCheckpoint checkpoint : topOnly (restoreCheckpoint checkpoint).
Proof.
  unfold restoreCheckpoint. destruct (checkpointOutput checkpoint); [| apply topOnly_ret].
  apply topOnly_modifyFrame. intros f Hf. destruct (output f); [discriminate | tauto].
Qed.

Section Confinement.
Context `{ToolJson}.

Lemma topOnly_attachError message : topOnly (attachError message).
Proof.
  intros c child rest r c' Hs Ho E.
  unfold attachError, bind, currentFrame, getStack, putStack, ret in E.
  rewrite !Hs in E. simpl in E. injection E as <- <-. simpl.
  eexists. split; [reflexivity | discriminate].
Qed.

Lemma topOnly_attachAnnotation value : topOnly (attachAnnotation value).
Proof.
  intros c child rest r c' Hs Ho E.
  unfold attachAnnotation, bind, currentFrame, getStack, putStack, ret in E.
  rewrite !Hs in E. simpl in E. injection E as <- <-. simpl.
  eexists. split; [reflexivity | discriminate].
Qed.

Lemma topOnly_cachePattern pattern : topOnly (cachePattern pattern).
Proof.
  intros c child rest r c' Hs Ho E. apply cachePattern_stack in E.
  rewrite E, Hs. eauto.
Qed.

Lemma emitToParents_below u below rest :
  output below <> None ->
  exists below', fst (emitToParents u (below :: rest)) = below' :: rest /\
                 output below' <> None.
Proof.
  intros Ho. simpl. destruct (output below); [| tauto].
  simpl. eexists. split; [reflexivity | discriminate].
Qed.

Lemma childTail_emitOutput : childTail emitOutput.
Proof.
  intros c child below rest r c' Hs Ho E. unfold emitOutput in E. rewrite Hs in E.
  unfold emitOutputFrames in E.
  destruct (output child) as [o |].
  - destruct (isEmptyOutput o).
    + injection E as <- <-. simpl. eauto.
    + destruct (@emitToParents_below (hoistOutput o) below rest Ho) as (below' & Hb & Hob).
      destruct (emitToParents (hoistOutput o) (below :: rest)) as [ps p].
      simpl in Hb. subst ps. injection E as <- <-. simpl. eauto.
  - injection E as <- <-. simpl. eauto.
Qed.

Lemma childTail_ret {A} (a : A) : childTail (ret a).
Proof. intros c child below rest r c' Hs Ho E. injection E as <- <-. eauto. Qed.

Lemma childTail_throw {A} e : childTail (@throw A e).
Proof. intros c child below rest r c' Hs Ho E. injection E as <- <-. eauto. Qed.

Lemma childTail_bind {A B} (m : M A) (f : A -> M B) :
  childTail m -> (forall a, childTail (f a)) -> childTail (bind m f).
Proof.
  intros Hm Hf c child below rest r c' Hs Ho E. unfold bind in E.
  destruct (m c) as [[e | a] c1] eqn:Em.
  - injection E as <- <-. eapply Hm; eauto.
  - destruct (Hm _ _ _ _ _ _ Hs Ho Em) as (child1 & below1 & Hs1 & Ho1).
    eapply Hf; eauto.
Qed.

Lemma childTail_readValid : childTail readValid.
Proof.
  intros c child below rest r c' Hs Ho E.
  unfold readValid, bind, currentFrame in E. rewrite Hs in E.
  destruct (output child); injection E as <- <-; eauto.
Qed.

(** A child frame: the sub-validation runs on a frame that owns an output,
    and the tail may chain that output to the frame of the keyword. *)
Lemma topOnly_child {A} (setup : SchemaFrame -> SchemaFrame) (sub : M unit) (t : M A) :
  output (setup createSchemaFrame) <> None ->
  topOnly sub ->
  childTail t ->
  topOnly (nestFrame (modifyFrame setup ;; sub ;; t)).
Proof.
  intros Hsetup Hsub Ht c frame rest r c' Hs Ho E.
  unfold nestFrame, bind, modifyFrame in E. simpl in E.
  destruct (sub _) as [r1 c1] eqn:E1.
  assert (Hc : exists child1, stack c1 = child1 :: stack c /\ output child1 <> None).
  { eapply Hsub; [| exact Hsetup | exact E1]. reflexivity. }
  destruct Hc as (child1 & Hs1 & Ho1).
  rewrite Hs in Hs1.
  destruct r1 as [e | []].
  - injection E as <- <-. simpl. rewrite Hs1. simpl. eauto.
  - destruct (t c1) as [r2 c2] eqn:E2.
    destruct (Ht _ _ _ _ _ _ Hs1 Ho E2) as (child2 & below2 & Hs2 & Ho2).
    injection E as <- <-. simpl. rewrite Hs2. simpl. eauto.
Qed.

End Confinement.

Ltac child_tail :=
  repeat first
    [ apply childTail_ret | apply childTail_throw | apply childTail_readValid
    | apply childTail_emitOutput | apply childTail_bind
    | match goal with
      | |- forall _, _ => intro
      | |- childTail (match ?x with _ => _ end) => destruct x
      end ].

Ltac top_only :=
  repeat first
    [ assumption
    | apply topOnly_ret | apply topOnly_throw | apply topOnly_currentFrame
    | apply topOnly_getStack | apply topOnly_parentFrames | apply topOnly_readValid
    | apply topOnly_attachError | apply topOnly_attachAnnotation
    | apply topOnly_restoreCheckpoint | apply topOnly_cachePattern
    | apply topOnly_child; [discriminate | | child_tail]
    | apply topOnly_bind
    | match goal with
      | |- forall _, _ => intro
      | |- topOnly (match ?x with _ => _ end) => destruct x
      | |- topOnly (let (_, _) := ?x in _) => destruct x
      end ].

Section KeywordConfinement.
Context `{ToolJson}.

Lemma topOnly_annotationValidate : topOnly annotationValidate.
Proof. unfold annotationValidate. top_only. Qed.

Lemma topOnly_typed_validation k v :
  In (k, v) typedValidationKeywords -> topOnly v.
Proof.
  intros Hin. unfold typedValidationKeywords in Hin. simpl in Hin.
  repeat (destruct Hin as [Hin | Hin];
          [ injection Hin as <- <-;
            cbv [multipleOfValidate maximumValidate exclusiveMaximumValidate
                 minimumValidate exclusiveMinimumValidate maxLengthValidate
                 minLengthValidate patternValidate maxItemsValidate minItemsValidate
                 uniqueItemsValidate maxContainsValidate minContainsValidate
                 maxPropertiesValidate minPropertiesValidate requiredValidate
                 dependentRequiredValidate onNumber onString onArray onObject
                 failWhen containedAnnotation];
            top_only
          | ]).
  contradiction.
Qed.

Variable recur : M unit.
Hypothesis recur_topOnly : topOnly recur.

Lemma topOnly_containsLoop n items index st :
  topOnly (containsLoop recur n items index st).
Proof.
  revert index st. induction items as [| item items IH]; intros index st; simpl.
  - top_only.
  - apply topOnly_bind; [| intro; apply IH]. unfold containsChild. top_only.
Qed.

Lemma topOnly_containsValidate : topOnly (containsValidate recur).
Proof.
  unfold containsValidate.
  apply topOnly_bind; [top_only |]. intros frame.
  destruct (instance frame) as [[| | | | items |] |]; try apply topOnly_ret.
  apply topOnly_bind; [apply topOnly_containsLoop |]. top_only.
Qed.

Lemma topOnly_unevaluatedItemsLoop n contained items index st :
  topOnly (unevaluatedItemsLoop recur n contained items index st).
Proof.
  revert index st. induction items as [| item items IH]; intros index st; simpl.
  - top_only.
  - destruct (containedHas contained index); [apply IH |].
    apply topOnly_bind; [| intro; apply IH]. top_only.
Qed.

Lemma topOnly_unevaluatedItemsValidate : topOnly (unevaluatedItemsValidate recur).
Proof.
  unfold unevaluatedItemsValidate, unevaluatedItemsApply.
  apply topOnly_bind; [| top_only].
  apply topOnly_bind; [top_only |]. intros frame.
  destruct (instance frame) as [[| | | | items |] |]; try apply topOnly_ret.
  apply topOnly_bind; [top_only |]. intros parents.
  destruct (scanItemAnnotations _ _ _) as [[startIndex contained] |]; [| top_only].
  apply topOnly_bind; [apply topOnly_unevaluatedItemsLoop | top_only].
Qed.

Lemma topOnly_reportProperties singular plural annotate st :
  topOnly (reportProperties singular plural annotate st).
Proof. unfold reportProperties. top_only. Qed.

Lemma topOnly_nested_throw {A} (e : Error) : topOnly (nestFrame (@throw A e)).
Proof.
  intros c child rest r c' Hs Ho E. unfold nestFrame, throw in E. cbn in E.
  injection E as <- <-. exists child. cbn. now rewrite Hs.
Qed.

Lemma topOnly_propertiesLoop schemas entries st :
  topOnly (propertiesLoop recur schemas entries st).
Proof.
  revert st. induction entries as [| [k value] entries IH]; intros st; simpl.
  - top_only.
  - destruct (getMember k schemas); [| apply topOnly_nested_throw | apply IH].
    apply topOnly_bind; [| intro; apply IH]. unfold childFrame. top_only.
Qed.

Lemma topOnly_propertiesValidate : topOnly (propertiesValidate recur).
Proof.
  unfold propertiesValidate.
  apply topOnly_bind; [top_only |]. intros frame.
  destruct (instance frame) as [[| | | | | entries] |]; try apply topOnly_ret.
  apply topOnly_bind; [apply topOnly_propertiesLoop |].
  intro. apply topOnly_reportProperties.
Qed.

Lemma topOnly_patternEntriesLoop pattern subschema test entries st :
  topOnly (patternEntriesLoop recur pattern subschema test entries st).
Proof.
  revert st. induction entries as [| [k value] entries IH]; intros st; simpl.
  - top_only.
  - destruct (negb (test k)); [apply IH |].
    apply topOnly_bind; [| intro; apply IH]. unfold childFrame. top_only.
Qed.

Lemma topOnly_patternPropertiesLoop patterns entries st :
  topOnly (patternPropertiesLoop recur patterns entries st).
Proof.
  revert st. induction patterns as [| [pattern subschema] patterns IH]; intros st; simpl.
  - top_only.
  - apply topOnly_bind; [top_only |]. intros test.
    apply topOnly_bind; [apply topOnly_patternEntriesLoop | intro; apply IH].
Qed.

Lemma topOnly_patternPropertiesValidate : topOnly (patternPropertiesValidate recur).
Proof.
  unfold patternPropertiesValidate.
  apply topOnly_bind; [top_only |]. intros frame.
  destruct (instance frame) as [[| | | | | entries] |]; try apply topOnly_ret.
  apply topOnly_bind; [apply topOnly_patternPropertiesLoop |].
  intro. apply topOnly_reportProperties.
Qed.

Lemma topOnly_additionalPropertiesLoop n names entries st :
  topOnly (additionalPropertiesLoop recur n names entries st).
Proof.
  revert st. induction entries as [| [k value] entries IH]; intros st; simpl.
  - top_only.
  - destruct (includes k names); [apply IH |].
    apply topOnly_bind; [| intro; apply IH]. top_only.
Qed.

Lemma topOnly_additionalPropertiesValidate : topOnly (additionalPropertiesValidate recur).
Proof.
  unfold additionalPropertiesValidate.
  apply topOnly_bind; [top_only |]. intros frame.
  destruct (instance frame) as [[| | | | | entries] |]; try apply topOnly_ret.
  apply topOnly_bind; [top_only |]. intros parents.
  apply topOnly_bind; [apply topOnly_additionalPropertiesLoop |].
  intro. apply topOnly_reportProperties.
Qed.

Lemma topOnly_propertyNamesLoop n entries st :
  topOnly (propertyNamesLoop recur n entries st).
Proof.
  revert st. induction entries as [| [k value] entries IH]; intros st; simpl.
  - top_only.
  - apply topOnly_bind; [| intro; apply IH]. top_only.
Qed.

Lemma topOnly_propertyNamesValidate : topOnly (propertyNamesValidate recur).
Proof.
  unfold propertyNamesValidate.
  apply topOnly_bind; [top_only |]. intros frame.
  destruct (instance frame) as [[| | | | | entries] |]; try apply topOnly_ret.
  apply topOnly_bind; [apply topOnly_propertyNamesLoop |].
  intro. apply topOnly_reportProperties.
Qed.

End KeywordConfinement.

Lemma lookupString_In {A} k (l : list (string * A)) a :
  lookupString k l = Some a -> In (k, a) l.
Proof.
  induction l as [| [k' a'] l IH]; simpl; [discriminate |].
  destruct (String.eqb k' k) eqn:E.
  - intros [= <-]. apply String.eqb_eq in E. subst. now left.
  - intros Hl. right. now apply IH.
Qed.

Section PipelineConfinement.
Context `{ToolJson}.
Variable dialects : list Dialect.
Hypothesis dialects_topOnly : keywordsTopOnly dialects.

Lemma topOnly_keywordOf (r : SchemaResource) k recur :
  topOnly recur -> topOnly (validate (keywordOf (resourceDialect dialects r) k) recur).
Proof.
  intros Hr. unfold keywordOf, resourceDialect.
  destruct (dialect r) as [uri |]; [| apply topOnly_annotationValidate].
  unfold getDialect. destruct (find _ dialects) as [d |] eqn:Ed;
    [| apply topOnly_annotationValidate].
  apply find_some in Ed. destruct Ed as [Hin _].
  destruct (lookupString k (keywords d)) as [keyword |] eqn:Ek;
    [| apply topOnly_annotationValidate].
  eapply dialects_topOnly; eauto.
Qed.

Lemma topOnly_validateKeywords recur (r : SchemaResource) fields inst ks :
  topOnly recur ->
  topOnly (validateKeywords recur (resourceDialect dialects r) fields inst ks).
Proof.
  intros Hr. induction ks as [| keyword ks IH]; simpl; [apply topOnly_ret |].
  apply topOnly_bind; [| intro; exact IH].
  unfold validateKeyword. apply topOnly_child; [discriminate | | child_tail].
  now apply topOnly_keywordOf.
Qed.

(** X2: the validation pipeline, run on a frame that owns an output, leaves
    the frames below that frame untouched, at every depth of recursion and
    whether it returns or throws. *)
Theorem validateSchemaResource_topOnly (fuel : nat) :
  topOnly (validateSchemaResource dialects fuel).
Proof.
  induction fuel as [| fuel IH]; simpl; [apply topOnly_throw |].
  apply topOnly_bind; [apply topOnly_currentFrame |]. intros frame.
  destruct (node frame) as [[| [|] | | | | fields] |]; try top_only.
  intros c child rest r c' Hs Ho E.
  destruct (getResource c (JObj fields)) as [res |] eqn:Eg;
    [| injection E as <- <-; eauto].
  destruct (isSchemaResource (Some res)); [| injection E as <- <-; eauto].
  assert (Hb : topOnly
                 ((if isUndefined (baseUri frame)
                   then modifyFrame (setBaseUri (resourceBaseUri res))
                   else ret tt) ;;
                  validateKeywords (validateSchemaResource dialects fuel)
                    (resourceDialect dialects res) fields (instance frame)
                    match keys res with Some ks => ks | None => [] end)).
  { apply topOnly_bind.
    - destruct (isUndefined (baseUri frame)); [| apply topOnly_ret].
      apply topOnly_modifyFrame. intros f Hf. exact Hf.
    - intro. now apply topOnly_validateKeywords. }
  exact (Hb _ _ _ _ _ Hs Ho E).
Qed.

End PipelineConfinement.

(** The keywords of the modelled dialect keep to their own frames. *)
Lemma dialect202012_topOnly `{ToolJson} : keywordsTopOnly [dialect202012].
Proof.
  intros d k keyword [<- | []] Hl recur Hr. apply lookupString_In in Hl.
  unfold dialect202012 in Hl. cbn [keywords app] in Hl.
  destruct Hl as [Hl | [Hl | [Hl | [Hl | [Hl | [Hl | Hl]]]]]].
  - injection Hl as _ <-. now apply topOnly_containsValidate.
  - injection Hl as _ <-. now apply topOnly_propertiesValidate.
  - injection Hl as _ <-. now apply topOnly_patternPropertiesValidate.
  - injection Hl as _ <-. now apply topOnly_additionalPropertiesValidate.
  - injection Hl as _ <-. now apply topOnly_propertyNamesValidate.
  - injection Hl as _ <-. now apply topOnly_unevaluatedItemsValidate.
  - unfold validationKeywords, keywordWith in Hl. simpl in Hl.
    repeat (destruct Hl as [Hl | Hl];
            [ injection Hl as <- <-; cbn [validate];
              eapply topOnly_typed_validation; simpl; auto 20
            | ]).
    contradiction.
Qed.

Lemma validateSchemaResource_topOnly_witness :
  topOnly (validateSchemaResource (H := plainHost) plainDialects 3).
Proof.
  apply (@validateSchemaResource_topOnly plainHost plainDialects
           (dialect202012_topOnly (H := plainHost)) 3).
Defined.

(** ** Parse failures *)

Lemma jsonEqb_refl : forall a, jsonEqb a a = true.
Proof.
  fix IH 1. intros [| b | z | s | l | l]; simpl.
  - reflexivity.
  - apply Bool.eqb_reflx.
  - apply Z.eqb_refl.
  - apply String.eqb_refl.
  - induction l as [| x l IHl]; [reflexivity |]. now rewrite IH, IHl.
  - induction l as [| [k x] l IHl]; [reflexivity |].
    now rewrite String.eqb_refl, IH, IHl.
Qed.

Lemma lookupNode_updateNode {A} (n : JSON) (g : A -> A) (l : list (JSON * A)) :
  lookupNode n (updateNode n g l) = option_map g (lookupNode n l).
Proof.
  induction l as [| [m a] l IH]; simpl; [reflexivity |].
  destruct (jsonEqb m n) eqn:E; simpl; rewrite E; [reflexivity | exact IH].
Qed.

Lemma jsonEqb_eq : forall a b, jsonEqb a b = true -> a = b.
Proof.
  fix IH 1. intros [| x | x | x | xs | xs] [| y | y | y | ys | ys]; simpl; try discriminate.
  - reflexivity.
  - intros E. apply Bool.eqb_prop in E. now subst.
  - intros E. apply Z.eqb_eq in E. now subst.
  - intros E. apply String.eqb_eq in E. now subst.
  - revert ys. induction xs as [| x xs IHxs]; intros [| y ys]; try discriminate;
      [reflexivity |].
    intros E. apply andb_prop in E. destruct E as [E1 E2].
    apply IH in E1. apply IHxs in E2. injection E2 as ->. now subst.
  - revert ys. induction xs as [| [k x] xs IHxs]; intros [| [k' y] ys]; try discriminate;
      [reflexivity |].
    intros E. apply andb_prop in E. destruct E as [E12 E3].
    apply andb_prop in E12. destruct E12 as [E1 E2].
    apply String.eqb_eq in E1. apply IH in E2. apply IHxs in E3. injection E3 as ->.
    now subst.
Qed.

Lemma lookupNode_updateNode_other {A} (m n : JSON) (g : A -> A) (l : list (JSON * A)) :
  m <> n -> lookupNode n (updateNode m g l) = lookupNode n l.
Proof.
  intros Hne. induction l as [| [x a] l IH]; simpl; [reflexivity |].
  destruct (jsonEqb x m) eqn:Em; simpl.
  - destruct (jsonEqb x n) eqn:En; [| reflexivity].
    apply jsonEqb_eq in Em, En. congruence.
  - destruct (jsonEqb x n); [reflexivity | exact IH].
Qed.

Lemma keeps_ret {A} n (a : A) : keepsResource n (ret a).
Proof. intros c r c' res Hg _ E. injection E as <- <-. exact Hg. Qed.

Lemma keeps_throw {A} n e : keepsResource n (@throw A e).
Proof. intros c r c' res Hg _ E. injection E as <- <-. exact Hg. Qed.

Lemma keeps_bind {A B} n (m : M A) (f : A -> M B) :
  keepsResource n m -> (forall a, keepsResource n (f a)) -> keepsResource n (bind m f).
Proof.
  intros Hm Hf c r c' res Hg Hc E. unfold bind in E.
  destruct (m c) as [[e | a] c1] eqn:Em.
  - injection E as <- <-. eapply Hm; eauto.
  - eapply Hf; [| exact Hc | exact E]. eapply Hm; eauto.
Qed.

Lemma keeps_currentFrame n : keepsResource n currentFrame.
Proof.
  intros c r c' res Hg _ E. unfold currentFrame in E.
  destruct (stack c); injection E as <- <-; exact Hg.
Qed.

Lemma keeps_frameNode n : keepsResource n frameNode.
Proof.
  unfold frameNode. apply keeps_bind; [apply keeps_currentFrame |].
  intros a. apply keeps_ret.
Qed.

Lemma keeps_modifyFrame n g : keepsResource n (modifyFrame g).
Proof.
  intros c r c' res Hg _ E. unfold modifyFrame in E.
  destruct (stack c); injection E as <- <-; exact Hg.
Qed.

Lemma keeps_nestFrame {A} n (body : M A) :
  keepsResource n body -> keepsResource n (nestFrame body).
Proof.
  intros Hb c r c' res Hg Hc E. unfold nestFrame in E.
  destruct (body _) as [r1 c1] eqn:Eb. injection E as <- <-.
  change (getResource c1 n = Some res). eapply Hb; [| exact Hc | exact Eb]. exact Hg.
Qed.

Lemma keeps_liftResult {A} n (r : Error + A) : keepsResource n (liftResult r).
Proof. destruct r; [apply keeps_throw | apply keeps_ret]. Qed.

Lemma keeps_cached `{ToolJson} n pattern :
  keepsResource n (fun c => match cachePattern pattern c with
                            | (inr _, c') => (inr tt, c')
                            | (inl _, c') => (inr tt, c')
                            end).
Proof.
  intros c r c' res Hg _ E. unfold cachePattern in E.
  destruct (compilePattern pattern); [destruct (includes pattern (patternCache c)) |];
    injection E as <- <-; exact Hg.
Qed.

Lemma keeps_setResource n m :
  m <> n -> keepsResource n (setResource (createResource m)).
Proof.
  intros Hne c r c' res Hg _ E. unfold setResource in E. injection E as <- <-.
  unfold getResource in *. cbn.
  destruct (jsonEqb m n) eqn:Em; [apply jsonEqb_eq in Em; contradiction | exact Hg].
Qed.

Lemma keeps_updateResource n m g :
  m <> n -> keepsResource n (updateResource m g).
Proof.
  intros Hne c r c' res Hg _ E. unfold updateResource in E. injection E as <- <-.
  unfold getResource in *. cbn. now rewrite lookupNode_updateNode_other.
Qed.

Ltac keeps :=
  repeat first
    [ assumption
    | apply keeps_ret | apply keeps_throw | apply keeps_currentFrame
    | apply keeps_frameNode | apply keeps_modifyFrame | apply keeps_liftResult
    | apply keeps_cached
    | apply keeps_setResource; assumption
    | apply keeps_updateResource; assumption
    | apply keeps_nestFrame
    | apply keeps_bind
    | match goal with
      | |- forall _, _ => intro
      | |- keepsResource _ (match ?x with _ => _ end) => destruct x
      end ].

Section ParseKeeps.
Context `{ToolJson}.
Variable dialects : list Dialect.
Variable n : JSON.
Hypothesis parsers_keep : parsersKeepResource dialects n.

Lemma keeps_determineDialect m fields :
  m <> n -> keepsResource n (determineDialect dialects m fields).
Proof.
  intros Hne. unfold determineDialect.
  destruct (getField "$schema" fields) as [[| | | uri | |] |]; keeps.
  intros c r c' res Hg Hc E.
  assert (Hk : keepsResource n
                 (updateResource m (setDialect (defaultDialect c)) ;;
                  match defaultDialect c with
                  | Some uri =>
                      match getDialect dialects uri with
                      | Some d => ret d
                      | None => throw (ValidationError "No default dialect")
                      end
                  | None => throw (ValidationError "No default dialect")
                  end)) by keeps.
  exact (Hk c r c' res Hg Hc E).
Qed.

Lemma determineDialect_In m fields c d c' :
  determineDialect dialects m fields c = (inr d, c') -> In d dialects.
Proof.
  unfold determineDialect.
  destruct (getField "$schema" fields) as [[| | | uri | |] |]; try discriminate.
  - destruct (negb (isValidUri uri)); [discriminate |].
    unfold bind, updateResource. destruct (getDialect dialects uri) as [d' |] eqn:Ed;
      [| discriminate].
    intros E. injection E as <- _. unfold getDialect in Ed. now apply find_some in Ed.
  - unfold bind, updateResource. destruct (defaultDialect c) as [uri |]; [| discriminate].
    destruct (getDialect dialects uri) as [d' |] eqn:Ed; [| discriminate].
    intros E. injection E as <- _. unfold getDialect in Ed. now apply find_some in Ed.
Qed.

Lemma keeps_prepareResource m fields resource :
  m <> n -> keepsResource n (prepareResource dialects m fields resource).
Proof.
  intros Hne. unfold prepareResource.
  apply keeps_bind; [destruct (isUndefined resource); keeps |]. intros _.
  apply keeps_bind; [now apply keeps_determineDialect |]. keeps.
Qed.

Lemma prepareResource_In m fields resource c d sorted c' :
  prepareResource dialects m fields resource c = (inr (d, sorted), c') -> In d dialects.
Proof.
  unfold prepareResource. unfold bind at 1.
  destruct ((if isUndefined resource then setResource (createResource m) else ret tt) c)
    as [[e | []] ca]; [discriminate |].
  unfold bind at 1. destruct (determineDialect dialects m fields ca) as [[e | d'] cb] eqn:Eb;
    [discriminate |].
  apply determineDialect_In in Eb.
  unfold bind at 1. destruct (sortCollected _) as [e | sorted']; cbn; [discriminate |].
  unfold bind, updateResource, ret. intros E. injection E as <- _ _. exact Eb.
Qed.

Lemma keeps_parseKeyword recur d fields k :
  In d dialects -> keepsResource n recur ->
  keepsResource n (parseKeyword recur d fields k).
Proof.
  intros Hd Hr. unfold parseKeyword. apply keeps_nestFrame.
  apply keeps_bind; [apply keeps_modifyFrame |]. intros _.
  unfold keywordOf. destruct (lookupString k (keywords d)) as [keyword |] eqn:El.
  - now apply (parsers_keep d k).
  - cbn. apply keeps_ret.
Qed.

Lemma keeps_parseKeywords recur d fields ks :
  In d dialects -> keepsResource n recur ->
  keepsResource n (parseKeywords recur d fields ks).
Proof.
  intros Hd Hr. induction ks as [| k ks IH]; cbn [parseKeywords]; [apply keeps_ret |].
  apply keeps_bind; [now apply keeps_parseKeyword | intros _; exact IH].
Qed.

(** The parse of a schema keeps the complete resources of the other nodes,
    and returns at once on a node whose resource is complete. *)
Lemma keeps_parseSchemaResource fuel : keepsResource n (parseSchemaResource dialects fuel).
Proof.
  induction fuel as [| fuel IH]; cbn [parseSchemaResource]; [apply keeps_throw |].
  apply keeps_bind; [apply keeps_currentFrame |]. intros frame.
  destruct (node frame) as [[| b | z | s | l | fields] |]; try apply keeps_throw;
    [apply keeps_ret |].
  intros c r c' res Hg Hc E.
  destruct (isSchemaResource (getResource c (JObj fields))) eqn:Ei.
  - injection E as <- <-. exact Hg.
  - assert (Hne : JObj fields <> n).
    { intros Heq. rewrite Heq, Hg, Hc in Ei. discriminate. }
    unfold bind at 1 in E.
    destruct (prepareResource dialects (JObj fields) fields
                (getResource c (JObj fields)) c) as [[e | [d sorted]] c1] eqn:Ep.
    + injection E as <- <-. eapply keeps_prepareResource; eauto.
    + assert (Hg1 : getResource c1 n = Some res).
      { eapply keeps_prepareResource; eauto. }
      apply prepareResource_In in Ep. cbn [fst snd] in E.
      unfold bind at 1 in E.
      destruct (parseKeywords _ d fields sorted c1) as [[e | []] c2] eqn:Ek.
      * injection E as <- <-.
        eapply (@keeps_parseKeywords _ d fields sorted Ep); [| exact Hg1 | exact Hc | exact Ek].
        apply keeps_bind; [exact IH | intros; apply keeps_ret].
      * injection E as <- <-.
        eapply (@keeps_parseKeywords _ d fields sorted Ep); [| exact Hg1 | exact Hc | exact Ek].
        apply keeps_bind; [exact IH | intros; apply keeps_ret].
Qed.

End ParseKeeps.

Section DialectParsers.
Context `{ToolJson}.
Variable n : JSON.

Lemma keeps_parseMembers recur members :
  keepsResource n recur -> keepsResource n (parseMembers recur members).
Proof.
  intros Hr. induction members as [| [k s] members IH]; cbn [parseMembers]; keeps.
Qed.

Lemma keeps_parsePatternMembers recur members :
  keepsResource n recur -> keepsResource n (parsePatternMembers recur members).
Proof.
  intros Hr. induction members as [| [k s] members IH]; cbn [parsePatternMembers]; keeps.
Qed.

Lemma dialect202012_parsers_keep : parsersKeepResource [dialect202012] n.
Proof.
  intros d k keyword [<- | []] Hl recur Hr. apply lookupString_In in Hl.
  unfold dialect202012 in Hl. cbn [keywords app] in Hl.
  destruct Hl as [Hl | [Hl | [Hl | [Hl | [Hl | [Hl | Hl]]]]]];
    try (injection Hl as _ <-; cbn [parse]; unfold parseSubschema; exact Hr).
  - injection Hl as _ <-. cbn [parse]. unfold parseProperties, parseError.
    apply keeps_bind; [apply keeps_frameNode |]. intros [[| | | | |members] |]; keeps.
    now apply keeps_parseMembers.
  - injection Hl as _ <-. cbn [parse]. unfold parsePatternProperties, parseError.
    apply keeps_bind; [apply keeps_frameNode |]. intros [[| | | | |members] |]; keeps.
    now apply keeps_parsePatternMembers.
  - unfold validationKeywords, keywordWith in Hl. simpl in Hl.
    repeat (destruct Hl as [Hl | Hl];
            [ injection Hl as <- <-; cbn [parse];
              cbv [parseMultipleOf parseNumber parseNonNegative parsePattern parseBoolean
                   parseRequired parseDependentRequired parseError];
              keeps
            | ]).
    contradiction.
Qed.

End DialectParsers.

Section ParseFacts.
Context `{ToolJson}.
Variable dialects : list Dialect.

Lemma parseKeywords_fails_at recur d fields pre k post c c1 e c2 :
  parseKeywords recur d fields pre c = (inr tt, c1) ->
  parseKeyword recur d fields (key k) c1 = (inl e, c2) ->
  parseKeywords recur d fields (pre ++ k :: post) c = (inl e, c2).
Proof.
  revert c. induction pre as [| p pre IH]; intros c Hpre Hk; simpl in *.
  - injection Hpre as <-. unfold bind. now rewrite Hk.
  - unfold bind in *. destruct (parseKeyword recur d fields (key p) c) as [[e' | []] c'].
    + discriminate.
    + now apply IH.
Qed.

Lemma determineDialect_sets n fields c d c' :
  getResource c n <> None ->
  determineDialect dialects n fields c = (inr d, c') ->
  exists r, getResource c' n = Some r /\ dialect r <> None.
Proof.
  intros Hn. unfold determineDialect.
  destruct (getResource c n) as [r0 |] eqn:Eg; [| tauto]. unfold getResource in *.
  destruct (getField "$schema" fields) as [[| | | uri | |] |]; try discriminate.
  - destruct (negb (isValidUri uri)); [discriminate |].
    unfold bind, updateResource. destruct (getDialect dialects uri) as [d' |];
      [| discriminate].
    intros E. injection E as _ <-. cbn. rewrite lookupNode_updateNode, Eg. cbn.
    eexists. split; [reflexivity |]. discriminate.
  - unfold bind, updateResource. destruct (defaultDialect c) as [uri |]; [| discriminate].
    destruct (getDialect dialects uri) as [d' |]; [| discriminate].
    intros E. injection E as _ <-. cbn. rewrite lookupNode_updateNode, Eg. cbn.
    eexists. split; [reflexivity |]. discriminate.
Qed.

Lemma prepareResource_complete n fields c d sorted c0 :
  prepareResource dialects n fields (getResource c n) c = (inr (d, sorted), c0) ->
  exists r, getResource c0 n = Some r /\ isSchemaResource (Some r) = true /\
            keys r = Some sorted.
Proof.
  unfold prepareResource. unfold bind at 1.
  destruct ((if isUndefined (getResource c n) then setResource (createResource n) else ret tt) c)
    as [[e | []] ca] eqn:Ea; [discriminate |].
  assert (Ha : getResource ca n <> None).
  { destruct (getResource c n) eqn:Eg; simpl in Ea; injection Ea as <-.
    - rewrite Eg. discriminate.
    - unfold getResource. simpl. now rewrite jsonEqb_refl. }
  unfold bind at 1. destruct (determineDialect dialects n fields ca) as [[e | d'] cb] eqn:Eb;
    [discriminate |].
  eapply determineDialect_sets in Eb; [| exact Ha]. destruct Eb as (r & Er & Hd).
  unfold bind at 1. destruct (sortCollected _) as [e | sorted']; simpl; [discriminate |].
  unfold bind, updateResource, ret. intros E. injection E as <- <- <-.
  unfold getResource in *. simpl. rewrite lookupNode_updateNode, Er. cbn.
  eexists. split; [reflexivity |]. split; [| reflexivity].
  cbn. destruct (dialect r); [reflexivity | tauto].
Qed.


End ParseFacts.



(** ** Reading annotations back (output.ts) *)

Lemma getAnnotationsUnit_collects keywordSuffix :
  forall o acc, exists found,
    getAnnotationsUnit keywordSuffix o acc = acc ++ found /\
    Forall (annotatedAt keywordSuffix) found /\
    (valid o = false -> found = []).
Proof.
  fix IH 1. intros [v kl akl il e ann errs anns] acc.
  cbn [getAnnotationsUnit]. destruct v; cbn [negb].
  2: { exists []. rewrite app_nil_r. repeat split; auto. }
  match goal with
  | |- context [if ?b then acc ++ [?o] else acc] =>
      assert (H1 : exists f1, (if b then acc ++ [o] else acc) = acc ++ f1 /\
                              Forall (annotatedAt keywordSuffix) f1)
  end.
  { destruct ann as [a |]; cbn [isUndefined negb andb].
    - destruct kl as [l |].
      + destruct (endsWith l keywordSuffix) eqn:El.
        * eexists. split; [reflexivity |]. constructor; [| constructor].
          repeat split; cbn; [discriminate |]. now exists l.
        * exists []. now rewrite app_nil_r.
      + exists []. now rewrite app_nil_r.
    - exists []. now rewrite app_nil_r. }
  destruct H1 as [f1 [E1 P1]]. rewrite E1. clear E1.
  destruct anns as [units |].
  - match goal with
    | |- context [?f units (acc ++ f1)] => set (visit := f)
    end.
    assert (Hv : forall a, exists f, visit units a = a ++ f /\
                                     Forall (annotatedAt keywordSuffix) f).
    { induction units as [| x units IHu]; intros a.
      - exists []. cbn. now rewrite app_nil_r.
      - cbn. destruct (isUndefined il || optStringEqb il (instanceLocation_ x)).
        + destruct (IH x a) as [g1 [G1 [Q1 _]]]. rewrite G1.
          destruct (IHu (a ++ g1)) as [g2 [G2 Q2]]. exists (g1 ++ g2).
          fold visit. rewrite G2, app_assoc. split; [reflexivity |].
          apply Forall_app. now split.
        + apply IHu. }
    destruct (Hv (acc ++ f1)) as [f2 [E2 P2]]. exists (f1 ++ f2).
    rewrite E2, app_assoc. split; [reflexivity |]. split; [| discriminate].
    apply Forall_app. now split.
  - exists f1. split; [reflexivity |]. split; [exact P1 | discriminate].
Qed.

Lemma getAnnotationUnit_found location :
  forall o u,
    getAnnotationUnit location o = Some u ->
    keywordLocation u = Some location /\ annotation u <> None.
Proof.
  fix IH 1. intros [v kl akl il e ann errs anns] u.
  cbn [getAnnotationUnit].
  destruct (optStringEqb kl (Some location) && negb (isUndefined ann)) eqn:Eb.
  - intros [= <-]. apply andb_prop in Eb. destruct Eb as [Ek Ea]. cbn. split.
    + destruct kl as [l |]; [| discriminate]. cbn in Ek. apply String.eqb_eq in Ek.
      now subst.
    + destruct ann; [discriminate | discriminate].
  - destruct anns as [units |]; [| discriminate].
    destruct (match kl with None => true | Some l => startsWith location l end);
      [| discriminate].
    induction units as [| x units IHu]; [discriminate |].
    destruct (getAnnotationUnit location x) as [s |] eqn:Ex.
    + intros [= <-]. exact (IH x s Ex).
    + exact IHu.
Qed.

(** X12: [getAnnotations] only appends to the list it is given, and what
    it appends are valid output units that carry an annotation and whose
    keyword location ends with the suffix; from an invalid output unit it
    appends nothing. *)
Theorem getAnnotations_collects_valid_annotations (o : option OutputUnit)
    (keywordSuffix : string) (acc : list OutputUnit) :
  exists found,
    getAnnotations o keywordSuffix acc = acc ++ found /\
    Forall (annotatedAt keywordSuffix) found /\
    (forall u, o = Some u -> valid u = false -> found = []).
Proof.
  destruct o as [u |]; cbn [getAnnotations].
  - destruct (getAnnotationsUnit_collects keywordSuffix u acc) as [found [E [P Hv]]].
    exists found. split; [exact E |]. split; [exact P |].
    intros u' [= <-]. exact Hv.
  - exists []. rewrite app_nil_r. split; [reflexivity |]. split; [constructor |].
    discriminate.
Qed.

(** X13: the output unit that [getChildAnnotation] finds carries an
    annotation and lies at the location of the keyword under the current
    schema: the pointer of the frames, a slash and the escaped keyword. *)
Theorem getChildAnnotation_located (frames : list SchemaFrame) (keyword : string)
    (u : OutputUnit) :
  getChildAnnotation frames keyword = Some u ->
  keywordLocation u = Some (currentPointer frames ++ "/" ++ escapePointer keyword)%string /\
  annotation u <> None.
Proof.
  destruct frames as [| frame parents]; [discriminate |].
  unfold getChildAnnotation, getAnnotation.
  destruct (output frame) as [o |]; [| discriminate].
  apply getAnnotationUnit_found.
Qed.

Lemma getChildAnnotation_located_witness :
  keywordLocation (siblingUnit "prefixItems" (JNum 2)) =
    Some (currentPointer
            (tl (keywordStackAfter "prefixItems" (JNum 2) "items" (JBool true) (JArr [])))
          ++ "/" ++ escapePointer "prefixItems")%string /\
  annotation (siblingUnit "prefixItems" (JNum 2)) <> None.
Proof.
  apply (@getChildAnnotation_located
           (tl (keywordStackAfter "prefixItems" (JNum 2) "items" (JBool true) (JArr [])))
           "prefixItems" (siblingUnit "prefixItems" (JNum 2))).
  vm_compute. reflexivity.
Defined.

(** ** attachError, attachAnnotation and checkpoints (output.ts) *)

Section AttachFacts.
Context `{ToolJson}.

Lemma orElse_orElse {A} (o : option A) d d' : orElse (orElse o d) d' = orElse o d.
Proof. now destruct o. Qed.

Lemma initOutputUnit_idempotent frames frames' o :
  initOutputUnit frames' (initOutputUnit frames o) = initOutputUnit frames o.
Proof.
  unfold initOutputUnit. cbn. now rewrite !orElse_orElse.
Qed.

Lemma attachError_run message c frame parents :
  stack c = frame :: parents ->
  attachError message c =
    (inr (setError (Some message)
            (setValid false (initOutputUnit (frame :: parents) (frameOutput (frame :: parents))))),
     setStack
       (setOutput
          (Some (setError (Some message)
                   (setValid false
                      (initOutputUnit (frame :: parents) (frameOutput (frame :: parents))))))
          frame :: parents) c).
Proof.
  intros Hs. unfold attachError, bind, currentFrame, getStack, putStack, ret.
  rewrite Hs. cbv beta iota. rewrite Hs. reflexivity.
Qed.

Lemma attachAnnotation_run value c frame parents :
  stack c = frame :: parents ->
  attachAnnotation value c =
    (inr (setAnnotation value
            (initOutputUnit (frame :: parents) (frameOutput (frame :: parents)))),
     setStack
       (setOutput
          (Some (setAnnotation value
                   (initOutputUnit (frame :: parents) (frameOutput (frame :: parents)))))
          frame :: parents) c).
Proof.
  intros Hs. unfold attachAnnotation, bind, currentFrame, getStack, putStack, ret.
  rewrite Hs. cbv beta iota. rewrite Hs. reflexivity.
Qed.

Lemma attachError_empty message c :
  stack c = [] -> attachError message c = (inl (ProcessingError "no current frame"), c).
Proof. intros Hs. unfold attachError, bind, currentFrame. now rewrite Hs. Qed.

Lemma attachAnnotation_empty value c :
  stack c = [] -> attachAnnotation value c = (inl (ProcessingError "no current frame"), c).
Proof. intros Hs. unfold attachAnnotation, bind, currentFrame. now rewrite Hs. Qed.

(** X15: attaching an error and attaching an annotation to the current
    frame leave the same state in either order, also when there is no
    current frame. *)
Theorem attachError_attachAnnotation_commute (message : string) (value : option JSON)
    (c : Context) :
  snd ((attachError message ;; attachAnnotation value) c) =
  snd ((attachAnnotation value ;; attachError message) c).
Proof.
  destruct (stack c) as [| frame parents] eqn:Hs.
  - unfold bind. now rewrite (attachError_empty message c Hs), (attachAnnotation_empty value c Hs).
  - unfold bind. rewrite (attachError_run message c Hs), (attachAnnotation_run value c Hs).
    erewrite (@attachAnnotation_run value (setStack _ c)) by reflexivity.
    erewrite (@attachError_run message (setStack _ c)) by reflexivity.
    cbn [snd]. unfold frameOutput. cbn [output setOutput].
    rewrite !setStack_setStack. f_equal. f_equal.
    unfold setOutput. cbn. f_equal. f_equal.
    unfold initOutputUnit. cbn. now rewrite !orElse_orElse.
Qed.

(** X14: restoring a checkpoint taken before [attachError] undoes the
    error: the output has the validity, the error and the nested errors it
    had, and keeps only the locations that [attachError] filled in. *)
Theorem restoreCheckpoint_undoes_attachError (message : string) (c : Context)
    (frame : SchemaFrame) (parents : list SchemaFrame) (o : OutputUnit) :
  stack c = frame :: parents ->
  output frame = Some o ->
  (attachError message ;; restoreCheckpoint (saveCheckpoint (output frame))) c =
    (inr tt,
     setStack (setOutput (Some (initOutputUnit (frame :: parents) o)) frame :: parents) c).
Proof.
  intros Hs Ho. unfold bind. rewrite (attachError_run message c Hs).
  unfold frameOutput. rewrite Ho. cbn [saveCheckpoint].
  unfold restoreCheckpoint, modifyFrame. cbn. reflexivity.
Qed.
End AttachFacts.

Lemma restoreCheckpoint_undoes_attachError_witness :
  (attachError (H := plainHost) "not valid" ;;
   restoreCheckpoint (saveCheckpoint (Some newOutput)))
    (withStack (keywordStack "not" (JBool true) JNull)) =
    (inr tt,
     setStack
       (setOutput
          (Some (initOutputUnit (H := plainHost) (keywordStack "not" (JBool true) JNull)
                   newOutput))
          (hd createSchemaFrame (keywordStack "not" (JBool true) JNull))
        :: tl (keywordStack "not" (JBool true) JNull))
       (withStack (keywordStack "not" (JBool true) JNull))).
Proof.
  exact (@restoreCheckpoint_undoes_attachError plainHost "not valid"
           (withStack (keywordStack "not" (JBool true) JNull)) _ _ newOutput
           eq_refl eq_refl).
Defined.

(** ** Checkpoints and the boolean validation *)

Lemma readValid_run c child rest o :
  stack c = child :: rest -> output child = Some o -> readValid c = (inr (valid o), c).
Proof.
  intros Hs Ho. unfold readValid, bind, currentFrame. now rewrite Hs, Ho.
Qed.

Lemma restoreCheckpoint_run o c frame rest o1 :
  stack c = frame :: rest ->
  output frame = Some o1 ->
  restoreCheckpoint (saveCheckpoint (Some o)) c =
    (inr tt,
     setStack (setOutput (Some (restoreOutput (saveCheckpoint (Some o)) o1)) frame :: rest) c).
Proof.
  intros Hs Ho. unfold restoreCheckpoint, modifyFrame. cbn. now rewrite Hs, Ho.
Qed.

Lemma topOnly_booleanSchemaValidate `{ToolJson} : topOnly booleanSchemaValidate.
Proof. unfold booleanSchemaValidate. top_only. Qed.

(** ** Keywords over a sub-validation with a verdict *)

Lemma registry_setStack s c : registry (setStack s c) = registry c.
Proof. reflexivity. Qed.

Lemma reportsOn_decidesOn recur accepts c0 s :
  reportsOn recur accepts c0 s -> decidesOn recur accepts c0 s.
Proof.
  intros Hr c child below Hreg Hs Hn Ho.
  destruct (Hr c child below Hreg Hs Hn Ho) as (c' & child' & o' & E & R & S & O & V & _).
  eauto 10.
Qed.

Section Verdicts.
Context `{ToolJson}.
Variable recur : M unit.
Variable accepts : JSON -> option JSON -> bool.
Variable c0 : Context.

(** A child frame whose output is not emitted. *)
Lemma quiet_child_decided {A} (setup : SchemaFrame -> SchemaFrame) (g : bool -> A)
    c subschema :
  registry c = registry c0 ->
  node (setup createSchemaFrame) = Some subschema ->
  output (setup createSchemaFrame) = Some newOutput ->
  decidesOn recur accepts c0 subschema ->
  exists c1,
    nestFrame (modifyFrame setup ;; recur ;; v <- readValid ;; ret (g v)) c =
      (inr (g (accepts subschema (instance (setup createSchemaFrame)))), c1) /\
    registry c1 = registry c0 /\ stack c1 = stack c.
Proof.
  intros Hreg Hn Ho Hd.
  destruct (Hd (setStack (setup createSchemaFrame :: stack c) c) (setup createSchemaFrame)
              (stack c) Hreg eq_refl Hn Ho)
    as (c' & child' & o' & E & R & S & O & V).
  unfold nestFrame, bind, modifyFrame. cbn [stack setStack].
  rewrite setStack_setStack, E.
  unfold readValid, bind, currentFrame, ret. rewrite S, O. cbn [stack setStack tl].
  eexists. split; [rewrite V; reflexivity |]. split; [exact R |].
  cbn [stack setStack]. now rewrite S.
Qed.

(** A child frame whose output is emitted: what the frame below receives. *)
Lemma emitting_child_decided {A} (setup : SchemaFrame -> SchemaFrame) (read : M A)
    (g : bool -> A) c frame rest o subschema (extra : OutputUnit -> Prop) :
  registry c = registry c0 ->
  stack c = frame :: rest ->
  output frame = Some o ->
  node (setup createSchemaFrame) = Some subschema ->
  output (setup createSchemaFrame) = Some newOutput ->
  (forall c child below,
      registry c = registry c0 -> stack c = child :: below ->
      node child = Some subschema -> output child = Some newOutput ->
      exists c' child' o',
        recur c = (inr tt, c') /\ registry c' = registry c0 /\
        stack c' = child' :: below /\ output child' = Some o' /\
        valid o' = accepts subschema (instance child) /\ extra o') ->
  (forall c2 child co,
      stack c2 = child :: frame :: rest -> output child = Some co ->
      read c2 = (inr (g (valid co)), c2)) ->
  exists c1 co,
    nestFrame (modifyFrame setup ;; recur ;; v <- read ;; emitOutput ;; ret v) c =
      (inr (g (accepts subschema (instance (setup createSchemaFrame)))), c1) /\
    registry c1 = registry c0 /\
    valid co = accepts subschema (instance (setup createSchemaFrame)) /\ extra co /\
    stack c1 =
      (if isEmptyOutput co then frame
       else setOutput (Some (chainOutput (hoistOutput co)
                               (initOutputUnit (frame :: rest) o))) frame) :: rest.
Proof.
  intros Hreg Hs Hof Hn Ho Hd Hread.
  destruct (Hd (setStack (setup createSchemaFrame :: stack c) c) (setup createSchemaFrame)
              (stack c) Hreg eq_refl Hn Ho)
    as (c' & child' & co & E & R & S & O & V & X).
  unfold nestFrame. unfold bind at 1. unfold modifyFrame. cbn [stack setStack].
  rewrite setStack_setStack. unfold bind at 1. rewrite E.
  rewrite Hs in S. unfold bind at 1. rewrite (Hread c' child' co S O).
  unfold bind, emitOutput, ret. rewrite S. unfold emitOutputFrames. rewrite O.
  rewrite <- V.
  destruct (isEmptyOutput co) eqn:Ee.
  - eexists. exists co. rewrite Ee. cbn [snd stack setStack tl fst].
    split; [reflexivity |]. split; [exact R |]. split; [reflexivity |].
    split; [exact X | reflexivity].
  - eexists. exists co. rewrite Ee.
    cbn [emitToParents]. rewrite Hof. cbn [snd stack setStack tl fst].
    split; [reflexivity |]. split; [exact R |]. split; [reflexivity |].
    split; [exact X | reflexivity].
Qed.

(** The same, for what the loops of the applicators need. *)
Lemma emitting_child_step {A} (setup : SchemaFrame -> SchemaFrame) (read : M A)
    (g : bool -> A) c frame rest o subschema :
  registry c = registry c0 ->
  stack c = frame :: rest ->
  output frame = Some o ->
  node (setup createSchemaFrame) = Some subschema ->
  output (setup createSchemaFrame) = Some newOutput ->
  decidesOn recur accepts c0 subschema ->
  (forall c2 child co,
      stack c2 = child :: frame :: rest -> output child = Some co ->
      read c2 = (inr (g (valid co)), c2)) ->
  exists c1 frame1 o1,
    nestFrame (modifyFrame setup ;; recur ;; v <- read ;; emitOutput ;; ret v) c =
      (inr (g (accepts subschema (instance (setup createSchemaFrame)))), c1) /\
    registry c1 = registry c0 /\ stack c1 = frame1 :: rest /\ output frame1 = Some o1.
Proof.
  intros Hreg Hs Hof Hn Ho Hd Hread.
  destruct (@emitting_child_decided A setup read g c frame rest o subschema (fun _ => True)
              Hreg Hs Hof Hn Ho) as (c1 & co & E & R & _ & _ & S); [| exact Hread |].
  { intros c2 child below Hr2 Hs2 Hn2 Ho2.
    destruct (Hd c2 child below Hr2 Hs2 Hn2 Ho2) as (c' & child' & o' & P).
    exists c', child', o'. tauto. }
  exists c1. destruct (isEmptyOutput co).
  - exists frame, o. auto.
  - eexists. eexists. split; [exact E |]. split; [exact R |]. split; [exact S |].
    reflexivity.
Qed.

Lemma andValid_decided valid0 c2 child below co :
  stack c2 = child :: below -> output child = Some co ->
  andValid valid0 c2 = (inr (valid0 && valid co), c2).
Proof.
  intros Hs Ho. unfold andValid. destruct valid0; [| reflexivity].
  now rewrite (@readValid_run _ _ _ _ Hs Ho).
Qed.

Lemma orValid_decided valid0 c2 child below co :
  stack c2 = child :: below -> output child = Some co ->
  orValid valid0 c2 = (inr (valid0 || valid co), c2).
Proof.
  intros Hs Ho. unfold orValid. destruct valid0; [reflexivity |].
  now rewrite (@readValid_run _ _ _ _ Hs Ho).
Qed.

Lemma unitsOf_pushUnit l u : unitsOf (pushUnit l u) = unitsOf l ++ [u].
Proof. destruct l; reflexivity. Qed.

Lemma emittedInto_refl o : emittedInto o o 0 0.
Proof.
  exists [], []. rewrite !app_nil_r, andb_true_r. repeat split; auto.
Qed.

Lemma emittedInto_trans o o1 o2 r a r' a' :
  emittedInto o o1 r a -> emittedInto o1 o2 r' a' -> emittedInto o o2 (r + r') (a + a').
Proof.
  intros (e1 & a1 & He1 & Hl1 & Hf1 & Ha1 & Hla1 & Hfa1 & Hr1 & Hn1 & Hv1)
         (e2 & a2 & He2 & Hl2 & Hf2 & Ha2 & Hla2 & Hfa2 & Hr2 & Hn2 & Hv2).
  exists (e1 ++ e2), (a1 ++ a2).
  rewrite He2, He1, Ha2, Ha1, <- !app_assoc, !length_app, Hv2, Hv1.
  repeat split; try congruence; try lia; try (apply Forall_app; now split).
  rewrite <- andb_assoc. f_equal.
  destruct r, r'; reflexivity.
Qed.

(** A child frame whose output is emitted, under a pipeline that reports
    its verdicts: what the child adds to the output of the frame below. *)
Lemma emitting_child_reported {A} (setup : SchemaFrame -> SchemaFrame) (read : M A)
    (g : bool -> A) c frame rest o subschema :
  registry c = registry c0 ->
  stack c = frame :: rest ->
  output frame = Some o ->
  node (setup createSchemaFrame) = Some subschema ->
  output (setup createSchemaFrame) = Some newOutput ->
  reportsOn recur accepts c0 subschema ->
  (forall c2 child co,
      stack c2 = child :: frame :: rest -> output child = Some co ->
      read c2 = (inr (g (valid co)), c2)) ->
  exists c1 frame1 o1,
    nestFrame (modifyFrame setup ;; recur ;; v <- read ;; emitOutput ;; ret v) c =
      (inr (g (accepts subschema (instance (setup createSchemaFrame)))), c1) /\
    registry c1 = registry c0 /\ stack c1 = frame1 :: rest /\ output frame1 = Some o1 /\
    emittedInto o o1
      (if accepts subschema (instance (setup createSchemaFrame)) then 0 else 1)
      (if accepts subschema (instance (setup createSchemaFrame)) then 1 else 0).
Proof.
  intros Hreg Hs Hof Hn Ho Hd Hread.
  destruct (@emitting_child_decided A setup read g c frame rest o subschema reportsVerdict
              Hreg Hs Hof Hn Ho Hd Hread) as (c1 & co & E & R & V & X & S).
  exists c1. unfold reportsVerdict in X. rewrite V in X.
  destruct (isEmptyOutput co) eqn:Ee.
  - exists frame, o. split; [exact E |]. split; [exact R |]. split; [exact S |].
    split; [exact Hof |].
    destruct (accepts subschema _); [| destruct X; discriminate].
    exists [], []. rewrite !app_nil_r, andb_true_r. repeat split; auto.
  - eexists. eexists. split; [exact E |]. split; [exact R |]. split; [exact S |].
    split; [reflexivity |].
    unfold chainOutput. destruct (accepts subschema _).
    + destruct X as [X | X]; [discriminate |]. rewrite X. cbn [negb].
      exists [], [hoistOutput co].
      cbn [errors annotations error annotation valid setAnnotations initOutputUnit].
      rewrite unitsOf_pushUnit, app_nil_r, andb_true_r. repeat split; auto.
    + destruct X as [_ X]. rewrite X. cbn [negb].
      exists [hoistOutput co], [].
      cbn [errors annotations error annotation valid setErrors setValid initOutputUnit].
      rewrite unitsOf_pushUnit, app_nil_r, andb_false_r. repeat split; auto.
Qed.

Lemma acceptedCount_cons inst s subschemas :
  acceptedCount accepts inst (s :: subschemas) =
    (if accepts s inst then 1 else 0) + acceptedCount accepts inst subschemas.
Proof. unfold acceptedCount. cbn [filter]. now destruct (accepts s inst). Qed.

Lemma rejectedCount_cons inst s subschemas :
  rejectedCount accepts inst (s :: subschemas) =
    (if accepts s inst then 0 else 1) + rejectedCount accepts inst subschemas.
Proof. unfold rejectedCount. cbn [filter]. now destruct (accepts s inst). Qed.

Lemma rejectedCount_zero inst subschemas :
  Nat.eqb (rejectedCount accepts inst subschemas) 0
    = forallb (fun s => accepts s inst) subschemas.
Proof.
  induction subschemas as [| s subschemas IH]; [reflexivity |].
  rewrite rejectedCount_cons. cbn [forallb]. destruct (accepts s inst); [exact IH | reflexivity].
Qed.

Lemma allOfLoop_decided subschemas inst : forall index valid0 c frame rest o,
  registry c = registry c0 ->
  stack c = frame :: rest ->
  output frame = Some o ->
  Forall (reportsOn recur accepts c0) subschemas ->
  exists c1 frame1 o1,
    allOfLoop recur subschemas inst index valid0 c =
      (inr (valid0 && forallb (fun s => accepts s inst) subschemas), c1) /\
    registry c1 = registry c0 /\ stack c1 = frame1 :: rest /\ output frame1 = Some o1 /\
    emittedInto o o1 (rejectedCount accepts inst subschemas)
      (acceptedCount accepts inst subschemas).
Proof.
  induction subschemas as [| s subschemas IH]; intros index valid0 c frame rest o Hreg Hs Ho Hd.
  - exists c, frame, o. cbn. rewrite andb_true_r.
    repeat split; auto. apply emittedInto_refl.
  - inversion Hd as [| ? ? Hd1 Hd2]; subst.
    destruct (@emitting_child_reported _
                (fun frame : SchemaFrame =>
                   setOutput (Some newOutput)
                     (setInstance inst
                        (setNode (Some s) (setNodeKey (Some (KNum index)) frame))))
                (andValid valid0) (andb valid0) c frame rest o s
                Hreg Hs Ho eq_refl eq_refl Hd1)
      as (c1 & frame1 & o1 & E & R1 & S1 & O1 & G1).
    { intros c2 child co Hs2 Ho2. exact (@andValid_decided valid0 _ _ _ _ Hs2 Ho2). }
    destruct (IH (S index) (valid0 && accepts s inst) c1 frame1 rest o1 R1 S1 O1 Hd2)
      as (c2 & frame2 & o2 & E2 & R2 & S2 & O2 & G2).
    exists c2, frame2, o2. cbn [allOfLoop forallb]. unfold bind at 1.
    unfold branchChild. rewrite E. cbn [instance setOutput setInstance] in *.
    rewrite E2, andb_assoc. repeat split; auto.
    rewrite rejectedCount_cons, acceptedCount_cons.
    exact (emittedInto_trans G1 G2).
Qed.

Lemma anyOfLoop_decided subschemas inst : forall index valid0 c frame rest o,
  registry c = registry c0 ->
  stack c = frame :: rest ->
  output frame = Some o ->
  Forall (reportsOn recur accepts c0) subschemas ->
  exists c1 frame1 o1,
    anyOfLoop recur subschemas inst index valid0 c =
      (inr (valid0 || existsb (fun s => accepts s inst) subschemas), c1) /\
    registry c1 = registry c0 /\ stack c1 = frame1 :: rest /\ output frame1 = Some o1 /\
    emittedInto o o1 (rejectedCount accepts inst subschemas)
      (acceptedCount accepts inst subschemas).
Proof.
  induction subschemas as [| s subschemas IH]; intros index valid0 c frame rest o Hreg Hs Ho Hd.
  - exists c, frame, o. cbn. rewrite orb_false_r.
    repeat split; auto. apply emittedInto_refl.
  - inversion Hd as [| ? ? Hd1 Hd2]; subst.
    destruct (@emitting_child_reported _
                (fun frame : SchemaFrame =>
                   setOutput (Some newOutput)
                     (setInstance inst
                        (setNode (Some s) (setNodeKey (Some (KNum index)) frame))))
                (orValid valid0) (orb valid0) c frame rest o s
                Hreg Hs Ho eq_refl eq_refl Hd1)
      as (c1 & frame1 & o1 & E & R1 & S1 & O1 & G1).
    { intros c2 child co Hs2 Ho2. exact (@orValid_decided valid0 _ _ _ _ Hs2 Ho2). }
    destruct (IH (S index) (valid0 || accepts s inst) c1 frame1 rest o1 R1 S1 O1 Hd2)
      as (c2 & frame2 & o2 & E2 & R2 & S2 & O2 & G2).
    exists c2, frame2, o2. cbn [anyOfLoop existsb]. unfold bind at 1.
    unfold branchChild. rewrite E. cbn [instance setOutput setInstance] in *.
    rewrite E2, orb_assoc. repeat split; auto.
    rewrite rejectedCount_cons, acceptedCount_cons.
    exact (emittedInto_trans G1 G2).
Qed.

Lemma oneOfLoop_decided subschemas inst : forall index count c frame rest o,
  registry c = registry c0 ->
  stack c = frame :: rest ->
  output frame = Some o ->
  Forall (reportsOn recur accepts c0) subschemas ->
  exists c1 frame1 o1,
    oneOfLoop recur subschemas inst index count c =
      (inr (count + acceptedCount accepts inst subschemas), c1) /\
    registry c1 = registry c0 /\ stack c1 = frame1 :: rest /\ output frame1 = Some o1 /\
    emittedInto o o1 (rejectedCount accepts inst subschemas)
      (acceptedCount accepts inst subschemas).
Proof.
  induction subschemas as [| s subschemas IH]; intros index count c frame rest o Hreg Hs Ho Hd.
  - exists c, frame, o. cbn. rewrite Nat.add_0_r.
    repeat split; auto. apply emittedInto_refl.
  - inversion Hd as [| ? ? Hd1 Hd2]; subst.
    destruct (@emitting_child_reported _
                (fun frame : SchemaFrame =>
                   setOutput (Some newOutput)
                     (setInstance inst
                        (setNode (Some s) (setNodeKey (Some (KNum index)) frame))))
                (v <- readValid ;; ret (if v then S count else count))
                (fun v : bool => if v then S count else count) c frame rest o s
                Hreg Hs Ho eq_refl eq_refl Hd1)
      as (c1 & frame1 & o1 & E & R1 & S1 & O1 & G1).
    { intros c2 child co Hs2 Ho2. unfold bind. now rewrite (@readValid_run _ _ _ _ Hs2 Ho2). }
    destruct (IH (S index) (if accepts s inst then S count else count) c1 frame1 rest o1
                R1 S1 O1 Hd2)
      as (c2 & frame2 & o2 & E2 & R2 & S2 & O2 & G2).
    exists c2, frame2, o2. cbn [oneOfLoop]. unfold bind at 1.
    unfold branchChild. rewrite E. cbn [instance setOutput setInstance] in *.
    rewrite E2. split; [| repeat split; auto].
    + rewrite acceptedCount_cons. destruct (accepts s inst); do 2 f_equal; lia.
    + rewrite rejectedCount_cons, acceptedCount_cons. exact (emittedInto_trans G1 G2).
Qed.

(** X16: where the pipeline decides every sub-schema of [allOf] and reports
    its verdicts, [allOf] applies them all and returns, with the outputs of
    the sub-schemas emitted into its own: one nested error for each
    sub-schema that rejects the instance.  It attaches the error
    [not valid against all subschemas] exactly when some sub-schema rejects
    the instance, keeping the nested errors and annotations; otherwise it
    adds nothing of its own and is as valid as it was. *)
Theorem allOf_fails_iff_some_branch_fails (frame : SchemaFrame)
    (rest : list SchemaFrame) (o : OutputUnit) :
  stack c0 = frame :: rest ->
  output frame = Some o ->
  Forall (reportsOn recur accepts c0) (nodeItems (node frame)) ->
  exists c1 frame1 o1,
    stack c1 = frame1 :: rest /\ output frame1 = Some o1 /\
    emittedInto o o1 (rejectedCount accepts (instance frame) (nodeItems (node frame)))
      (acceptedCount accepts (instance frame) (nodeItems (node frame))) /\
    if forallb (fun s => accepts s (instance frame)) (nodeItems (node frame))
    then allOfValidate recur c0 = (inr tt, c1) /\ valid o1 = valid o
    else exists o',
      allOfValidate recur c0 = (inr tt, setStack (setOutput (Some o') frame1 :: rest) c1) /\
      valid o' = false /\ error o' = Some "not valid against all subschemas" /\
      errors o' = errors o1 /\ annotations o' = annotations o1.
Proof.
  intros Hs Ho Hd.
  destruct (@allOfLoop_decided (nodeItems (node frame)) (instance frame) 0 true c0 frame rest o
              eq_refl Hs Ho Hd) as (c1 & frame1 & o1 & E & _ & S1 & O1 & G1).
  exists c1, frame1, o1. split; [exact S1 |]. split; [exact O1 |]. split; [exact G1 |].
  assert (Ev : allOfValidate recur c0 =
               failWhen (negb (forallb (fun s => accepts s (instance frame))
                                 (nodeItems (node frame))))
                 "not valid against all subschemas" c1).
  { unfold allOfValidate. unfold bind at 1. unfold currentFrame. rewrite Hs.
    unfold bind at 1. rewrite E. reflexivity. }
  rewrite Ev. unfold failWhen.
  destruct G1 as (eunits & aunits & _ & _ & _ & _ & _ & _ & _ & _ & Hv).
  rewrite rejectedCount_zero in Hv.
  destruct (forallb _ (nodeItems (node frame))); cbn [negb].
  - split; [reflexivity |]. now rewrite andb_true_r in Hv.
  - unfold bind. rewrite (attachError_run _ c1 S1). unfold ret, frameOutput. rewrite O1.
    eexists. split; [reflexivity |]. cbn. auto.
Qed.

(** X17: where the pipeline decides every sub-schema of [anyOf] and reports
    its verdicts, [anyOf] applies them all and returns, with the outputs of
    the sub-schemas emitted into its own.  When at least one sub-schema
    accepts the instance, the validity, the error and the nested errors of
    the keyword are restored to what they were before the sub-schemas ran,
    so the errors of the rejecting sub-schemas are dropped; when none does,
    the keyword fails with [not valid against any subschemas] and keeps
    them.  Nested annotations stay in both cases. *)
Theorem anyOf_fails_iff_no_branch_validates (frame : SchemaFrame)
    (rest : list SchemaFrame) (o : OutputUnit) :
  stack c0 = frame :: rest ->
  output frame = Some o ->
  Forall (reportsOn recur accepts c0) (nodeItems (node frame)) ->
  exists c1 frame1 o1 o',
    stack c1 = frame1 :: rest /\ output frame1 = Some o1 /\
    emittedInto o o1 (rejectedCount accepts (instance frame) (nodeItems (node frame)))
      (acceptedCount accepts (instance frame) (nodeItems (node frame))) /\
    anyOfValidate recur c0 = (inr tt, setStack (setOutput (Some o') frame1 :: rest) c1) /\
    annotations o' = annotations o1 /\
    if existsb (fun s => accepts s (instance frame)) (nodeItems (node frame))
    then valid o' = valid o /\ error o' = error o /\ errors o' = errors o
    else valid o' = false /\ error o' = Some "not valid against any subschemas" /\
         errors o' = errors o1.
Proof.
  intros Hs Ho Hd.
  destruct (@anyOfLoop_decided (nodeItems (node frame)) (instance frame) 0 false c0 frame rest o
              eq_refl Hs Ho Hd) as (c1 & frame1 & o1 & E & _ & S1 & O1 & G1).
  exists c1, frame1, o1.
  unfold anyOfValidate. unfold bind at 1. unfold currentFrame. rewrite Hs.
  unfold bind at 1. rewrite E. cbn [orb]. rewrite Ho.
  destruct (existsb _ (nodeItems (node frame))); cbn [negb].
  - rewrite (restoreCheckpoint_run o c1 S1 O1).
    eexists. repeat split; try reflexivity; assumption.
  - unfold bind. rewrite (attachError_run _ c1 S1). unfold ret, frameOutput. rewrite O1.
    eexists. repeat split; try reflexivity; assumption.
Qed.

(** X18: where the pipeline decides every sub-schema of [oneOf] and reports
    its verdicts, [oneOf] applies them all and returns, with the outputs of
    the sub-schemas emitted into its own.  When exactly one sub-schema
    accepts the instance, the validity, the error and the nested errors of
    the keyword are restored; with any other number, none or several, the
    keyword fails with [not valid against exactly one subschema]. *)
Theorem oneOf_fails_unless_one_branch_validates (frame : SchemaFrame)
    (rest : list SchemaFrame) (o : OutputUnit) :
  stack c0 = frame :: rest ->
  output frame = Some o ->
  Forall (reportsOn recur accepts c0) (nodeItems (node frame)) ->
  exists c1 frame1 o1 o',
    stack c1 = frame1 :: rest /\ output frame1 = Some o1 /\
    emittedInto o o1 (rejectedCount accepts (instance frame) (nodeItems (node frame)))
      (acceptedCount accepts (instance frame) (nodeItems (node frame))) /\
    oneOfValidate recur c0 = (inr tt, setStack (setOutput (Some o') frame1 :: rest) c1) /\
    annotations o' = annotations o1 /\
    if Nat.eqb (acceptedCount accepts (instance frame) (nodeItems (node frame))) 1
    then valid o' = valid o /\ error o' = error o /\ errors o' = errors o
    else valid o' = false /\ error o' = Some "not valid against exactly one subschema" /\
         errors o' = errors o1.
Proof.
  intros Hs Ho Hd.
  destruct (@oneOfLoop_decided (nodeItems (node frame)) (instance frame) 0 0 c0 frame rest o
              eq_refl Hs Ho Hd) as (c1 & frame1 & o1 & E & _ & S1 & O1 & G1).
  exists c1, frame1, o1.
  unfold oneOfValidate. unfold bind at 1. unfold currentFrame. rewrite Hs.
  unfold bind at 1. rewrite E. cbn [Nat.add]. rewrite Ho.
  destruct (Nat.eqb _ 1); cbn [negb].
  - rewrite (restoreCheckpoint_run o c1 S1 O1).
    eexists. repeat split; try reflexivity; assumption.
  - unfold bind. rewrite (attachError_run _ c1 S1). unfold ret, frameOutput. rewrite O1.
    eexists. repeat split; try reflexivity; assumption.
Qed.

Lemma containsLoop_decided subschema items : forall index st c frame rest o,
  registry c = registry c0 ->
  stack c = frame :: rest ->
  output frame = Some o ->
  decidesOn recur accepts c0 subschema ->
  exists c1 frame1 o1,
    containsLoop recur (Some subschema) items index st c =
      (inr (foldContains (map (fun item => accepts subschema (Some item)) items) index st),
       c1) /\
    registry c1 = registry c0 /\ stack c1 = frame1 :: rest /\ output frame1 = Some o1.
Proof.
  induction items as [| item items IH]; intros index st c frame rest o Hreg Hs Ho Hd.
  - exists c, frame, o. cbn. auto.
  - destruct (@emitting_child_step _
                (fun frame : SchemaFrame =>
                   setOutput (Some newOutput)
                     (setInstance (Some item)
                        (setInstanceKey (Some (KNum index)) (setNode (Some subschema) frame))))
                readValid (fun v => v) c frame rest o subschema
                Hreg Hs Ho eq_refl eq_refl Hd)
      as (c1 & frame1 & o1 & E & R1 & S1 & O1).
    { intros c2 child co Hs2 Ho2. exact (@readValid_run _ _ _ _ Hs2 Ho2). }
    destruct (IH (S index) (containsUpdate index (accepts subschema (Some item)) st)
                c1 frame1 rest o1 R1 S1 O1 Hd)
      as (c2 & frame2 & o2 & E2 & R2 & S2 & O2).
    exists c2, frame2, o2. cbn [containsLoop map foldContains]. unfold bind at 1.
    unfold containsChild. rewrite E. cbn [instance setOutput setInstance].
    rewrite E2. auto.
Qed.


(** *** The property keywords *)

Lemma invalidAfter_push k invalid names :
  invalidAfter (pushInvalid k invalid) names = invalidAfter invalid (k :: names).
Proof.
  unfold invalidAfter, pushInvalid, optionList.
  destruct names; destruct invalid; cbn; rewrite <- ?app_assoc; reflexivity.
Qed.

Lemma distinctAfter_push k invalid names :
  distinctAfter (match invalid with
                 | Some l => if includes k l then Some l else Some (l ++ [k])
                 | None => Some [k]
                 end) names = distinctAfter invalid (k :: names).
Proof.
  unfold distinctAfter, optionList. destruct invalid as [l |].
  - cbn [fold_left]. unfold addName at 2 3. destruct names; destruct (includes k l); reflexivity.
  - destruct names; reflexivity.
Qed.

Lemma distinctAfter_app invalid names names' :
  distinctAfter (distinctAfter invalid names) names' = distinctAfter invalid (names ++ names').
Proof.
  unfold distinctAfter, optionList.
  destruct names as [| n names]; [reflexivity |].
  destruct names' as [| n' names']; [now rewrite app_nil_r |].
  cbn [app]. rewrite <- fold_left_app. reflexivity.
Qed.

Lemma addName_nonempty names : forall acc, acc <> [] -> fold_left addName names acc <> [].
Proof.
  induction names as [| k names IH]; intros acc Hacc; [exact Hacc |].
  cbn [fold_left]. apply IH. unfold addName. destruct (includes k acc); [exact Hacc |].
  destruct acc; discriminate.
Qed.

Lemma distinctNames_nil names : distinctNames names = [] -> names = [].
Proof.
  destruct names as [| k names]; [reflexivity |]. unfold distinctNames. cbn [fold_left].
  intros E. exfalso. revert E. apply addName_nonempty. discriminate.
Qed.

Lemma additionalPropertiesLoop_decided subschema names : forall entries st c,
  registry c = registry c0 ->
  decidesOn recur accepts c0 subschema ->
  exists c1,
    additionalPropertiesLoop recur (Some subschema) names entries st c =
      (inr (fst st ++ map fst (additionalApplied names entries),
            invalidAfter (snd st)
              (rejectedNames accepts subschema (additionalApplied names entries))), c1) /\
    registry c1 = registry c0 /\ stack c1 = stack c.
Proof.
  induction entries as [| [k value] entries IH]; intros st c Hreg Hd.
  - exists c. cbn. rewrite app_nil_r. destruct st. auto.
  - cbn [additionalPropertiesLoop additionalApplied filter fst].
    destruct (includes k names); cbn [negb].
    + apply IH; assumption.
    + destruct (@quiet_child_decided _
                  (fun frame : SchemaFrame =>
                     setOutput (Some newOutput)
                       (setInstance (Some value)
                          (setInstanceKey (Some (KStr k)) (setNode (Some subschema) frame))))
                  (fun v : bool =>
                     (fst st ++ [k], if v then snd st else pushInvalid k (snd st)))
                  c subschema Hreg eq_refl eq_refl Hd) as (c1 & E & R1 & S1).
      cbn [instance setOutput setInstance] in E.
      unfold bind at 1. rewrite E.
      destruct (IH (fst st ++ [k],
                    if accepts subschema (Some value) then snd st
                    else pushInvalid k (snd st)) c1 R1 Hd) as (c2 & E2 & R2 & S2).
      exists c2. rewrite E2. cbn [fst snd]. split; [| split; [exact R2 | congruence]].
      apply (f_equal2 pair); [| reflexivity]. apply f_equal. apply (f_equal2 pair).
      * cbn [map fst]. rewrite <- app_assoc. reflexivity.
      * unfold rejectedNames. cbn [filter snd fst].
        destruct (accepts subschema (Some value)); cbn [negb map fst]; [reflexivity |].
        apply invalidAfter_push.
Qed.

Lemma propertyNamesLoop_decided subschema : forall entries st c,
  registry c = registry c0 ->
  decidesOn recur accepts c0 subschema ->
  exists c1,
    propertyNamesLoop recur (Some subschema) entries st c =
      (inr (fst st,
            invalidAfter (snd st) (rejectedNames accepts subschema (namesApplied entries))),
       c1) /\
    registry c1 = registry c0 /\ stack c1 = stack c.
Proof.
  induction entries as [| [k value] entries IH]; intros st c Hreg Hd.
  - exists c. cbn. destruct st. auto.
  - cbn [propertyNamesLoop namesApplied map fst].
    destruct (@quiet_child_decided _
                (fun frame : SchemaFrame =>
                   setOutput (Some newOutput)
                     (setInstance (Some (JStr k))
                        (setInstanceKey (Some (KStr k)) (setNode (Some subschema) frame))))
                (fun v : bool => (fst st, if v then snd st else pushInvalid k (snd st)))
                c subschema Hreg eq_refl eq_refl Hd) as (c1 & E & R1 & S1).
    cbn [instance setOutput setInstance] in E.
    unfold bind at 1. rewrite E.
    destruct (IH (fst st,
                  if accepts subschema (Some (JStr k)) then snd st
                  else pushInvalid k (snd st)) c1 R1 Hd) as (c2 & E2 & R2 & S2).
    exists c2. rewrite E2. cbn [fst snd]. split; [| split; [exact R2 | congruence]].
    apply (f_equal2 pair); [| reflexivity]. apply f_equal.
    apply (f_equal2 pair); [reflexivity |].
    unfold rejectedNames. cbn [filter snd fst].
    destruct (accepts subschema (Some (JStr k))); cbn [negb map fst]; [reflexivity |].
    apply invalidAfter_push.
Qed.

Lemma patternEntriesLoop_decided pattern subschema test : forall entries st c,
  registry c = registry c0 ->
  decidesOn recur accepts c0 subschema ->
  exists c1,
    patternEntriesLoop recur pattern subschema test entries st c =
      (inr (fst st ++ map fst (filter (fun e => test (fst e)) entries),
            distinctAfter (snd st)
              (rejectedNames accepts subschema (filter (fun e => test (fst e)) entries))),
       c1) /\
    registry c1 = registry c0 /\ stack c1 = stack c.
Proof.
  induction entries as [| [k value] entries IH]; intros st c Hreg Hd.
  - exists c. cbn. rewrite app_nil_r. destruct st. auto.
  - cbn [patternEntriesLoop filter fst].
    destruct (test k); cbn [negb].
    + destruct (@quiet_child_decided _
                  (childFrame (Some (KStr pattern)) (Some subschema)
                     (Some (KStr k)) (Some value))
                  (fun v : bool =>
                     (fst st ++ [k],
                      if v then snd st
                      else match snd st with
                           | Some l => if includes k l then Some l else Some (l ++ [k])
                           | None => Some [k]
                           end))
                  c subschema Hreg eq_refl eq_refl Hd) as (c1 & E & R1 & S1).
      cbn [instance childFrame setOutput setInstance] in E.
      unfold bind at 1. rewrite E.
      match type of E with
      | _ = (inr ?st', _) => destruct (IH st' c1 R1 Hd) as (c2 & E2 & R2 & S2)
      end.
      exists c2. rewrite E2. cbn [fst snd]. split; [| split; [exact R2 | congruence]].
      apply (f_equal2 pair); [| reflexivity]. apply f_equal. apply (f_equal2 pair).
      * cbn [map fst]. rewrite <- app_assoc. reflexivity.
      * unfold rejectedNames. cbn [filter snd fst].
        destruct (accepts subschema (Some value)); cbn [negb map fst]; [reflexivity |].
        apply distinctAfter_push.
    + apply IH; assumption.
Qed.

Lemma cachePattern_run pattern test c :
  compilePattern pattern = Some test ->
  exists c1, cachePattern pattern c = (inr test, c1) /\
             registry c1 = registry c /\ stack c1 = stack c.
Proof.
  intros E. unfold cachePattern. rewrite E.
  eexists. split; [reflexivity |].
  destruct (includes pattern (patternCache c)); split; reflexivity.
Qed.

Lemma patternPropertiesLoop_decided entries : forall patterns st c,
  registry c = registry c0 ->
  Forall (fun p => compilePattern (fst p) <> None /\ decidesOn recur accepts c0 (snd p))
         patterns ->
  exists c1,
    patternPropertiesLoop recur patterns entries st c =
      (inr (fst st ++ patternEvaluated patterns entries,
            distinctAfter (snd st)
              (flat_map (fun p => rejectedNames accepts (snd p)
                                    (patternApplied (fst p) entries)) patterns)), c1) /\
    registry c1 = registry c0 /\ stack c1 = stack c.
Proof.
  induction patterns as [| [pattern subschema] patterns IH]; intros st c Hreg Hp.
  - exists c. cbn. rewrite app_nil_r. destruct st. auto.
  - inversion Hp as [| p ps [Hc Hd] Hrest]; subst. cbn [fst snd] in Hc, Hd.
    destruct (compilePattern pattern) as [test |] eqn:Ec; [| congruence].
    destruct (@cachePattern_run pattern test c Ec) as (c1 & E1 & R1 & S1).
    cbn [patternPropertiesLoop]. unfold bind at 1. rewrite E1. unfold bind at 1.
    rewrite Hreg in R1.
    destruct (@patternEntriesLoop_decided pattern subschema test entries st c1 R1 Hd)
      as (c2 & E2 & R2 & S2).
    rewrite E2.
    match type of E2 with
    | _ = (inr ?st', _) => destruct (IH st' c2 R2 Hrest) as (c3 & E3 & R3 & S3)
    end.
    exists c3. rewrite E3. cbn [fst snd]. split; [| split; [exact R3 | congruence]].
    assert (Ha : patternApplied pattern entries = filter (fun e => test (fst e)) entries).
    { unfold patternApplied. now rewrite Ec. }
    unfold patternEvaluated. cbn [flat_map fst snd]. rewrite Ha.
    rewrite distinctAfter_app, <- app_assoc. reflexivity.
Qed.

(** A child frame of [properties]: its output is emitted. *)
Lemma emitting_child_mapped {A} (setup : SchemaFrame -> SchemaFrame) (h : bool -> A)
    c frame rest o subschema :
  registry c = registry c0 ->
  stack c = frame :: rest ->
  output frame = Some o ->
  node (setup createSchemaFrame) = Some subschema ->
  output (setup createSchemaFrame) = Some newOutput ->
  reportsOn recur accepts c0 subschema ->
  exists c1 co,
    nestFrame (modifyFrame setup ;; recur ;; v <- readValid ;; emitOutput ;; ret (h v)) c =
      (inr (h (accepts subschema (instance (setup createSchemaFrame)))), c1) /\
    registry c1 = registry c0 /\
    valid co = accepts subschema (instance (setup createSchemaFrame)) /\
    reportsVerdict co /\
    stack c1 =
      (if isEmptyOutput co then frame
       else setOutput (Some (chainOutput (hoistOutput co)
                               (initOutputUnit (frame :: rest) o))) frame) :: rest.
Proof.
  intros Hreg Hs Hof Hn Ho Hd.
  destruct (Hd (setStack (setup createSchemaFrame :: stack c) c) (setup createSchemaFrame)
              (stack c) Hreg eq_refl Hn Ho)
    as (c' & child' & co & E & R & S & O & V & X).
  unfold nestFrame. unfold bind at 1. unfold modifyFrame. cbn [stack setStack].
  rewrite setStack_setStack. unfold bind at 1. rewrite E.
  rewrite Hs in S. unfold bind at 1. rewrite (@readValid_run _ _ _ _ S O).
  unfold bind, emitOutput, ret. rewrite S. unfold emitOutputFrames. rewrite O.
  rewrite <- V.
  destruct (isEmptyOutput co) eqn:Ee.
  - eexists. exists co. rewrite Ee. cbn [snd stack setStack tl fst].
    split; [reflexivity |]. split; [exact R |]. split; [reflexivity |].
    split; [exact X | reflexivity].
  - eexists. exists co. rewrite Ee.
    cbn [emitToParents]. rewrite Hof. cbn [snd stack setStack tl fst].
    split; [reflexivity |]. split; [exact R |]. split; [reflexivity |].
    split; [exact X | reflexivity].
Qed.

Lemma propertiesLoop_reported schemas rest : forall entries st c frame o,
  registry c = registry c0 ->
  stack c = frame :: rest ->
  output frame = Some o ->
  (forall e, In e entries -> getMember (fst e) schemas <> Inherited) ->
  (forall k s, getField k schemas = Some s -> reportsOn recur accepts c0 s) ->
  exists c1 frame1 o1 eunits aunits,
    propertiesLoop recur schemas entries st c =
      (inr (fst st ++ map fst (propertiesApplied schemas entries),
            invalidAfter (snd st) (propertiesRejected accepts schemas entries)), c1) /\
    registry c1 = registry c0 /\ stack c1 = frame1 :: rest /\ output frame1 = Some o1 /\
    unitsOf (errors o1) = unitsOf (errors o) ++ eunits /\
    unitsOf (annotations o1) = unitsOf (annotations o) ++ aunits /\
    error o1 = error o /\ annotation o1 = annotation o /\
    (eunits = [] -> valid o1 = valid o) /\
    List.length eunits = List.length (propertiesRejected accepts schemas entries) /\
    Forall (fun u => valid u = false) eunits /\
    Forall (fun u => valid u = true) aunits /\
    List.length eunits + List.length aunits
      <= List.length (propertiesApplied schemas entries).
Proof.
  induction entries as [| [k value] entries IH]; intros st c frame o Hreg Hs Ho Hinh Hrep.
  - exists c, frame, o, [], []. cbn. rewrite !app_nil_r. destruct st.
    repeat split; auto.
  - assert (Hinh' : forall e, In e entries -> getMember (fst e) schemas <> Inherited).
    { intros e He. apply Hinh. now right. }
    specialize (Hinh (k, value) (or_introl eq_refl)). cbn [fst] in Hinh.
    cbn [propertiesLoop]. unfold propertiesRejected, propertiesApplied.
    cbn [flat_map fst snd]. fold (propertiesApplied schemas entries).
    unfold getMember in *. destruct (getField k schemas) as [s |] eqn:Eg.
    + destruct (@emitting_child_mapped _
                  (childFrame (Some (KStr k)) (Some s) (Some (KStr k)) (Some value))
                  (fun v : bool =>
                     (fst st ++ [k], if v then snd st else pushInvalid k (snd st)))
                  c frame rest o s Hreg Hs Ho eq_refl eq_refl (Hrep k s Eg))
        as (c1 & co & E & R1 & V & X & S1).
      cbn [instance childFrame setOutput setInstance] in E, V.
      unfold bind at 1. rewrite E. cbn [app filter fst snd map].
      unfold reportsVerdict in X. rewrite V in X.
      destruct (isEmptyOutput co) eqn:Ee.
      * destruct (accepts s (Some value)) eqn:Ea; [| destruct X; discriminate].
        destruct (IH (fst st ++ [k], snd st) c1 frame o R1 S1 Ho Hinh' Hrep)
          as (c2 & frame2 & o2 & eunits & aunits & E2 & R2 & S2 & O2 & He & Ha & Hr & Hn
              & Hv & Hl & Hfe & Hfa & Hle).
        exists c2, frame2, o2, eunits, aunits. rewrite E2. cbn [fst snd negb].
        fold (propertiesRejected accepts schemas entries).
        rewrite <- app_assoc. cbn [List.length].
        repeat split; auto; lia.
      * destruct (accepts s (Some value)) eqn:Ea.
        -- destruct X as [X | X]; [discriminate |].
           destruct (IH (fst st ++ [k], snd st) c1 _ _ R1 S1 eq_refl Hinh' Hrep)
             as (c2 & frame2 & o2 & eunits & aunits & E2 & R2 & S2 & O2 & He & Ha & Hr & Hn
                 & Hv & Hl & Hfe & Hfa & Hle).
           unfold chainOutput in He, Ha, Hr, Hn, Hv. rewrite X in He, Ha, Hr, Hn, Hv.
           cbn [negb errors annotations error annotation valid setAnnotations
                  initOutputUnit] in He, Ha, Hr, Hn, Hv.
           rewrite unitsOf_pushUnit, <- app_assoc in Ha.
           exists c2, frame2, o2, eunits, (hoistOutput co :: aunits). rewrite E2.
           cbn [fst snd negb]. fold (propertiesRejected accepts schemas entries).
           rewrite <- app_assoc. cbn [List.length].
           repeat split; auto; lia.
        -- destruct X as [_ X].
           destruct (IH (fst st ++ [k], pushInvalid k (snd st)) c1 _ _ R1 S1 eq_refl
                       Hinh' Hrep)
             as (c2 & frame2 & o2 & eunits & aunits & E2 & R2 & S2 & O2 & He & Ha & Hr & Hn
                 & Hv & Hl & Hfe & Hfa & Hle).
           unfold chainOutput in He, Ha, Hr, Hn, Hv. rewrite X in He, Ha, Hr, Hn, Hv.
           cbn [negb errors annotations error annotation valid setErrors setValid
                  initOutputUnit] in He, Ha, Hr, Hn, Hv.
           rewrite unitsOf_pushUnit, <- app_assoc in He.
           exists c2, frame2, o2, (hoistOutput co :: eunits), aunits. rewrite E2.
           cbn [fst snd negb map]. fold (propertiesRejected accepts schemas entries).
           rewrite <- app_assoc, invalidAfter_push. cbn [List.length].
           repeat split; auto; try discriminate; lia.
    + destruct (inheritedMember k); [congruence |].
      cbn [app]. fold (propertiesRejected accepts schemas entries).
      apply (IH st c frame o); assumption.
Qed.

(** An instance key that names a member that the keyword's value inherits
    ends [properties] with the exception of the pipeline. *)
Lemma propertiesLoop_inherited_key schemas k value entries st c :
  getMember k schemas = Inherited ->
  propertiesLoop recur schemas ((k, value) :: entries) st c =
    (inl (ProcessingError (inheritedSchemaMessage k)), c).
Proof.
  intros E. cbn [propertiesLoop]. rewrite E. unfold nestFrame, throw.
  cbn [stack setStack tl]. now rewrite setStack_setStack, setStack_stack.
Qed.

Lemma getField_In k fields : forall s, getField k fields = Some s -> In s (map snd fields).
Proof.
  induction fields as [| [k' v] fields IH]; intros s; cbn; [discriminate |].
  destruct (String.eqb k' k).
  - intros E. injection E as <-. now left.
  - intros E. right. now apply IH.
Qed.

Lemma setOutput_same frame o : output frame = Some o -> setOutput (Some o) frame = frame.
Proof. destruct frame; cbn. now intros ->. Qed.


End Verdicts.

(** The boolean sub-schemas are decided, and their verdict reported, by the
    boolean validation: [true] accepts every instance, [false] none. *)
Lemma booleanSchemaValidate_reports `{ToolJson} c0 b :
  reportsOn booleanSchemaValidate sampleVerdict c0 (JBool b).
Proof.
  intros c child below Hreg Hs Hn Ho.
  unfold booleanSchemaValidate, bind, currentFrame. rewrite Hs, Hn.
  destruct b.
  - exists c, child, newOutput. unfold ret. repeat split; try assumption.
    left. reflexivity.
  - rewrite (attachError_run _ c Hs). unfold ret, frameOutput. rewrite Ho.
    eexists. eexists. eexists. split; [reflexivity |].
    split; [exact Hreg |]. split; [reflexivity |]. split; [reflexivity |].
    split; [reflexivity |]. split; reflexivity.
Qed.

(** So are they by the pipeline, and so is [{"maximum": 1}] in the contexts
    that hold its parsed resource: whatever the frames and the instance, the
    pipeline returns with the verdict of [sampleVerdict]. *)
Lemma pipeline_reports_boolean c0 b : reportsOn boundPipeline sampleVerdict c0 (JBool b).
Proof.
  intros c child below Hreg Hs Hn Ho.
  destruct (@booleanSchemaValidate_reports plainHost c0 b c child below Hreg Hs Hn Ho)
    as (c' & child' & o' & E & P).
  exists c', child', o'. split; [| exact P].
  rewrite <- E. unfold boundPipeline, booleanSchemaValidate. cbn [validateSchemaResource].
  unfold bind, currentFrame. rewrite Hs, Hn. destruct b; reflexivity.
Qed.

Lemma pipeline_reports_bound c0 :
  registry c0 = registry boundContext ->
  reportsOn boundPipeline sampleVerdict c0 boundSchema.
Proof.
  intros H0 c child below Hreg Hs Hn Ho.
  rewrite H0 in Hreg. rewrite H0. clear H0 c0.
  destruct c as [st res refs dd pc]. destruct child as [nk n ik inst bu out].
  cbn in Hs, Hn, Ho. subst st n out.
  vm_compute in Hreg. injection Hreg as -> -> ->.
  destruct (boundPipeline _) as [r c'] eqn:E.
  destruct inst as [[| b | [| [p | p |] | p] | s | l | l] |]; destruct bu;
    vm_compute in E; injection E as <- <-;
    (eexists; eexists; eexists; split; [reflexivity |];
     split; [reflexivity |]; split; [reflexivity |]; split; [reflexivity |];
     split; [reflexivity |]; vm_compute; auto).
Qed.

Lemma pipeline_reports_samples c0 subschema :
  registry c0 = registry boundContext ->
  In subschema [boundSchema; JBool true; JBool false] ->
  reportsOn boundPipeline sampleVerdict c0 subschema.
Proof.
  intros H0 [<- | [<- | [<- | []]]];
    [now apply pipeline_reports_bound | apply pipeline_reports_boolean ..].
Qed.

Lemma pipeline_decides_samples c0 subschema :
  registry c0 = registry boundContext ->
  In subschema [boundSchema; JBool true; JBool false] ->
  decidesOn boundPipeline sampleVerdict c0 subschema.
Proof. intros H0 Hin. now apply reportsOn_decidesOn, pipeline_reports_samples. Qed.

(** The witness: [allOf] of [true] and [{"maximum": 1}] on 5, over the
    pipeline. *)
Lemma allOf_fails_iff_some_branch_fails_witness :
  exists c' frame' o',
    allOfValidate (H := plainHost) boundPipeline
      (boundStack "allOf" (JArr [JBool true; boundSchema]) (JNum 5)) = (inr tt, c') /\
    stack c' = frame' :: tl (keywordStack "allOf" (JArr [JBool true; boundSchema]) (JNum 5)) /\
    output frame' = Some o' /\
    valid o' = false /\ error o' = Some "not valid against all subschemas".
Proof.
  destruct (@allOf_fails_iff_some_branch_fails plainHost boundPipeline sampleVerdict
              (boundStack "allOf" (JArr [JBool true; boundSchema]) (JNum 5))
              _ _ newOutput eq_refl eq_refl)
    as (c1 & frame1 & o1 & Hs1 & Ho1 & _ & o' & E & Hv & He & _).
  { repeat constructor; apply pipeline_reports_samples; cbn; auto. }
  eexists. exists (setOutput (Some o') frame1), o'.
  split; [exact E |]. split; [reflexivity |]. split; [reflexivity |].
  split; [exact Hv | exact He].
Defined.

(** The witness: [anyOf] of [false] and [{"maximum": 1}] on 0: the second
    branch accepts, and the error of the first is dropped. *)
Lemma anyOf_fails_iff_no_branch_validates_witness :
  exists c' frame' o',
    anyOfValidate (H := plainHost) boundPipeline
      (boundStack "anyOf" (JArr [JBool false; boundSchema]) (JNum 0)) = (inr tt, c') /\
    stack c' = frame' :: tl (keywordStack "anyOf" (JArr [JBool false; boundSchema]) (JNum 0)) /\
    output frame' = Some o' /\
    valid o' = true /\ error o' = None /\ errors o' = None.
Proof.
  destruct (@anyOf_fails_iff_no_branch_validates plainHost boundPipeline sampleVerdict
              (boundStack "anyOf" (JArr [JBool false; boundSchema]) (JNum 0))
              _ _ newOutput eq_refl eq_refl)
    as (c1 & frame1 & o1 & o' & Hs1 & Ho1 & _ & E & _ & Hv & He & Hes).
  { repeat constructor; apply pipeline_reports_samples; cbn; auto. }
  eexists. exists (setOutput (Some o') frame1), o'.
  split; [exact E |]. split; [reflexivity |]. split; [reflexivity |].
  split; [exact Hv |]. split; [exact He | exact Hes].
Defined.

(** The witness: [oneOf] of [true] and [{"maximum": 1}] on 0: both accept. *)
Lemma oneOf_fails_unless_one_branch_validates_witness :
  exists c' frame' o',
    oneOfValidate (H := plainHost) boundPipeline
      (boundStack "oneOf" (JArr [JBool true; boundSchema]) (JNum 0)) = (inr tt, c') /\
    stack c' = frame' :: tl (keywordStack "oneOf" (JArr [JBool true; boundSchema]) (JNum 0)) /\
    output frame' = Some o' /\
    valid o' = false /\ error o' = Some "not valid against exactly one subschema".
Proof.
  destruct (@oneOf_fails_unless_one_branch_validates plainHost boundPipeline sampleVerdict
              (boundStack "oneOf" (JArr [JBool true; boundSchema]) (JNum 0))
              _ _ newOutput eq_refl eq_refl)
    as (c1 & frame1 & o1 & o' & Hs1 & Ho1 & _ & E & _ & Hv & He & _).
  { repeat constructor; apply pipeline_reports_samples; cbn; auto. }
  eexists. exists (setOutput (Some o') frame1), o'.
  split; [exact E |]. split; [reflexivity |]. split; [reflexivity |].
  split; [exact Hv | exact He].
Defined.



(** ** not and if *)

Section InPlaceFacts.
Context `{ToolJson}.

(** X19: [not] fails exactly when its sub-schema accepted the instance,
    with the error [unexpectedly valid]; when the sub-schema rejected it,
    the validity, the error and the nested errors of the keyword are those
    from before the sub-schema ran.  Annotations stay in both cases. *)
Theorem not_fails_iff_subschema_validates (recur : M unit) (c c1 : Context)
    (frame frame1 : SchemaFrame) (rest rest1 : list SchemaFrame) (o o1 : OutputUnit) :
  stack c = frame :: rest ->
  output frame = Some o ->
  recur c = (inr tt, c1) ->
  stack c1 = frame1 :: rest1 ->
  output frame1 = Some o1 ->
  exists o',
    notValidate recur c = (inr tt, setStack (setOutput (Some o') frame1 :: rest1) c1) /\
    annotation o' = annotation o1 /\ annotations o' = annotations o1 /\
    if valid o1
    then valid o' = false /\ error o' = Some "unexpectedly valid" /\ errors o' = errors o1
    else valid o' = valid o /\ error o' = error o /\ errors o' = errors o.
Proof.
  intros Hs Ho Er Hs1 Ho1. unfold notValidate.
  unfold bind at 1. unfold currentFrame at 1. rewrite Hs.
  unfold bind at 1. rewrite Er.
  unfold bind at 1. unfold currentFrame. rewrite Hs1, Ho1, Ho.
  destruct (valid o1) eqn:Ev; cbn [negb].
  - unfold bind. rewrite (attachError_run _ c1 Hs1). unfold ret, frameOutput. rewrite Ho1.
    eexists. split; [reflexivity |]. cbn. auto.
  - rewrite (restoreCheckpoint_run o c1 Hs1 Ho1).
    eexists. split; [reflexivity |]. cbn. auto.
Qed.

(** X20: [if] never changes the validity, the error or the nested errors
    of its keyword, whatever its sub-schema decided; it records the outcome
    of the sub-schema as the annotation [true] or [false]. *)
Theorem if_records_the_outcome_and_never_fails (recur : M unit) (c c1 : Context)
    (frame frame1 : SchemaFrame) (rest rest1 : list SchemaFrame) (o o1 : OutputUnit) :
  stack c = frame :: rest ->
  output frame = Some o ->
  recur c = (inr tt, c1) ->
  stack c1 = frame1 :: rest1 ->
  output frame1 = Some o1 ->
  exists o',
    ifValidate recur c = (inr tt, setStack (setOutput (Some o') frame1 :: rest1) c1) /\
    valid o' = valid o /\ error o' = error o /\ errors o' = errors o /\
    annotation o' = Some (JBool (valid o1)) /\ annotations o' = annotations o1.
Proof.
  intros Hs Ho Er Hs1 Ho1. unfold ifValidate.
  unfold bind at 1. unfold currentFrame at 1. rewrite Hs.
  unfold bind at 1. rewrite Er.
  unfold bind at 1. unfold currentFrame. rewrite Hs1, Ho1, Ho.
  unfold bind. rewrite (attachAnnotation_run _ c1 Hs1).
  erewrite (@restoreCheckpoint_run o (setStack _ c1)); [| reflexivity | reflexivity].
  unfold frameOutput. rewrite Ho1. rewrite setStack_setStack.
  eexists. split; [reflexivity |]. cbn. auto 6.
Qed.

End InPlaceFacts.

Lemma not_fails_iff_subschema_validates_witness :
  exists o',
    fst (notValidate (H := plainHost) plainBoolean
           (withStack (keywordStack "not" (JBool true) JNull))) = inr tt /\
    valid o' = false /\ error o' = Some "unexpectedly valid".
Proof.
  destruct (@not_fails_iff_subschema_validates plainHost plainBoolean
              (withStack (keywordStack "not" (JBool true) JNull))
              (snd (plainBoolean (withStack (keywordStack "not" (JBool true) JNull))))
              _ _ _ _ newOutput newOutput eq_refl eq_refl eq_refl eq_refl eq_refl)
    as (o' & E & _ & _ & Hv & He & _).
  exists o'. split; [now rewrite E |]. split; [exact Hv | exact He].
Defined.

Lemma if_records_the_outcome_and_never_fails_witness :
  exists o',
    fst (ifValidate (H := plainHost) plainBoolean
           (withStack (keywordStack "if" (JBool false) JNull))) = inr tt /\
    valid o' = true /\ error o' = None /\ annotation o' = Some (JBool false).
Proof.
  destruct (@if_records_the_outcome_and_never_fails plainHost plainBoolean
              (withStack (keywordStack "if" (JBool false) JNull))
              (snd (plainBoolean (withStack (keywordStack "if" (JBool false) JNull))))
              _ _ _ _ newOutput _ eq_refl eq_refl eq_refl eq_refl eq_refl)
    as (o' & E & Hv & He & _ & Ha & _).
  exists o'. split; [now rewrite E |]. split; [exact Hv |]. split; [exact He | exact Ha].
Defined.

(** ** $dynamicRef, items and dependentSchemas where they have nothing to do *)

Section MoreFacts.
Context `{ToolJson}.

(** X21: where no frame of the dynamic scope declares the dynamic anchor
    that the fragment of a [$dynamicRef] names, the keyword validates as
    [$ref] does. *)
Theorem dynamicRef_is_ref_without_dynamic_anchor (recur : M unit) (c : Context)
    (frame : SchemaFrame) (parents : list SchemaFrame) (uri : string) :
  stack c = frame :: parents ->
  node frame = Some (JStr uri) ->
  (forall anchor, fragmentOf uri = Some anchor ->
     forall f, In f (frame :: parents) -> declaresDynamicAnchor anchor (node f) = false) ->
  dynamicRefValidate recur c = refValidate recur c.
Proof.
  intros Hs Hn Hnone.
  unfold dynamicRefValidate, refValidate, bind, currentFrame, getStack, ret.
  rewrite !Hs. cbn [tl].
  destruct (getReference c _) as [reference |]; [| reflexivity].
  destruct (target reference) as [[| | | | | fields] |]; try reflexivity.
  rewrite Hn. destruct (fragmentOf uri) as [anchor |] eqn:Ef; [| reflexivity].
  rewrite dynamicResolve_outermost. unfold outermostDynamicAnchor.
  destruct (find _ (rev (frame :: parents))) as [g |] eqn:E; [| reflexivity].
  apply find_some in E. destruct E as [Hin Hd]. apply in_rev in Hin.
  rewrite (Hnone anchor eq_refl g Hin) in Hd. discriminate.
Qed.

(** X22: [items] does nothing, and so never fails, on an array all of
    whose items [prefixItems] has covered: the start index that the
    annotation of [prefixItems] gives is not below the length of the
    array. *)
Theorem items_noop_when_nothing_left (recur : M unit) (c : Context)
    (frame : SchemaFrame) (parents : list SchemaFrame) (items : list JSON) :
  stack c = frame :: parents ->
  instance frame = Some (JArr items) ->
  (Z.of_nat (List.length items) <=
   itemsStart (match getChildAnnotation parents "prefixItems" with
               | Some u => annotation u
               | None => None
               end) (List.length items))%Z ->
  itemsValidate recur c = (inr tt, c).
Proof.
  intros Hs Hi Hle. unfold itemsValidate.
  erewrite bind_ok; [| unfold currentFrame; rewrite Hs; reflexivity]. rewrite Hi.
  erewrite bind_ok; [| unfold parentFrames, bind, getStack, ret; rewrite Hs; reflexivity].
  cbn [tl]. set (start := itemsStart _ _) in *.
  replace (Z.to_nat (Z.of_nat (List.length items) - start)) with 0 by lia.
  cbn [itemsLoop]. erewrite bind_ok; [| reflexivity].
  unfold failWhen. cbn [negb andb]. erewrite bind_ok; [| reflexivity].
  replace (Z.ltb start (Z.of_nat (List.length items))) with false
    by (symmetry; apply Z.ltb_ge; lia).
  reflexivity.
Qed.

Lemma dependentSchemasLoop_absent (recur : M unit) schemas entries invalid c :
  (forall k, In k (map fst schemas) -> hasMember k entries = false) ->
  dependentSchemasLoop recur schemas entries invalid c = (inr invalid, c).
Proof.
  induction schemas as [| [k s] schemas IH]; intros Hnone; [reflexivity |].
  cbn [dependentSchemasLoop]. rewrite (Hnone k) by (now left). cbn [negb].
  apply IH. intros k' Hin. apply Hnone. now right.
Qed.

(** X23: [dependentSchemas] does nothing on an object on which none of the
    names of the keyword is defined, as a property of its own or as a member
    that every object inherits: no sub-schema is applied and the state is
    unchanged. *)
Theorem dependentSchemas_noop_without_dependent_keys (recur : M unit) (c : Context)
    (frame : SchemaFrame) (parents : list SchemaFrame) (entries : list (string * JSON)) :
  stack c = frame :: parents ->
  instance frame = Some (JObj entries) ->
  (forall k, In k (map fst (nodeMembers (node frame))) -> hasMember k entries = false) ->
  dependentSchemasValidate recur c = (inr tt, c).
Proof.
  intros Hs Hi Hnone. unfold dependentSchemasValidate, bind, currentFrame.
  rewrite Hs, Hi. now rewrite dependentSchemasLoop_absent.
Qed.

Lemma child_result {A B} (setup : SchemaFrame -> SchemaFrame) (recur : M unit)
    (read : M A) (g : A -> B) c b c1 :
  nestFrame (modifyFrame setup ;; recur ;; v <- read ;; emitOutput ;; ret (g v)) c
    = (inr b, c1) ->
  exists v, b = g v.
Proof.
  unfold nestFrame, bind, modifyFrame, ret. cbn [stack setStack].
  destruct (recur _) as [[e | []] c2]; [intros [=] |].
  destruct (read c2) as [[e | v] c3]; [intros [=] |].
  destruct (emitOutput c3) as [[e | r] c4]; [intros [=] |].
  intros [= <- <-]. now exists v.
Qed.

Lemma unevaluatedPropertiesLoop_names (recur : M unit) n names entries st c st' c1 :
  unevaluatedPropertiesLoop recur n names entries st c = (inr st', c1) ->
  snd st' = snd st ++ uncoveredKeys names entries.
Proof.
  revert st c. induction entries as [| [k value] entries IH]; intros st c E.
  - injection E as <- <-. unfold uncoveredKeys. cbn. now rewrite app_nil_r.
  - cbn [unevaluatedPropertiesLoop] in E. unfold uncoveredKeys. cbn [map fst filter].
    destruct (includes k names); cbn [negb].
    + exact (IH _ _ E).
    + unfold bind at 1 in E.
      match type of E with
      | context [nestFrame ?body c] => destruct (nestFrame body c) as [[e | st1] c2] eqn:Ec
      end; [discriminate |].
      apply (@child_result _ _ _ recur (andValid (fst st)) (fun v => (v, snd st ++ [k])))
        in Ec.
      destruct Ec as [v ->]. rewrite (IH _ _ E). cbn [snd].
      now rewrite <- app_assoc.
Qed.

Section WithRecur.
Variable recur : M unit.
Hypothesis recur_topOnly : topOnly recur.

Lemma topOnly_unevaluatedPropertiesLoop n names entries st :
  topOnly (unevaluatedPropertiesLoop recur n names entries st).
Proof.
  revert st. induction entries as [| [k value] entries IH]; intros st; simpl.
  - top_only.
  - destruct (includes k names); [apply IH |].
    apply topOnly_bind; [| intro; apply IH].
    apply topOnly_child; [discriminate | assumption |].
    unfold andValid. child_tail.
Qed.

(** X24: when [unevaluatedProperties] returns on an object, its
    annotation lists exactly the properties of the instance that no
    annotation of [properties], [patternProperties],
    [additionalProperties] or [unevaluatedProperties] in the parent covers,
    in the order of the instance. *)
Theorem unevaluatedProperties_annotates_uncovered_keys (c c' : Context)
    (frame : SchemaFrame) (parents : list SchemaFrame) (entries : list (string * JSON)) :
  stack c = frame :: parents ->
  output frame <> None ->
  instance frame = Some (JObj entries) ->
  unevaluatedPropertiesValidate recur c = (inr tt, c') ->
  exists frame' o',
    stack c' = frame' :: parents /\ output frame' = Some o' /\
    annotation o' =
      Some (JArr (map JStr (uncoveredKeys (evaluatedNames (propertyAnnotations parents))
                              entries))).
Proof.
  intros Hs Ho Hi E. unfold unevaluatedPropertiesValidate in E.
  unfold bind at 1 in E. unfold currentFrame in E. rewrite Hs, Hi in E.
  unfold bind at 1 in E. unfold parentFrames, bind, getStack, ret in E.
  rewrite Hs in E. cbn [tl] in E.
  destruct (unevaluatedPropertiesLoop _ _ _ _ _ c) as [[e | st] c1] eqn:El; [discriminate |].
  destruct (@topOnly_unevaluatedPropertiesLoop _ _ _ _ c frame parents _ _ Hs Ho El)
    as (frame1 & Hs1 & Ho1).
  apply unevaluatedPropertiesLoop_names in El. cbn [snd app] in El.
  rewrite (attachAnnotation_run _ c1 Hs1) in E. injection E as <-.
  eexists. eexists. split; [reflexivity |]. split; [reflexivity |].
  cbn. unfold namesAnnotation. now rewrite El.
Qed.

Lemma topOnly_prefixItemsLoop subschemas items index valid0 :
  topOnly (prefixItemsLoop recur subschemas items index valid0).
Proof.
  revert items index valid0.
  induction subschemas as [| s subschemas IH]; intros items index valid0; simpl.
  - top_only.
  - destruct items as [| item items]; [top_only |].
    apply topOnly_bind; [| intro; apply IH].
    apply topOnly_child; [discriminate | assumption |].
    unfold andValid. child_tail.
Qed.

(** X25: [prefixItems] fails on an array with fewer items than the
    keyword has sub-schemas, whatever the sub-schemas decide: the error
    counts the missing items. *)
Theorem prefixItems_rejects_short_arrays (c c' : Context) (frame : SchemaFrame)
    (parents : list SchemaFrame) (items : list JSON) :
  stack c = frame :: parents ->
  output frame <> None ->
  instance frame = Some (JArr items) ->
  List.length items < List.length (nodeItems (node frame)) ->
  prefixItemsValidate recur c = (inr tt, c') ->
  exists frame' o',
    stack c' = frame' :: parents /\ output frame' = Some o' /\
    valid o' = false /\
    error o' = Some (prefixItemsMessage (List.length (nodeItems (node frame)))
                       (List.length items)).
Proof.
  intros Hs Ho Hi Hlen E. unfold prefixItemsValidate in E.
  unfold bind at 1 in E. unfold currentFrame in E. rewrite Hs, Hi in E.
  unfold bind at 1 in E.
  destruct (prefixItemsLoop _ _ _ _ _ c) as [[e | v] c1] eqn:El; [discriminate |].
  destruct (@topOnly_prefixItemsLoop _ _ _ _ c frame parents _ _ Hs Ho El)
    as (frame1 & Hs1 & Ho1).
  rewrite Nat.min_r in E by lia.
  replace (Nat.eqb (List.length items) (List.length (nodeItems (node frame)))) with false in E
    by (symmetry; apply Nat.eqb_neq; lia).
  cbn [negb] in E. unfold failWhen in E. unfold bind at 1 in E. unfold bind at 1 in E.
  rewrite (attachError_run _ c1 Hs1) in E. unfold ret at 1 in E.
  destruct v.
  - unfold bind in E.
    erewrite (@attachAnnotation_run _ _ (setStack _ c1)) in E by reflexivity.
    injection E as <-. eexists. eexists.
    split; [reflexivity |]. split; [reflexivity |]. cbn. auto.
  - injection E as <-. eexists. eexists.
    split; [reflexivity |]. split; [reflexivity |]. cbn. auto.
Qed.

End WithRecur.
End MoreFacts.

Lemma dynamicRef_is_ref_without_dynamic_anchor_witness :
  dynamicRefValidate (H := plainHost) plainBoolean
    (withStack (keywordStack "$dynamicRef" (JStr "#node") JNull)) =
  refValidate (H := plainHost) plainBoolean
    (withStack (keywordStack "$dynamicRef" (JStr "#node") JNull)).
Proof.
  apply (@dynamicRef_is_ref_without_dynamic_anchor plainHost plainBoolean
           (withStack (keywordStack "$dynamicRef" (JStr "#node") JNull))
           (hd createSchemaFrame (keywordStack "$dynamicRef" (JStr "#node") JNull))
           (tl (keywordStack "$dynamicRef" (JStr "#node") JNull)) "#node").
  - reflexivity.
  - reflexivity.
  - intros anchor _ f [<- | [<- | []]]; reflexivity.
Defined.

Lemma items_noop_when_nothing_left_witness :
  itemsValidate (H := plainHost) plainBoolean
    (withStack (keywordStackAfter "prefixItems" (JBool true) "items" (JBool false)
                  (JArr [JNum 1]))) =
  (inr tt,
   withStack (keywordStackAfter "prefixItems" (JBool true) "items" (JBool false)
                (JArr [JNum 1]))).
Proof.
  apply (@items_noop_when_nothing_left plainHost plainBoolean
           (withStack (keywordStackAfter "prefixItems" (JBool true) "items" (JBool false)
                         (JArr [JNum 1])))
           (hd createSchemaFrame
              (keywordStackAfter "prefixItems" (JBool true) "items" (JBool false)
                 (JArr [JNum 1])))
           (tl (keywordStackAfter "prefixItems" (JBool true) "items" (JBool false)
                  (JArr [JNum 1])))
           [JNum 1]).
  - reflexivity.
  - reflexivity.
  - vm_compute. discriminate.
Defined.

Lemma dependentSchemas_noop_without_dependent_keys_witness :
  dependentSchemasValidate (H := plainHost) plainBoolean
    (withStack (keywordStack "dependentSchemas" (JObj [("b", JBool false)])
                  (JObj [("a", JNum 1)]))) =
  (inr tt,
   withStack (keywordStack "dependentSchemas" (JObj [("b", JBool false)])
                (JObj [("a", JNum 1)]))).
Proof.
  apply (@dependentSchemas_noop_without_dependent_keys plainHost plainBoolean
           (withStack (keywordStack "dependentSchemas" (JObj [("b", JBool false)])
                         (JObj [("a", JNum 1)])))
           (hd createSchemaFrame
              (keywordStack "dependentSchemas" (JObj [("b", JBool false)])
                 (JObj [("a", JNum 1)])))
           (tl (keywordStack "dependentSchemas" (JObj [("b", JBool false)])
                  (JObj [("a", JNum 1)])))
           [("a", JNum 1)]).
  - reflexivity.
  - reflexivity.
  - intros k [<- | []]. reflexivity.
Defined.

Lemma unevaluatedProperties_annotates_uncovered_keys_witness :
  exists frame' o',
    stack (snd (unevaluatedPropertiesValidate (H := plainHost) plainBoolean
                  (withStack (keywordStack "unevaluatedProperties" (JBool true)
                                (JObj [("a", JNum 1)])))))
      = frame' :: tl (keywordStack "unevaluatedProperties" (JBool true)
                        (JObj [("a", JNum 1)])) /\
    output frame' = Some o' /\
    annotation o' = Some (JArr [JStr "a"]).
Proof.
  destruct (@unevaluatedProperties_annotates_uncovered_keys plainHost plainBoolean
              (topOnly_booleanSchemaValidate (H := plainHost))
              (withStack (keywordStack "unevaluatedProperties" (JBool true)
                            (JObj [("a", JNum 1)])))
              (snd (unevaluatedPropertiesValidate (H := plainHost) plainBoolean
                      (withStack (keywordStack "unevaluatedProperties" (JBool true)
                                    (JObj [("a", JNum 1)])))))
              _ _ [("a", JNum 1)] eq_refl ltac:(discriminate) eq_refl
              ltac:(vm_compute; reflexivity))
    as (frame' & o' & Hs & Ho & Ha).
  exists frame', o'. split; [exact Hs |]. split; [exact Ho | exact Ha].
Defined.

Lemma prefixItems_rejects_short_arrays_witness :
  exists frame' o',
    stack (snd (prefixItemsValidate (H := plainHost) plainBoolean
                  (withStack (keywordStack "prefixItems" (JArr [JBool true; JBool true])
                                (JArr [JNum 1])))))
      = frame' :: tl (keywordStack "prefixItems" (JArr [JBool true; JBool true])
                        (JArr [JNum 1])) /\
    output frame' = Some o' /\
    valid o' = false /\
    error o' = Some "array is missing 1 of 2 expected prefix items".
Proof.
  destruct (@prefixItems_rejects_short_arrays plainHost plainBoolean
              (topOnly_booleanSchemaValidate (H := plainHost))
              (withStack (keywordStack "prefixItems" (JArr [JBool true; JBool true])
                            (JArr [JNum 1])))
              (snd (prefixItemsValidate (H := plainHost) plainBoolean
                      (withStack (keywordStack "prefixItems" (JArr [JBool true; JBool true])
                                    (JArr [JNum 1])))))
              _ _ [JNum 1] eq_refl ltac:(discriminate) eq_refl ltac:(cbn; lia)
              ltac:(vm_compute; reflexivity))
    as (frame' & o' & Hs & Ho & Hv & He).
  exists frame', o'. split; [exact Hs |]. split; [exact Ho |]. split; [exact Hv | exact He].
Defined.

(** ** Whole schemas: parse, sort, validate *)

Section ConditionalSchema.
Context `{ToolJson}.

(** X26: a schema made of [if], [then] and [else] with boolean sub-schemas,
    written with [if] last, parses to a resource whose keywords are sorted
    [if], [then], [else]; any instance is then valid exactly when the branch
    that the condition selects is [true]. *)
Theorem conditional_schema_follows_if (condition consequence alternative : bool)
    (inst : JSON) :
  exists resource c,
    parseSchemaNode [dialectApplicators] 2
      (conditionalSchema condition consequence alternative) None emptyContext
      = (inr (Some resource), c) /\
    option_map (map key) (keys resource) = Some ["if"; "then"; "else"] /\
    exists o,
      validateInstance [dialectApplicators] 2
        (mkSchema (conditionalSchema condition consequence alternative) c) inst = inr o /\
      valid o = if condition then consequence else alternative.
Proof.
  destruct condition, consequence, alternative;
    (eexists; eexists; split; [vm_compute; reflexivity |];
     split; [reflexivity |];
     eexists; split; [vm_compute; reflexivity | reflexivity]).
Qed.
End ConditionalSchema.

Lemma annotationDescriptors_sorted fields :
  sortKeywords (annotationDescriptors fields) = inr (annotationDescriptors fields).
Proof.
  apply sortKeywords_fixed. apply respects_sortPass; [| lia].
  intros i j ki kj d Hi Hj.
  apply nth_error_In in Hi. unfold annotationDescriptors in Hi.
  apply in_map_iff in Hi. destruct Hi as [e [<- _]]. cbn.
  repeat split; intros [].
Qed.

Section AnnotationOnly.
Context `{ToolJson}.
Variable dialects : list Dialect.
Variable uri : string.
Variable d : Dialect.
Hypothesis dialect_known : getDialect dialects uri = Some d.

Lemma keywordOf_unknown k :
  lookupString k (keywords d) = None -> keywordOf (Some d) k = unknownKeyword k.
Proof. intros E. unfold keywordOf. now rewrite E. Qed.

Lemma parseKeyword_unknown recur fields k c :
  lookupString k (keywords d) = None ->
  parseKeyword recur d fields k c = (inr tt, c).
Proof.
  intros E. unfold parseKeyword. rewrite keywordOf_unknown by exact E.
  unfold nestFrame, bind, modifyFrame, unknownKeyword, nop, ret. cbn.
  now destruct c.
Qed.

Lemma parseKeywords_unknown recur fields ks c :
  (forall k, In k (map key ks) -> lookupString k (keywords d) = None) ->
  parseKeywords recur d fields ks c = (inr tt, c).
Proof.
  induction ks as [| k ks IH]; intros Hu; [reflexivity |].
  cbn [parseKeywords]. unfold bind.
  rewrite parseKeyword_unknown by (apply Hu; now left).
  apply IH. intros k' Hin. apply Hu. now right.
Qed.

Variable fields : list (string * JSON).
Hypothesis fields_unknown :
  forall k, In k (map fst fields) -> lookupString k (keywords d) = None.
Hypothesis fields_not_inherited :
  forall k, In k (map fst fields) -> inheritedMember k = false.
Hypothesis no_schema_member : getField "$schema" fields = None.

Lemma descriptors_unknown :
  sortCollected (map (fun e => collectKeyword d (fst e)) fields)
  = inr (annotationDescriptors fields).
Proof.
  assert (E : allKeywords (map (fun e => collectKeyword d (fst e)) fields)
              = Some (annotationDescriptors fields)).
  { clear no_schema_member. induction fields as [| [k v] rest IH]; [reflexivity |].
    cbn [map allKeywords fst]. unfold collectKeyword at 1.
    rewrite fields_unknown by (now left).
    rewrite fields_not_inherited by (now left).
    rewrite IH; [reflexivity | |]; intros k' Hin;
      [apply fields_unknown | apply fields_not_inherited]; now right. }
  unfold sortCollected. rewrite E. apply annotationDescriptors_sorted.
Qed.

Lemma prepareResource_unknown c :
  defaultDialect c = Some uri ->
  prepareResource dialects (JObj fields) fields None c =
    (inr (d, annotationDescriptors fields),
     setResources ((JObj fields, annotationResource uri fields) :: resources c) c).
Proof.
  intros Hdef. unfold prepareResource. cbn [isUndefined].
  unfold bind at 1. unfold setResource at 1. cbn [resourceNode createResource].
  unfold bind at 1. unfold determineDialect. rewrite no_schema_member.
  unfold bind at 1. unfold updateResource at 1.
  cbn [defaultDialect setResources resources]. rewrite Hdef, dialect_known.
  unfold ret at 1. cbn [updateNode]. rewrite jsonEqb_refl.
  unfold bind at 1. rewrite descriptors_unknown.
  cbn [liftResult]. unfold ret at 1.
  unfold bind, updateResource, ret. cbn [setResources resources updateNode].
  rewrite jsonEqb_refl. reflexivity.
Qed.


Lemma parseSchemaNode_unknown fuel c :
  defaultDialect c = Some uri ->
  getResource c (JObj fields) = None ->
  parseSchemaNode dialects (S fuel) (JObj fields) None c =
    (inr (Some (annotationResource uri fields)),
     setResources ((JObj fields, annotationResource uri fields) :: resources c) c).
Proof.
  intros Hdef Hnone. unfold parseSchemaNode, nestFrame.
  unfold bind at 1. unfold modifyFrame at 1. cbn [stack setStack].
  cbn [parseSchemaResource]. unfold bind at 1. unfold currentFrame at 1.
  cbn [stack setStack node setNode setBaseUri createSchemaFrame].
  assert (Hg : forall s c0, getResource (setStack s c0) (JObj fields)
                            = getResource c0 (JObj fields)) by reflexivity.
  rewrite !Hg, Hnone. cbn [isSchemaResource].
  unfold bind at 1. rewrite prepareResource_unknown by exact Hdef.
  cbn [fst snd]. unfold bind at 1.
  rewrite parseKeywords_unknown.
  - unfold getResource. cbn [resources setResources lookupNode]. rewrite jsonEqb_refl.
    cbn. now destruct c.
  - intros k Hin. apply fields_unknown. unfold annotationDescriptors in Hin.
    rewrite map_map in Hin. exact Hin.
Qed.

(** One round of the validation loop on an unknown keyword. *)
Lemma validateKeyword_unknown recur inst k c root rest o :
  lookupString k (keywords d) = None ->
  stack c = root :: rest ->
  output root = Some o ->
  valid o = true -> error o = None -> errors o = None ->
  exists o',
    validateKeyword recur (Some d) fields inst k c =
      (inr tt, setStack (setOutput (Some o') root :: rest) c) /\
    valid o' = true /\ error o' = None /\ errors o' = None.
Proof.
  intros Hu Hs Ho Hv He Hes. unfold validateKeyword. rewrite keywordOf_unknown by exact Hu.
  unfold nestFrame, unknownKeyword. cbn [validate].
  unfold bind at 1. unfold modifyFrame at 1. cbn [stack setStack].
  unfold bind at 1. unfold annotationValidate.
  unfold bind at 1. unfold getStack at 1. cbn [stack setStack].
  unfold bind at 1.
  erewrite attachAnnotation_run by reflexivity.
  unfold ret at 1. unfold bind at 1. unfold emitOutput. cbn [stack setStack].
  unfold emitOutputFrames. cbn [output setOutput].
  unfold frameOutput. cbn [output setOutput node setNode setNodeKey setInstance].
  destruct (getField k fields) as [value |].
  - cbn [isEmptyOutput isUndefined annotation setAnnotation error initOutputUnit newOutput
         andb].
    rewrite Hs. cbn [emitToParents]. rewrite Ho.
    unfold ret. cbn [fst snd stack setStack tl].
    eexists. split.
    + rewrite !setStack_setStack. reflexivity.
    + unfold hoistOutput, chainOutput. cbn. auto.
  - cbn [isEmptyOutput isUndefined annotation setAnnotation error initOutputUnit newOutput
         errors annotations noUnits andb].
    unfold ret. cbn [fst snd stack setStack tl]. rewrite !setStack_setStack.
    exists o. split; [| auto]. rewrite Hs. f_equal. f_equal. f_equal.
    destruct root. cbn in *. now rewrite Ho.
Qed.

Lemma validateKeywords_unknown recur inst ks c root rest o :
  (forall k, In k (map key ks) -> lookupString k (keywords d) = None) ->
  stack c = root :: rest ->
  output root = Some o ->
  valid o = true -> error o = None -> errors o = None ->
  exists o',
    validateKeywords recur (Some d) fields inst ks c =
      (inr tt, setStack (setOutput (Some o') root :: rest) c) /\
    valid o' = true /\ error o' = None /\ errors o' = None.
Proof.
  revert c root o. induction ks as [| k ks IH]; intros c root o Hu Hs Ho Hv He Hes.
  - exists o. split; [| auto]. cbn. unfold ret. f_equal.
    destruct c as [s r rf dd pc]. cbn in *. subst s. unfold setStack. cbn.
    f_equal. f_equal. destruct root. cbn in *. now subst.
  - cbn [validateKeywords]. unfold bind.
    destruct (@validateKeyword_unknown recur inst (key k) c root rest o) as (o1 & E1 & I1);
      auto. { apply Hu. now left. }
    rewrite E1. destruct I1 as (Hv1 & He1 & Hes1).
    destruct (IH (setStack (setOutput (Some o1) root :: rest) c) (setOutput (Some o1) root) o1)
      as (o2 & E2 & I2); auto. { intros k' Hin. apply Hu. now right. }
    rewrite E2. exists o2. split; [| exact I2]. now rewrite setStack_setStack.
Qed.

Lemma validateSchemaResource_unknown fuel c root rest o :
  stack c = root :: rest ->
  node root = Some (JObj fields) ->
  getResource c (JObj fields) = Some (annotationResource uri fields) ->
  output root = Some o ->
  valid o = true -> error o = None -> errors o = None ->
  exists root' o',
    validateSchemaResource dialects (S fuel) c = (inr tt, setStack (root' :: rest) c) /\
    output root' = Some o' /\ valid o' = true /\ error o' = None /\ errors o' = None.
Proof.
  intros Hs Hn Hg Ho Hv He Hes. cbn [validateSchemaResource].
  erewrite bind_ok; [| unfold currentFrame; rewrite Hs; reflexivity].
  rewrite Hn. cbv beta zeta. rewrite Hg.
  cbn [isSchemaResource annotationResource dialect keys isUndefined negb andb].
  assert (Hk : forall k, In k (map key (annotationDescriptors fields)) ->
                         lookupString k (keywords d) = None).
  { intros k Hin. apply fields_unknown. unfold annotationDescriptors in Hin.
    rewrite map_map in Hin. exact Hin. }
  change (resourceDialect dialects (annotationResource uri fields))
    with (getDialect dialects uri).
  rewrite dialect_known.
  destruct (baseUri root) as [b |] eqn:Eb; cbn [isUndefined].
  - erewrite bind_ok; [| reflexivity].
    destruct (@validateKeywords_unknown (validateSchemaResource dialects fuel)
                (instance root) (annotationDescriptors fields) c root rest o)
      as (o' & E & I); auto.
    rewrite E. eexists. exists o'. split; [reflexivity |]. split; [reflexivity | exact I].
  - erewrite bind_ok; [| unfold modifyFrame; rewrite Hs; reflexivity].
    destruct (@validateKeywords_unknown (validateSchemaResource dialects fuel)
                (instance root) (annotationDescriptors fields)
                (setStack
                   (setBaseUri (resourceBaseUri (annotationResource uri fields)) root
                    :: rest) c)
                (setBaseUri (resourceBaseUri (annotationResource uri fields)) root) rest o)
      as (o' & E & I); auto.
    rewrite E. rewrite setStack_setStack.
    eexists. exists o'. split; [reflexivity |]. split; [reflexivity | exact I].
Qed.

(** X27: a schema object whose members are all unknown to its dialect and
    name no member that objects inherit, and which has no [$schema] member,
    parses under the default dialect and accepts every instance: the output
    is valid and carries no error. *)
Theorem annotation_only_schema_accepts (fuel : nat) (inst : JSON) (c : Context) :
  defaultDialect c = Some uri ->
  getResource c (JObj fields) = None ->
  exists resource c',
    parseSchemaNode dialects (S fuel) (JObj fields) None c = (inr (Some resource), c') /\
    exists o,
      validateInstance dialects (S fuel) (mkSchema (JObj fields) c') inst = inr o /\
      valid o = true /\ error o = None /\ errors o = None.
Proof.
  intros Hdef Hnone. eexists. eexists.
  split; [apply parseSchemaNode_unknown; assumption |].
  unfold validateInstance, nestFrame. cbn [schemaContext schemaNode].
  erewrite bind_ok; [| reflexivity].
  match goal with
  | |- context [bind (validateSchemaResource dialects (S fuel)) ?k ?c0] =>
      destruct (@validateSchemaResource_unknown fuel c0 _ _ newOutput
                  eq_refl eq_refl) as (root' & o' & E & Ho' & I)
  end; try reflexivity.
  { unfold getResource. cbn [resources setStack setResources lookupNode].
    now rewrite jsonEqb_refl. }
  erewrite bind_ok; [| exact E].
  unfold bind, currentFrame, ret. cbn [stack setStack fst frameOutput]. rewrite Ho'.
  exists o'. split; [reflexivity | exact I].
Qed.

End AnnotationOnly.

Lemma annotation_only_schema_accepts_witness :
  exists resource c',
    parseSchemaNode (H := plainHost) plainDialects 1
      (JObj [("x-note", JStr "draft"); ("x-owner", JNum 7)]) None emptyContext
      = (inr (Some resource), c') /\
    exists o,
      validateInstance (H := plainHost) plainDialects 1
        (mkSchema (JObj [("x-note", JStr "draft"); ("x-owner", JNum 7)]) c') (JNum 3)
        = inr o /\
      valid o = true /\ error o = None /\ errors o = None.
Proof.
  apply (@annotation_only_schema_accepts plainHost plainDialects
           "https://json-schema.org/draft/2020-12/schema" (dialect202012 (H := plainHost))
           eq_refl [("x-note", JStr "draft"); ("x-owner", JNum 7)]).
  - intros k [<- | [<- | []]]; reflexivity.
  - intros k [<- | [<- | []]]; reflexivity.
  - reflexivity.
  - reflexivity.
  - reflexivity.
Defined.

(** ** Dates and times (format/date.ts) *)

Ltac euclid := zify; Z.to_euclidean_division_equations; lia.

Lemma N_of_digitChar k : (k < 10)%N -> N_of_ascii (digitChar k) = (48 + k)%N.
Proof. intros Hk. unfold digitChar. apply N_ascii_embedding. lia. Qed.

Lemma isDigit_digitChar k : (k < 10)%N -> isDigit (digitChar k) = true.
Proof.
  intros Hk. unfold isDigit. rewrite (N_of_digitChar Hk).
  apply andb_true_intro. split; apply N.leb_le; lia.
Qed.

Lemma digitChar_not k c : (k < 10)%N -> isDigit c = false -> Ascii.eqb (digitChar k) c = false.
Proof.
  intros Hk Hc. destruct (Ascii.eqb (digitChar k) c) eqn:E; [| reflexivity].
  apply Ascii.eqb_eq in E. subst c. now rewrite isDigit_digitChar in Hc.
Qed.


Lemma isDigit_inv c :
  isDigit c = true -> exists k, (k < 10)%N /\ c = digitChar k /\ (N_of_ascii c - 48 = k)%N.
Proof.
  unfold isDigit. intros E. apply andb_prop in E. destruct E as [E1 E2].
  apply N.leb_le in E1, E2. exists (N_of_ascii c - 48)%N. split; [lia |]. split; [| reflexivity].
  unfold digitChar. replace (48 + (N_of_ascii c - 48))%N with (N_of_ascii c) by lia.
  symmetry. apply ascii_N_embedding.
Qed.

(** The digits that the loop reads. *)
Lemma digitsLoop_reads fuel m start value buf v' buf' :
  digitsLoop fuel (Some m) start value buf = (v', buf') ->
  start <= offset buf ->
  exists ks,
    buf' = moved (List.length ks) buf /\
    Forall (fun k => (k < 10)%N) ks /\
    (forall i, i < List.length ks ->
       String.get (offset buf + i) (input buf) = Some (digitChar (nth i ks 0%N))) /\
    v' = digitsValue ks value /\
    (ks <> [] -> offset buf + List.length ks <= limit buf /\
                 offset buf - start + List.length ks <= m).
Proof.
  revert value buf. induction fuel as [| fuel IH]; intros value buf E Hstart.
  - injection E as <- <-. exists []. unfold moved. cbn. rewrite Nat.add_0_r.
    destruct buf; repeat split; auto; try (intros i Hi; lia); congruence.
  - cbn [digitsLoop] in E.
    assert (Hstop : (v', buf') = (value, buf) ->
              exists ks,
                buf' = moved (List.length ks) buf /\
                Forall (fun k => (k < 10)%N) ks /\
                (forall i, i < List.length ks ->
                   String.get (offset buf + i) (input buf) = Some (digitChar (nth i ks 0%N))) /\
                v' = digitsValue ks value /\
                (ks <> [] -> offset buf + List.length ks <= limit buf /\
                             offset buf - start + List.length ks <= m)).
    { intros [= -> ->]. exists []. unfold moved. cbn. rewrite Nat.add_0_r.
      destruct buf; repeat split; auto; try (intros i Hi; lia); congruence. }
    destruct (Nat.ltb (offset buf - start) m) eqn:Em; [| now apply Hstop].
    destruct (peekCharCode buf) as [c |] eqn:Ep; [| now apply Hstop].
    destruct (isDigit c) eqn:Ed; [| now apply Hstop].
    clear Hstop. apply IH in E; [| cbn; lia].
    destruct E as (ks & -> & Hall & Hget & -> & Hb).
    destruct (isDigit_inv _ Ed) as (k & Hk & -> & Hv). rewrite Hv.
    unfold peekCharCode in Ep. destruct (Nat.ltb (offset buf) (limit buf)) eqn:El; [| discriminate].
    apply Nat.ltb_lt in El, Em.
    exists (k :: ks). cbn [List.length advance offset input limit] in *.
    split; [unfold moved; cbn; f_equal; lia |].
    split; [now constructor |].
    split.
    { intros [| i] Hi; cbn [nth].
      - now rewrite Nat.add_0_r.
      - replace (offset buf + S i) with (S (offset buf) + i) by lia. apply Hget. lia. }
    split; [reflexivity |].
    intros _. destruct ks as [| k' ks'].
    + cbn [List.length]. lia.
    + assert (Hne : k' :: ks' <> []) by discriminate. specialize (Hb Hne).
      cbn [List.length] in *. lia.
Qed.

Lemma parseDigits_fixed_inv n buf v buf' :
  1 <= n ->
  parseDigits n (Some n) buf = (inr v, buf') ->
  exists ks,
    List.length ks = n /\
    buf' = moved n buf /\
    Forall (fun k => (k < 10)%N) ks /\
    (forall i, i < n ->
       String.get (offset buf + i) (input buf) = Some (digitChar (nth i ks 0%N))) /\
    v = digitsValue ks 0 /\
    offset buf + n <= limit buf.
Proof.
  intros Hn. unfold parseDigits, pbind, tryParseDigits.
  destruct (digitsLoop _ _ _ _ buf) as [value buf1] eqn:El.
  apply digitsLoop_reads in El; [| lia].
  destruct El as (ks & -> & Hall & Hget & -> & Hb).
  cbn [moved offset]. replace (offset buf + List.length ks - offset buf) with (List.length ks) by lia.
  cbn [orb]. destruct (Nat.ltb (List.length ks) n) eqn:Elt; cbn [andb].
  { destruct (optNatEqb n (Some n)); discriminate. }
  apply Nat.ltb_ge in Elt.
  destruct (Nat.eqb (List.length ks) 0) eqn:E0.
  { apply Nat.eqb_eq in E0. lia. }
  unfold pret. intros [= <- <-].
  assert (Hne : ks <> []) by (destruct ks; [cbn in *; lia | discriminate]).
  specialize (Hb Hne). rewrite Nat.sub_diag in Hb.
  assert (Hlen : List.length ks = n) by lia.
  exists ks. rewrite Hlen in *. repeat split; auto; lia.
Qed.

(** The converse: digits in the buffer are read. *)
Lemma digitsLoop_digits ks : forall fuel m start value buf,
  Forall (fun k => (k < 10)%N) ks ->
  (forall i, i < List.length ks ->
     String.get (offset buf + i) (input buf) = Some (digitChar (nth i ks 0%N))) ->
  offset buf + List.length ks <= limit buf ->
  start <= offset buf ->
  offset buf - start + List.length ks = m ->
  List.length ks <= fuel ->
  digitsLoop fuel (Some m) start value buf = (digitsValue ks value, moved (List.length ks) buf).
Proof.
  induction ks as [| k ks IH]; intros fuel m start value buf Hall Hget Hlim Hstart Hm Hfuel.
  - cbn [List.length digitsValue fold_left]. unfold moved. rewrite Nat.add_0_r.
    cbn [List.length] in Hm. rewrite Nat.add_0_r in Hm.
    destruct fuel; cbn [digitsLoop].
    + now destruct buf.
    + replace (Nat.ltb (offset buf - start) m) with false
        by (symmetry; apply Nat.ltb_ge; lia).
      now destruct buf.
  - destruct fuel as [| fuel]; [cbn in Hfuel; lia |].
    cbn [List.length] in *. cbn [digitsLoop].
    replace (Nat.ltb (offset buf - start) m) with true by (symmetry; apply Nat.ltb_lt; lia).
    unfold peekCharCode.
    replace (Nat.ltb (offset buf) (limit buf)) with true by (symmetry; apply Nat.ltb_lt; lia).
    pose proof (Hget 0 ltac:(lia)) as H0. rewrite Nat.add_0_r in H0. cbn [nth] in H0.
    rewrite H0. inversion Hall as [| ? ? Hk Hall' Heq]. clear Heq.
    rewrite (isDigit_digitChar Hk), (N_of_digitChar Hk).
    replace (48 + k - 48)%N with k by lia.
    rewrite (IH fuel m start _ (advance buf)); cbn [advance offset input limit]; auto; try lia.
    + unfold moved, digitsValue. cbn. f_equal. f_equal. lia.
    + intros i Hi. replace (S (offset buf) + i) with (offset buf + S i) by lia.
      apply (Hget (S i)). lia.
Qed.

Lemma parseDigits_fixed ks buf :
  ks <> [] ->
  Forall (fun k => (k < 10)%N) ks ->
  (forall i, i < List.length ks ->
     String.get (offset buf + i) (input buf) = Some (digitChar (nth i ks 0%N))) ->
  offset buf + List.length ks <= limit buf ->
  parseDigits (List.length ks) (Some (List.length ks)) buf =
    (inr (digitsValue ks 0), moved (List.length ks) buf).
Proof.
  intros Hne Hall Hget Hlim. unfold parseDigits, pbind, tryParseDigits.
  rewrite (@digitsLoop_digits ks); auto; try lia.
  cbn [moved offset]. replace (offset buf + List.length ks - offset buf) with (List.length ks) by lia.
  rewrite Nat.ltb_irrefl, andb_false_r.
  destruct (Nat.eqb (List.length ks) 0) eqn:E0; [| reflexivity].
  apply Nat.eqb_eq in E0. destruct ks; [congruence | discriminate].
Qed.

Lemma parseCharCode_ok c buf :
  offset buf < limit buf ->
  String.get (offset buf) (input buf) = Some c ->
  parseCharCode c buf = (inr tt, moved 1 buf).
Proof.
  intros Hl Hg. unfold parseCharCode, pbind, tryParseCharCode, peekCharCode.
  replace (Nat.ltb (offset buf) (limit buf)) with true by (symmetry; now apply Nat.ltb_lt).
  rewrite Hg, Ascii.eqb_refl. unfold pret, moved, advance. do 2 f_equal. lia.
Qed.

Lemma parseCharCode_inv c buf buf' :
  parseCharCode c buf = (inr tt, buf') ->
  buf' = moved 1 buf /\ offset buf < limit buf /\
  String.get (offset buf) (input buf) = Some c.
Proof.
  unfold parseCharCode, pbind, tryParseCharCode, peekCharCode.
  destruct (Nat.ltb (offset buf) (limit buf)) eqn:El; [| discriminate].
  destruct (String.get (offset buf) (input buf)) as [x |]; [| discriminate].
  destruct (Ascii.eqb x c) eqn:Ex; [| discriminate].
  intros [= <-]. apply Ascii.eqb_eq in Ex. subst x. apply Nat.ltb_lt in El.
  split; [| auto]. unfold moved, advance. f_equal. lia.
Qed.

Lemma string_ext (s t : string) :
  String.length s = String.length t ->
  (forall i, i < String.length s -> String.get i s = String.get i t) ->
  s = t.
Proof.
  revert t. induction s as [| c s IH]; intros [| c' t] Hl Hg; try discriminate; [reflexivity |].
  cbn in Hl. pose proof (Hg 0 ltac:(cbn; lia)) as H0. cbn in H0. injection H0 as <-.
  f_equal. apply IH; [lia |]. intros i Hi. apply (Hg (S i)). cbn. lia.
Qed.

Lemma four_digits ks :
  List.length ks = 4 -> Forall (fun k => (k < 10)%N) ks ->
  exists k1 k2 k3 k4,
    ks = [k1; k2; k3; k4] /\ (k1 < 10 /\ k2 < 10 /\ k3 < 10 /\ k4 < 10)%N.
Proof.
  destruct ks as [| k1 [| k2 [| k3 [| k4 [| k5 ks]]]]]; try discriminate. intros _ Hall.
  inversion Hall as [| ? ? H1 Hall1]; subst. inversion Hall1 as [| ? ? H2 Hall2]; subst.
  inversion Hall2 as [| ? ? H3 Hall3]; subst. inversion Hall3 as [| ? ? H4 Hall4]; subst.
  exists k1, k2, k3, k4. auto.
Qed.

Lemma two_digits ks :
  List.length ks = 2 -> Forall (fun k => (k < 10)%N) ks ->
  exists k1 k2, ks = [k1; k2] /\ (k1 < 10 /\ k2 < 10)%N.
Proof.
  destruct ks as [| k1 [| k2 [| k3 ks]]]; try discriminate. intros _ Hall.
  inversion Hall as [| ? ? H1 Hall1]; subst. inversion Hall1 as [| ? ? H2 Hall2]; subst.
  exists k1, k2. auto.
Qed.

Lemma parseFullDateFrom_inv isString buf d buf' :
  parseFullDateFrom isString buf = (inr d, buf') ->
  validDate d /\
  (forall i, i < 10 -> String.get (offset buf + i) (input buf) = String.get i (dateText d)) /\
  offset buf + 10 <= limit buf /\
  buf' = moved 10 buf /\
  (isString = true -> limit buf <= offset buf + 10).
Proof.
  unfold parseFullDateFrom. unfold pbind at 1.
  destruct (parseDigits 4 (Some 4) buf) as [[e | y] b1] eqn:E1; [discriminate |].
  apply parseDigits_fixed_inv in E1; [| lia].
  destruct E1 as (ks4 & L4 & -> & A4 & G4 & -> & B4).
  unfold pbind at 1.
  destruct (parseCharCode "-" _) as [[e | []] b2] eqn:E2; [discriminate |].
  apply parseCharCode_inv in E2. destruct E2 as (-> & B5 & G5).
  unfold pbind at 1.
  destruct (parseDigits 2 (Some 2) _) as [[e | m] b3] eqn:E3; [discriminate |].
  apply parseDigits_fixed_inv in E3; [| lia].
  destruct E3 as (ksm & Lm & -> & Am & Gm & -> & Bm).
  destruct (N.ltb (digitsValue ksm 0) 1 || N.ltb 12 (digitsValue ksm 0)) eqn:Cm;
    [discriminate |].
  unfold pbind at 1.
  destruct (parseCharCode "-" _) as [[e | []] b4] eqn:E4; [discriminate |].
  apply parseCharCode_inv in E4. destruct E4 as (-> & B8 & G8).
  unfold pbind at 1.
  destruct (parseDigits 2 (Some 2) _) as [[e | dd] b5] eqn:E5; [discriminate |].
  apply parseDigits_fixed_inv in E5; [| lia].
  destruct E5 as (ksd & Ld & -> & Ad & Gd & -> & Bd).
  destruct (N.ltb (digitsValue ksd 0) 1) eqn:Cd1; [discriminate |].
  destruct (N.ltb (maxDays (digitsValue ks4 0) (digitsValue ksm 0)) (digitsValue ksd 0)) eqn:Cd2;
    [discriminate |].
  unfold pbind.
  destruct (endOfString isString _) as [[e | []] b6] eqn:E6; [discriminate |].
  intros [= <- <-].
  assert (Hend : b6 = moved 10 buf /\ (isString = true -> limit buf <= offset buf + 10)).
  { unfold endOfString, parseEnd in E6. destruct isString.
    - cbn [moved offset limit input] in E6.
      destruct (Nat.ltb _ (limit buf)) eqn:El; [discriminate |].
      injection E6 as <-. apply Nat.ltb_ge in El. split; [| intros _; lia].
      unfold moved. cbn. f_equal. lia.
    - injection E6 as <-. split; [| discriminate]. unfold moved. cbn. f_equal. lia. }
  destruct Hend as [-> Hlim].
  cbn [moved offset input limit] in *.
  apply orb_false_elim in Cm. destruct Cm as [Cm1 Cm2].
  apply N.ltb_ge in Cm1, Cm2, Cd1, Cd2.
  destruct (four_digits L4 A4) as (k1 & k2 & k3 & k4 & -> & K1 & K2 & K3 & K4).
  destruct (two_digits Lm Am) as (k5 & k6 & -> & K5 & K6).
  destruct (two_digits Ld Ad) as (k7 & k8 & -> & K7 & K8).
  cbn [digitsValue fold_left] in *.
  split; [| split; [| split; [lia | split; [reflexivity | exact Hlim]]]].
  - unfold validDate. cbn [year month day]. repeat split; try assumption. lia.
  - intros i Hi. unfold dateText, pad4, pad2. cbn [year month day String.append].
    destruct i as [| [| [| [| [| [| [| [| [| [| i]]]]]]]]]]; [.. | lia]; cbn [String.get].
    + rewrite (G4 0) by lia. cbn [nth]. do 2 f_equal. euclid.
    + rewrite (G4 1) by lia. cbn [nth]. do 2 f_equal. euclid.
    + rewrite (G4 2) by lia. cbn [nth]. do 2 f_equal. euclid.
    + rewrite (G4 3) by lia. cbn [nth]. do 2 f_equal. euclid.
    + exact G5.
    + replace (offset buf + 5) with (offset buf + 4 + 1 + 0) by lia.
      rewrite (Gm 0) by lia. cbn [nth]. do 2 f_equal. euclid.
    + replace (offset buf + 6) with (offset buf + 4 + 1 + 1) by lia.
      rewrite (Gm 1) by lia. cbn [nth]. do 2 f_equal. euclid.
    + replace (offset buf + 7) with (offset buf + 4 + 1 + 2) by lia. exact G8.
    + replace (offset buf + 8) with (offset buf + 4 + 1 + 2 + 1 + 0) by lia.
      rewrite (Gd 0) by lia. cbn [nth]. do 2 f_equal. euclid.
    + replace (offset buf + 9) with (offset buf + 4 + 1 + 2 + 1 + 1) by lia.
      rewrite (Gd 1) by lia. cbn [nth]. do 2 f_equal. euclid.
Qed.

Lemma dateText_length d : String.length (dateText d) = 10.
Proof. reflexivity. Qed.

Lemma moved_moved a b buf : moved a (moved b buf) = moved (b + a) buf.
Proof. unfold moved. cbn. f_equal. lia. Qed.

Lemma parseDigits_moved ks n buf :
  ks <> [] ->
  Forall (fun k => (k < 10)%N) ks ->
  (forall i, i < List.length ks ->
     String.get (offset buf + n + i) (input buf) = Some (digitChar (nth i ks 0%N))) ->
  offset buf + n + List.length ks <= limit buf ->
  parseDigits (List.length ks) (Some (List.length ks)) (moved n buf) =
    (inr (digitsValue ks 0), moved (n + List.length ks) buf).
Proof.
  intros Hne Hall Hget Hlim. rewrite <- moved_moved.
  apply parseDigits_fixed; auto.
Qed.

Lemma parseCharCode_moved c n buf :
  offset buf + n < limit buf ->
  String.get (offset buf + n) (input buf) = Some c ->
  parseCharCode c (moved n buf) = (inr tt, moved (n + 1) buf).
Proof.
  intros Hl Hg. rewrite <- moved_moved. apply parseCharCode_ok; auto.
Qed.

(** The date parser on any buffer that holds the text of a valid date. *)
Lemma parseFullDateFrom_valid isString buf d :
  validDate d ->
  (forall i, i < 10 -> String.get (offset buf + i) (input buf) = String.get i (dateText d)) ->
  offset buf + 10 <= limit buf ->
  (isString = true -> limit buf <= offset buf + 10) ->
  parseFullDateFrom isString buf = (inr d, moved 10 buf).
Proof.
  destruct d as [y m dd]. unfold validDate. cbn [year month day].
  intros (Hy & Hm & Hd) Hg Hl Hend.
  assert (H1 : (y / 1000 < 10)%N) by euclid.
  assert (H2 : (y / 100 mod 10 < 10)%N) by euclid.
  assert (H3 : (y / 10 mod 10 < 10)%N) by euclid.
  assert (H4 : (y mod 10 < 10)%N) by euclid.
  assert (H5 : (m / 10 < 10)%N) by euclid.
  assert (H6 : (m mod 10 < 10)%N) by euclid.
  assert (Hdd : (dd <= 31)%N).
  { unfold maxDays in Hd.
    repeat match type of Hd with context [if ?b then _ else _] => destruct b end; lia. }
  assert (H7 : (dd / 10 < 10)%N) by euclid.
  assert (H8 : (dd mod 10 < 10)%N) by euclid.
  assert (Ey : ((((0 * 10 + y / 1000) * 10 + y / 100 mod 10) * 10 + y / 10 mod 10) * 10
                + y mod 10 = y)%N) by euclid.
  assert (Em : ((0 * 10 + m / 10) * 10 + m mod 10 = m)%N) by euclid.
  assert (Ed : ((0 * 10 + dd / 10) * 10 + dd mod 10 = dd)%N) by euclid.
  unfold dateText, pad4, pad2 in Hg. cbn [year month day String.append] in Hg.
  pose proof (Hg 0 ltac:(lia)) as G0. pose proof (Hg 1 ltac:(lia)) as G1.
  pose proof (Hg 2 ltac:(lia)) as G2. pose proof (Hg 3 ltac:(lia)) as G3.
  pose proof (Hg 4 ltac:(lia)) as G4. pose proof (Hg 5 ltac:(lia)) as G5.
  pose proof (Hg 6 ltac:(lia)) as G6. pose proof (Hg 7 ltac:(lia)) as G7.
  pose proof (Hg 8 ltac:(lia)) as G8. pose proof (Hg 9 ltac:(lia)) as G9.
  cbn [String.get] in G0, G1, G2, G3, G4, G5, G6, G7, G8, G9. clear Hg.
  assert (E0 : buf = moved 0 buf).
  { destruct buf as [s o l]. unfold moved. cbn. f_equal. lia. }
  assert (P4 : parseDigits 4 (Some 4) buf = (inr y, moved 4 buf)).
  { rewrite E0 at 1.
    pose proof (@parseDigits_moved
                  [(y / 1000)%N; (y / 100 mod 10)%N; (y / 10 mod 10)%N; (y mod 10)%N] 0 buf) as P.
    cbn [List.length digitsValue fold_left Nat.add] in P. rewrite Ey in P.
    apply P; [discriminate | repeat constructor; assumption | | lia].
    intros [| [| [| [| i]]]] Hi; cbn [nth]; rewrite Nat.add_0_r; try assumption; lia. }
  assert (P2m : parseDigits 2 (Some 2) (moved 5 buf) = (inr m, moved 7 buf)).
  { pose proof (@parseDigits_moved [(m / 10)%N; (m mod 10)%N] 5 buf) as P.
    cbn [List.length digitsValue fold_left Nat.add] in P. rewrite Em in P.
    apply P; [discriminate | repeat constructor; assumption | | lia].
    intros [| [| i]] Hi; cbn [nth]; [| | lia].
    - replace (offset buf + 5 + 0) with (offset buf + 5) by lia. exact G5.
    - replace (offset buf + 5 + 1) with (offset buf + 6) by lia. exact G6. }
  assert (P2d : parseDigits 2 (Some 2) (moved 8 buf) = (inr dd, moved 10 buf)).
  { pose proof (@parseDigits_moved [(dd / 10)%N; (dd mod 10)%N] 8 buf) as P.
    cbn [List.length digitsValue fold_left Nat.add] in P. rewrite Ed in P.
    apply P; [discriminate | repeat constructor; assumption | | lia].
    intros [| [| i]] Hi; cbn [nth]; [| | lia].
    - replace (offset buf + 8 + 0) with (offset buf + 8) by lia. exact G8.
    - replace (offset buf + 8 + 1) with (offset buf + 9) by lia. exact G9. }
  assert (Pc1 : parseCharCode "-" (moved 4 buf) = (inr tt, moved 5 buf)).
  { apply (@parseCharCode_moved "-"%char 4 buf); [lia | exact G4]. }
  assert (Pc2 : parseCharCode "-" (moved 7 buf) = (inr tt, moved 8 buf)).
  { apply (@parseCharCode_moved "-"%char 7 buf); [lia | exact G7]. }
  unfold parseFullDateFrom, pbind. rewrite P4, Pc1, P2m.
  replace (N.ltb m 1) with false by (symmetry; apply N.ltb_ge; lia).
  replace (N.ltb 12 m) with false by (symmetry; apply N.ltb_ge; lia).
  cbn [orb]. rewrite Pc2, P2d.
  replace (N.ltb dd 1) with false by (symmetry; apply N.ltb_ge; lia).
  replace (N.ltb (maxDays y m) dd) with false by (symmetry; apply N.ltb_ge; lia).
  unfold endOfString, parseEnd, pret. destruct isString; [| reflexivity].
  cbn [moved offset limit].
  replace (Nat.ltb (offset buf + 10) (limit buf)) with false
    by (symmetry; apply Nat.ltb_ge; auto).
  reflexivity.
Qed.

(** X28: [parseFullDate] accepts a string exactly when it is the text
    [YYYY-MM-DD] of a date of the calendar, with four, two and two digits, a
    month from 1 to 12 and a day that the month has in that year, leap
    years included; the result is that date. *)
Theorem parseFullDate_accepts_exactly_valid_dates (text : string) (d : FullDate) :
  parseFullDate text = inr d <-> validDate d /\ text = dateText d.
Proof.
  unfold parseFullDate. split.
  - destruct (parseFullDateFrom true (bufferOf text)) as [[e | d'] b] eqn:E;
      [discriminate |].
    intros [= <-]. apply parseFullDateFrom_inv in E.
    destruct E as (Hv & Hg & Hl & _ & Hend). specialize (Hend eq_refl).
    cbn [bufferOf offset input limit Nat.add] in *.
    split; [exact Hv |]. apply string_ext.
    + rewrite dateText_length. lia.
    + intros i Hi. apply Hg. lia.
  - intros [Hv ->]. rewrite (@parseFullDateFrom_valid true _ d Hv); [reflexivity | | |].
    + intros i Hi. reflexivity.
    + cbn [bufferOf offset limit]. rewrite dateText_length. lia.
    + intros _. cbn [bufferOf offset limit]. rewrite dateText_length. lia.
Qed.

(** *** The same text later in a longer input *)

Lemma get_shift p s n : String.get (String.length p + n) (p ++ s) = String.get n s.
Proof. rewrite Nat.add_comm. symmetry. apply append_correct2. Qed.

Lemma substring_shift p s start len :
  substring (String.length p + start) len (p ++ s) = substring start len s.
Proof. induction p as [| c p IH]; [reflexivity | exact IH]. Qed.

Lemma shifted_peek p b b' : shifted p b b' -> peekCharCode b = peekCharCode b'.
Proof.
  intros (Hi & Ho & Hl). unfold peekCharCode. rewrite Hi, Ho, Hl, get_shift.
  destruct (Nat.ltb (offset b') (limit b')) eqn:E.
  - apply Nat.ltb_lt in E.
    replace (Nat.ltb _ _) with true by (symmetry; apply Nat.ltb_lt; lia). reflexivity.
  - apply Nat.ltb_ge in E.
    replace (Nat.ltb _ _) with false by (symmetry; apply Nat.ltb_ge; lia). reflexivity.
Qed.

Lemma shifted_advance p b b' : shifted p b b' -> shifted p (advance b) (advance b').
Proof. intros (Hi & Ho & Hl). unfold shifted, advance. cbn. repeat split; auto; lia. Qed.

Lemma agree_pret {A} (a : A) p : agree p (pret a) (pret a).
Proof. intros b b' Hs. split; [reflexivity | exact Hs]. Qed.

Lemma agree_pthrow {A} message p : agree p (@pthrow A message) (pthrow message).
Proof. intros b b' Hs. split; [reflexivity | exact Hs]. Qed.

Lemma agree_pbind {A B} (P Q : Parser A) (F G : A -> Parser B) p :
  agree p P Q -> (forall a, agree p (F a) (G a)) -> agree p (pbind P F) (pbind Q G).
Proof.
  intros HP HF b b' Hs. destruct (HP b b' Hs) as [E1 E2]. unfold pbind.
  destruct (P b) as [[e | a] b1], (Q b') as [[e' | a'] b1']; cbn in E1, E2;
    try discriminate.
  - injection E1 as <-. split; [reflexivity | exact E2].
  - injection E1 as <-. apply HF, E2.
Qed.

Lemma agree_tryParseCharCode c p : agree p (tryParseCharCode c) (tryParseCharCode c).
Proof.
  intros b b' Hs. unfold tryParseCharCode. rewrite (shifted_peek Hs).
  destruct (peekCharCode b') as [x |]; [| split; [reflexivity | exact Hs]].
  destruct (Ascii.eqb x c); (split; [reflexivity |]); [apply shifted_advance |]; exact Hs.
Qed.

Lemma agree_parseCharCode c p : agree p (parseCharCode c) (parseCharCode c).
Proof.
  apply agree_pbind; [apply agree_tryParseCharCode |].
  intros [|]; [apply agree_pret | apply agree_pthrow].
Qed.

Lemma shifted_digitsLoop p fuel m : forall start value b b',
  shifted p b b' ->
  fst (digitsLoop fuel m (String.length p + start) value b) =
    fst (digitsLoop fuel m start value b') /\
  shifted p (snd (digitsLoop fuel m (String.length p + start) value b))
            (snd (digitsLoop fuel m start value b')).
Proof.
  induction fuel as [| fuel IH]; intros start value b b' Hs; [split; [reflexivity | exact Hs] |].
  cbn [digitsLoop]. rewrite (shifted_peek Hs).
  replace (offset b - (String.length p + start)) with (offset b' - start)
    by (destruct Hs as (_ & Ho & _); lia).
  destruct (match m with Some m0 => Nat.ltb (offset b' - start) m0 | None => true end);
    [| split; [reflexivity | exact Hs]].
  destruct (peekCharCode b') as [c |]; [| split; [reflexivity | exact Hs]].
  destruct (isDigit c); [| split; [reflexivity | exact Hs]].
  apply IH, shifted_advance, Hs.
Qed.

Lemma agree_tryParseDigits min max required p :
  agree p (tryParseDigits min max required) (tryParseDigits min max required).
Proof.
  intros b b' Hs. unfold tryParseDigits.
  pose proof (@shifted_digitsLoop p (limit b' - offset b') max (offset b') 0%N b b' Hs) as L.
  assert (Ho : offset b = String.length p + offset b') by apply Hs.
  assert (Hl : limit b = String.length p + limit b') by apply Hs.
  rewrite Ho, Hl.
  replace (String.length p + limit b' - (String.length p + offset b'))
    with (limit b' - offset b') by lia.
  destruct (digitsLoop (limit b' - offset b') max (String.length p + offset b') 0 b)
    as [v b1], (digitsLoop (limit b' - offset b') max (offset b') 0 b') as [v' b1'].
  cbn [fst snd] in L. destruct L as [<- Hs1].
  replace (offset b1 - (String.length p + offset b')) with (offset b1' - offset b')
    by (destruct Hs1 as (_ & Ho1 & _); lia).
  repeat match goal with |- context [if ?c then _ else _] => destruct c end;
    (split; [reflexivity | exact Hs1]).
Qed.

Lemma agree_parseDigits min max p : agree p (parseDigits min max) (parseDigits min max).
Proof.
  apply agree_pbind; [apply agree_tryParseDigits | intros a; apply agree_pret].
Qed.

Lemma agree_parseEnd p : agree p parseEnd parseEnd.
Proof.
  intros b b' Hs. unfold parseEnd. destruct Hs as (Hi & Ho & Hl).
  destruct (Nat.ltb (offset b') (limit b')) eqn:E.
  - apply Nat.ltb_lt in E.
    replace (Nat.ltb _ _) with true by (symmetry; apply Nat.ltb_lt; lia).
    split; [reflexivity | repeat split; auto].
  - apply Nat.ltb_ge in E.
    replace (Nat.ltb _ _) with false by (symmetry; apply Nat.ltb_ge; lia).
    split; [reflexivity | repeat split; auto].
Qed.

Lemma agree_endOfString isString p : agree p (endOfString isString) (endOfString isString).
Proof. destruct isString; [apply agree_parseEnd | apply agree_pret]. Qed.

Ltac agreement :=
  repeat first
    [ apply agree_pret | apply agree_pthrow
    | apply agree_parseCharCode | apply agree_tryParseCharCode
    | apply agree_parseDigits | apply agree_endOfString
    | apply agree_pbind; [| intros ?]
    | match goal with |- agree _ (if ?c then _ else _) _ => destruct c end ].

Lemma agree_parsePartialTime p : agree p parsePartialTime parsePartialTime.
Proof. unfold parsePartialTime. agreement. Qed.

Lemma agree_parseTimeOffset p : agree p parseTimeOffset parseTimeOffset.
Proof.
  intros b b' Hs. unfold parseTimeOffset. cbv zeta.
  apply agree_pbind; [apply agree_tryParseCharCode | intros zulu | exact Hs].
  apply agree_pbind; [agreement | intros _].
  intros b1 b1' Hs1. split; [| exact Hs1]. cbn [fst].
  destruct Hs as (_ & Ho & _), Hs1 as (Hi1 & Ho1 & _).
  rewrite Hi1, Ho.
  replace (offset b1 - (String.length p + offset b')) with (offset b1' - offset b') by lia.
  now rewrite substring_shift.
Qed.

Lemma agree_parseFullTimeFrom isString p :
  agree p (parseFullTimeFrom isString) (parseFullTimeFrom isString).
Proof.
  unfold parseFullTimeFrom.
  apply agree_pbind; [apply agree_parsePartialTime | intros time].
  apply agree_pbind; [apply agree_parseTimeOffset | intros off].
  agreement.
Qed.

Lemma string_append_assoc (a b c : string) : ((a ++ b) ++ c = a ++ b ++ c)%string.
Proof. induction a as [| x a IH]; [reflexivity | cbn; now rewrite IH]. Qed.

Lemma string_length_append (a b : string) :
  String.length (a ++ b) = String.length a + String.length b.
Proof. induction a as [| x a IH]; [reflexivity | cbn; now rewrite IH]. Qed.

Lemma string_split n : forall s, n <= String.length s ->
  exists p r, s = (p ++ r)%string /\ String.length p = n.
Proof.
  induction n as [| n IH]; intros s Hn; [exists ""%string, s; auto |].
  destruct s as [| c s]; [cbn in Hn; lia |].
  destruct (IH s ltac:(cbn in Hn; lia)) as (p & r & -> & Hp).
  exists (String c p), r. cbn. auto.
Qed.

Lemma parseEnd_stays b r b' : parseEnd b = (r, b') -> b' = b.
Proof. unfold parseEnd. destruct (Nat.ltb _ _); now intros [= _ <-]. Qed.

(** For a string, the time parser is the embedded one followed by
    [parseEnd]. *)
Lemma parseFullTimeFrom_string b t :
  fst (parseFullTimeFrom true b) = inr t <->
  exists b1, parseFullTimeFrom false b = (inr t, b1) /\ limit b1 <= offset b1.
Proof.
  unfold parseFullTimeFrom, pbind, endOfString, parseEnd, pret.
  destruct (parsePartialTime b) as [[e | time] b1]; cbn [fst];
    [split; [discriminate | intros (? & [=] & _)] |].
  destruct (parseTimeOffset b1) as [[e | off] b2]; cbn [fst];
    [split; [discriminate | intros (? & [=] & _)] |].
  destruct (Nat.ltb (offset b2) (limit b2)) eqn:E; cbn [fst].
  - apply Nat.ltb_lt in E. split; [discriminate |]. intros (b3 & [= <- <-] & Hl). lia.
  - apply Nat.ltb_ge in E. split.
    + intros [= <-]. exists b2. auto.
    + intros (b3 & [= <- <-] & _). reflexivity.
Qed.

(** X29: [parseDateTime] accepts a string exactly when it is the text of
    a valid date, an upper-case [T], and a rest that [parseFullTime]
    accepts; the result pairs that date with that time. *)
Theorem parseDateTime_is_date_T_time (s : string) (d : FullDate) (t : FullTime) :
  parseDateTime s = inr (d, t) <->
  exists rest, s = (dateText d ++ "T" ++ rest)%string /\
               validDate d /\ parseFullTime rest = inr t.
Proof.
  unfold parseDateTime, parseFullTime. split.
  - unfold parseDateTimeFrom, pbind.
    destruct (parseFullDateFrom false (bufferOf s)) as [[e | d0] b1] eqn:E1; [discriminate |].
    destruct (parseCharCode "T" b1) as [[e | []] b2] eqn:E2; [discriminate |].
    destruct (parseFullTimeFrom false b2) as [[e | t0] b3] eqn:E3; [discriminate |].
    unfold endOfString, parseEnd, pret.
    destruct (Nat.ltb (offset b3) (limit b3)) eqn:E4; [discriminate |].
    cbn [fst]. intros [= <- <-]. apply Nat.ltb_ge in E4.
    apply parseFullDateFrom_inv in E1. destruct E1 as (Hv & Hg & Hl & -> & _).
    apply parseCharCode_inv in E2. destruct E2 as (-> & HlT & HgT).
    rewrite moved_moved in *. cbn [bufferOf moved offset input limit Nat.add] in *.
    destruct (@string_split 11 s ltac:(lia)) as (p & rest & -> & Hp).
    assert (Ep : p = (dateText d0 ++ "T")%string).
    { apply string_ext; [rewrite Hp; reflexivity |].
      intros i Hi. rewrite (append_correct1 p rest) by exact Hi.
      destruct (Nat.eq_dec i 10) as [-> | Hne]; [rewrite HgT; reflexivity |].
      rewrite Hg by lia. apply (append_correct1 (dateText d0) "T").
      rewrite dateText_length. lia. }
    exists rest. split; [rewrite Ep, string_append_assoc; reflexivity |]. split; [exact Hv |].
    apply parseFullTimeFrom_string.
    assert (Hs : shifted p (moved 11 (bufferOf (p ++ rest))) (bufferOf rest)).
    { unfold shifted, bufferOf, moved. cbn. rewrite Hp. repeat split.
      rewrite string_length_append. lia. }
    destruct (agree_parseFullTimeFrom false Hs) as [F1 F2]. rewrite E3 in F1, F2.
    destruct (parseFullTimeFrom false (bufferOf rest)) as [r b3'].
    cbn [fst snd] in F1, F2. subst r. exists b3'. split; [reflexivity |].
    destruct F2 as (_ & Ho & Hlim). lia.
  - intros (rest & -> & Hv & Ht). apply parseFullTimeFrom_string in Ht.
    destruct Ht as (b3' & Et & Hend).
    unfold parseDateTimeFrom, pbind.
    rewrite (@parseFullDateFrom_valid false _ d Hv).
    + assert (Hl : String.length (dateText d ++ "T" ++ rest) = 11 + String.length rest).
      { rewrite string_length_append, dateText_length. reflexivity. }
      rewrite (@parseCharCode_moved "T"%char 10 (bufferOf (dateText d ++ "T" ++ rest))).
      * assert (Hs : shifted (dateText d ++ "T")
                       (moved (10 + 1) (bufferOf (dateText d ++ "T" ++ rest)))
                       (bufferOf rest)).
        { unfold shifted, bufferOf, moved. cbn [input offset limit].
          rewrite Hl, string_length_append, dateText_length, string_append_assoc. cbn. auto. }
        destruct (agree_parseFullTimeFrom false Hs) as [F1 F2]. rewrite Et in F1, F2.
        destruct (parseFullTimeFrom false (moved (10 + 1) _)) as [r b3].
        cbn [fst snd] in F1, F2. subst r.
        unfold endOfString, parseEnd, pret.
        replace (Nat.ltb (offset b3) (limit b3)) with false; [reflexivity |].
        symmetry. apply Nat.ltb_ge. destruct F2 as (_ & Ho & Hlim). lia.
      * cbn [bufferOf offset limit]. lia.
      * cbn [bufferOf offset input Nat.add].
        rewrite <- (dateText_length d). rewrite <- (Nat.add_0_r (String.length _)).
        rewrite get_shift. reflexivity.
    + intros i Hi. cbn [bufferOf offset input Nat.add].
      symmetry. apply (append_correct1 (dateText d) ("T" ++ rest)).
      rewrite dateText_length. exact Hi.
    + cbn [bufferOf offset limit]. rewrite string_length_append, dateText_length. lia.
    + discriminate.
Qed.

Lemma parsePartialTime_bounds b h m s ms b' :
  parsePartialTime b = (inr (h, m, s, ms), b') -> (h <= 23 /\ m <= 59 /\ s <= 60)%N.
Proof.
  unfold parsePartialTime, pbind.
  destruct (parseDigits 2 (Some 2) b) as [[e | h0] b1]; [discriminate |].
  destruct (N.ltb 23 h0) eqn:Eh; [discriminate |].
  destruct (parseCharCode ":" b1) as [[e | []] b2]; [discriminate |].
  destruct (parseDigits 2 (Some 2) b2) as [[e | m0] b3]; [discriminate |].
  destruct (N.ltb 59 m0) eqn:Em; [discriminate |].
  destruct (parseCharCode ":" b3) as [[e | []] b4]; [discriminate |].
  destruct (parseDigits 2 (Some 2) b4) as [[e | s0] b5]; [discriminate |].
  destruct (N.ltb 60 s0) eqn:Es; [discriminate |].
  apply N.ltb_ge in Eh, Em, Es.
  destruct (tryParseCharCode "." b5) as [[e | [|]] b6]; [discriminate | |].
  - destruct (parseDigits 1 None b6) as [[e | ms0] b7]; [discriminate |].
    unfold pret. intros [= <- <- <- _ _]. auto.
  - unfold pret. intros [= <- <- <- _ _]. auto.
Qed.

(** X30: a time that [parseFullTime] returns has an hour of at most 23,
    a minute of at most 59 and a second of at most 60, the leap second. *)
Theorem parseFullTime_bounds (text : string) (t : FullTime) :
  parseFullTime text = inr t ->
  (hour t <= 23 /\ minute t <= 59 /\ second t <= 60)%N.
Proof.
  unfold parseFullTime, parseFullTimeFrom, pbind.
  destruct (parsePartialTime (bufferOf text)) as [[e | [[[h m] s] ms]] b1] eqn:E1;
    [discriminate |].
  apply parsePartialTime_bounds in E1.
  destruct (parseTimeOffset b1) as [[e | off] b2]; [discriminate |].
  destruct (endOfString true b2) as [[e | []] b3]; [discriminate |].
  unfold pret. cbn [fst]. intros [= <-]. exact E1.
Qed.

Lemma parseFullTime_bounds_witness :
  (hour (mkTime 23 59 60 None "Z") <= 23 /\ minute (mkTime 23 59 60 None "Z") <= 59 /\
   second (mkTime 23 59 60 None "Z") <= 60)%N.
Proof.
  apply (@parseFullTime_bounds "23:59:60Z" (mkTime 23 59 60 None "Z")).
  vm_compute. reflexivity.
Defined.
